(** * ts-bayes: a Naive-Bayes text classifier with Laplace smoothing

    A shallow embedding of [src/index.ts] (class [Bayes]) and the properties
    of its specification.

    The classifier keeps its counters in plain JavaScript objects used as
    maps.  The embedding follows the semantics of property access of
    ECMA-262 on such objects:

    - an object created by [{}] or by [JSON.parse] has [Object.prototype] as
      its prototype, so that a read [o[k]] finds the own property [k] of
      [o] and otherwise the property [k] of [Object.prototype]
      ([constructor], [toString], [__proto__], ...);
    - [frequencyTable] builds its object with [Object.create(null)], which
      has no prototype.

    Strings are sequences of UTF-16 code units.  Numbers: the counters are
    integers (doubles are exact on integers below 2^53) or [NaN]; quotients
    are exact rationals and a score [Math.log x] is represented by [x];
    the rounding of doubles is not modelled. *)

From stdpp Require Import gmap list fin_maps.
From Stdlib Require Import ZArith QArith Qpower Lia DecimalFacts DecimalN Sorted.
From Stdlib Require String Ascii.
Import String.StringSyntax.

Local Open Scope Z_scope.

(** ** Strings *)

(** A JavaScript string is a sequence of 16-bit code units. *)
Abbreviation jsstring := (list N).

(** The string of a literal of the source (code units below 256). *)
Definition lit (s : String.string) : jsstring :=
  Ascii.N_of_ascii <$> String.list_ascii_of_string s.
Arguments lit s%_string_scope.

(** ** Numbers *)

(** The numbers that the classifier stores.  Its counters start at [0] and
    grow by the frequencies of a text: they are integers, or [NaN] once an
    increment has met something that is not a number.  They are kept
    exactly; the rounding of a double, from [2^53] on, is left out. *)
Inductive number :=
  | NaN
  | Int (z : Z).

Global Instance number_eq_dec : EqDecision number.
Proof. solve_decision. Defined.

(** [a + b] on numbers. *)
Definition num_add (a b : number) : number :=
  match a, b with
  | Int x, Int y => Int (x + y)
  | _, _ => NaN
  end.

(** [ToBoolean] on numbers: [0] and [NaN] are falsy. *)
Definition num_truthy (a : number) : bool :=
  match a with
  | Int z => negb (z =? 0)
  | NaN => false
  end.

(** Decimal digits of a natural number, most significant first. *)
Fixpoint uint_chars (d : Decimal.uint) : jsstring :=
  match d with
  | Decimal.Nil => []
  | Decimal.D0 d => 48%N :: uint_chars d
  | Decimal.D1 d => 49%N :: uint_chars d
  | Decimal.D2 d => 50%N :: uint_chars d
  | Decimal.D3 d => 51%N :: uint_chars d
  | Decimal.D4 d => 52%N :: uint_chars d
  | Decimal.D5 d => 53%N :: uint_chars d
  | Decimal.D6 d => 54%N :: uint_chars d
  | Decimal.D7 d => 55%N :: uint_chars d
  | Decimal.D8 d => 56%N :: uint_chars d
  | Decimal.D9 d => 57%N :: uint_chars d
  end.

Definition N_chars (n : N) : jsstring := uint_chars (N.to_uint n).

(** [Number.prototype.toString] on an integer: plain decimal digits.
    (JavaScript prints a number from [10^21] on with an exponent, which
    [JSON.parse] reads as well.) *)
Definition Z_chars (z : Z) : jsstring :=
  if z <? 0 then 45%N :: N_chars (Z.abs_N z) else N_chars (Z.abs_N z).

(** [ToString] on numbers. *)
Definition num_chars (a : number) : jsstring :=
  match a with
  | NaN => lit "NaN"
  | Int z => Z_chars z
  end.

(** The result of a division [a / b] of two stored numbers: [NaN], an
    infinity, or the quotient.  [QFin q] stands for the double that the
    division returns, which is the double nearest to [q]; the embedding keeps
    [q] itself. *)
Inductive quotient :=
  | QNaN
  | QInf (negative : bool)
  | QFin (q : Q).

Definition num_div (a b : number) : quotient :=
  match a, b with
  | Int x, Int y =>
      if y =? 0 then
        if x =? 0 then QNaN else QInf (x <? 0)
      else QFin (inject_Z x / inject_Z y)
  | _, _ => QNaN
  end.

(** A score is a logarithm.  [SLn q], with [0 < q], stands for the real
    number [ln q]: a sum of logarithms is the logarithm of the product and
    [ln] is increasing, so that sums and comparisons of scores are computed on
    the arguments.  The code computes the same sums in doubles. *)
Inductive score :=
  | SNaN
  | SInf (negative : bool)
  | SLn (q : Q).

Definition Qltb (x y : Q) : bool := negb (Qle_bool y x).

(** [Math.log]. *)
Definition Math_log (x : quotient) : score :=
  match x with
  | QNaN => SNaN
  | QInf true => SNaN
  | QInf false => SInf false
  | QFin q =>
      if Qltb q 0 then SNaN
      else if Qeq_bool q 0 then SInf true
      else SLn q
  end.

(** [f * c] for an integer [f] and a score [c]. *)
Definition score_scale (f : Z) (c : score) : score :=
  match c with
  | SNaN => SNaN
  | SInf neg =>
      if f =? 0 then SNaN else SInf (if f <? 0 then negb neg else neg)
  | SLn q => SLn (Qpower q f)
  end.

(** [a + b] on scores. *)
Definition score_add (a b : score) : score :=
  match a, b with
  | SNaN, _ | _, SNaN => SNaN
  | SInf n, SInf m => if Bool.eqb n m then SInf n else SNaN
  | SInf n, SLn _ => SInf n
  | SLn _, SInf m => SInf m
  | SLn p, SLn q => SLn (p * q)
  end.

(** [a > b] on scores; every comparison with [NaN] is false. *)
Definition score_gt (a b : score) : bool :=
  match a, b with
  | SNaN, _ | _, SNaN => false
  | SInf true, _ => false
  | SInf false, SInf false => false
  | SInf false, _ => true
  | SLn _, SInf true => true
  | SLn _, SInf false => false
  | SLn p, SLn q => Qltb q p
  end.

(** ** Values and property access *)

(** What a counter can hold: a number, or the string that [+=] produces when
    the property read is a built-in function inherited from
    [Object.prototype].  [VNative name suffix] is the source text of the
    built-in function [name] followed by [suffix]. *)
Inductive value :=
  | VNum (n : number)
  | VNative (name : jsstring) (suffix : jsstring).

Global Instance value_eq_dec : EqDecision value.
Proof. solve_decision. Defined.

(** The source text of a built-in function, as V8 and JavaScriptCore print
    it; every host prints a text that starts with [function]. *)
Definition nativeSource (name : jsstring) : jsstring :=
  lit "function " ++ name ++ lit "() { [native code] }".

(** [ToBoolean]; the text of a function is a non-empty string. *)
Definition truthy (v : value) : bool :=
  match v with
  | VNum n => num_truthy n
  | VNative _ _ => true
  end.

(** [ToNumber]; no text of a function is a numeric literal. *)
Definition ToNumber (v : value) : number :=
  match v with
  | VNum n => n
  | VNative _ _ => NaN
  end.

(** [v + f] for a stored value [v] and a number [f]: addition of numbers,
    concatenation when [v] is a string. *)
Definition value_add (v : value) (f : number) : value :=
  match v with
  | VNum n => VNum (num_add n f)
  | VNative name suffix => VNative name (suffix ++ num_chars f)
  end.

(** A property that a plain object inherits from [Object.prototype]. *)
Inductive inherited :=
  | IFunction (name : jsstring)   (* a built-in function *)
  | IPrototype.                   (* [__proto__], the prototype object itself *)

Definition proto : jsstring := lit "__proto__".

(** The properties of [Object.prototype] (ECMA-262, 20.1.3 and B.2.2). *)
Definition prototypeMethods : list jsstring :=
  [ lit "hasOwnProperty"; lit "isPrototypeOf"; lit "propertyIsEnumerable";
    lit "toLocaleString"; lit "toString"; lit "valueOf";
    lit "__defineGetter__"; lit "__defineSetter__";
    lit "__lookupGetter__"; lit "__lookupSetter__" ].

Definition ObjectPrototype (k : jsstring) : option inherited :=
  if decide (k = proto) then Some IPrototype
  else if decide (k = lit "constructor") then Some (IFunction (lit "Object"))
  else if decide (k ∈ prototypeMethods) then Some (IFunction k)
  else None.

(** The outcome of a read [o[k]] on a plain object. *)
Inductive property (V : Type) :=
  | Own (v : V)
  | Inherited (i : inherited)
  | Undefined.
Arguments Own {V} v.
Arguments Inherited {V} i.
Arguments Undefined {V}.

(** [o[k]]. *)
Definition get {V} (o : gmap jsstring V) (k : jsstring) : property V :=
  match o !! k with
  | Some v => Own v
  | None =>
      match ObjectPrototype k with
      | Some i => Inherited i
      | None => Undefined
      end
  end.

(** [o[k] = v] for a primitive [v].  The property [__proto__] of
    [Object.prototype] is an accessor: unless [o] has an own property of that
    name, the assignment calls its setter, which ignores a primitive. *)
Definition set {V} (o : gmap jsstring V) (k : jsstring) (v : V) : gmap jsstring V :=
  if decide (k = proto) then
    match o !! k with
    | Some _ => <[k := v]> o
    | None => o
    end
  else <[k := v]> o.

(** [Object.keys(o)]: the own keys.  JavaScript enumerates integer-like keys
    first and the others in the order of their creation; here the order is
    that of [map_to_list]. *)
Definition Object_keys {V} (o : gmap jsstring V) : list jsstring :=
  (map_to_list o).*1.

(** ** The default tokenizer *)

(** The class [\s] of regular expressions: white space and line terminators. *)
Definition isSpace (c : N) : bool :=
  (((9 <=? c) && (c <=? 13)) || (c =? 32) || (c =? 160) || (c =? 5760)
   || ((8192 <=? c) && (c <=? 8202)) || (c =? 8232) || (c =? 8233)
   || (c =? 8239) || (c =? 8287) || (c =? 12288) || (c =? 65279))%N.

(** The characters listed in the class [[^(a-zA-ZA-Яa-я0-9_)+\s]]: the
    parentheses and the plus sign stand for themselves inside a class, and
    the ranges [A-Я] and [a-я] start at the Latin letters [A] (U+0041) and
    [a] (U+0061) and end at the Cyrillic letters [Я] (U+042F) and [я]
    (U+044F). *)
Definition listed (c : N) : bool :=
  ((c =? 40) || ((97 <=? c) && (c <=? 122)) || ((65 <=? c) && (c <=? 90))
   || ((65 <=? c) && (c <=? 1071)) || ((97 <=? c) && (c <=? 1103))
   || ((48 <=? c) && (c <=? 57)) || (c =? 95) || (c =? 41) || (c =? 43))%N
  || isSpace c.

(** [text.replace(rgxPunctuation, " ")]: the class is negated and the
    expression is global, so every code unit that is not listed becomes a
    space. *)
Definition sanitize (text : jsstring) : jsstring :=
  (λ c, if listed c then c else 32%N) <$> text.

(** [s.split(/\s+/)]: the pieces between the maximal runs of white space.
    [cur] is the piece being read, reversed, and [inRun] tells that the
    last code unit read was white space.  The piece after the last run is
    always produced, also when it is empty. *)
Fixpoint splitSpaces (inRun : bool) (cur : jsstring) (s : jsstring) : list jsstring :=
  match s with
  | [] => [rev cur]
  | c :: s' =>
      if isSpace c then
        if inRun then splitSpaces true cur s'
        else rev cur :: splitSpaces true [] s'
      else splitSpaces false (c :: cur) s'
  end.

Definition split (s : jsstring) : list jsstring := splitSpaces false [] s.

Definition defaultTokenizer (text : jsstring) : list jsstring :=
  split (sanitize text).

(** ** The frequency table *)

(** [frequencyTable[token]] is set to [1] when it is falsy and incremented
    otherwise.  The table is created by [Object.create(null)], it inherits
    nothing; it is kept in the order in which its keys are created.
    JavaScript enumerates the integer-like keys of an object before the
    others; the properties proved below hold for every order of the keys. *)
Fixpoint countToken (token : jsstring) (table : list (jsstring * Z)) : list (jsstring * Z) :=
  match table with
  | [] => [(token, 1)]
  | (k, n) :: table' =>
      if decide (k = token) then (k, if n =? 0 then 1 else n + 1) :: table'
      else (k, n) :: countToken token table'
  end.

Definition frequencyTable (tokens : list jsstring) : list (jsstring * Z) :=
  foldl (λ table token, countToken token table) [] tokens.

(** ** The classifier *)

Record Bayes := {
  docCount : gmap jsstring number;
  wordCount : gmap jsstring value;
  wordFrequencyCount : gmap jsstring (gmap jsstring value);
  categories : gmap jsstring bool;
  totalDocuments : number;
  vocabularySize : number;
  tokenizer : jsstring → list jsstring;
  vocabulary : gmap jsstring bool
}.

(** [new Bayes(classifier, options)].  The tokenizer is
    [options.tokenizer || defaultTokenizer], never that of [classifier]; the
    other fields are those of [classifier] when there is one, and empty
    tables otherwise.  The new instance shares the tables of [classifier]:
    the embedding follows one instance, for as long as the other is not
    used. *)
Definition construct (classifier : option Bayes)
    (optionsTokenizer : option (jsstring → list jsstring)) : Bayes :=
  match classifier with
  | Some c =>
      {| docCount := docCount c; wordCount := wordCount c;
         wordFrequencyCount := wordFrequencyCount c; categories := categories c;
         totalDocuments := totalDocuments c; vocabularySize := vocabularySize c;
         tokenizer := default defaultTokenizer optionsTokenizer;
         vocabulary := vocabulary c |}
  | None =>
      {| docCount := ∅; wordCount := ∅; wordFrequencyCount := ∅; categories := ∅;
         totalDocuments := Int 0; vocabularySize := Int 0;
         tokenizer := default defaultTokenizer optionsTokenizer;
         vocabulary := ∅ |}
  end.

(** [new Bayes(undefined, options)]. *)
Definition newBayes (optionsTokenizer : option (jsstring → list jsstring)) : Bayes :=
  construct None optionsTokenizer.

(** The errors that the code throws. *)
Inductive error :=
  | TypeError     (* a property of [undefined] or of [null] is read *)
  | FormatError.  (* [Error("bayes.fromJson expects a valid JSON string.")] *)

(** The places where the code reaches into a built-in object of the host.
    What follows depends on the properties of that object, and on what the
    host lets a program write there; the embedding stops at that point. *)
Inductive hostAccess :=
  | HostProperty (target : inherited) (k : jsstring)
      (* [target[k]] is read and then assigned, [target] being a built-in
         function or [Object.prototype] itself *)
  | HostSetPrototype.
      (* the assignment [wordFrequencyCount["__proto__"] = {}] replaces the
         prototype of [wordFrequencyCount] *)

(** How a call ends.  [Throws] and [Leaves] carry the classifier as the call
    leaves it. *)
Inductive outcome (A : Type) :=
  | Returns (a : A)
  | Throws (e : error) (b : Bayes)
  | Leaves (h : hostAccess) (b : Bayes).
Arguments Returns {A} a.
Arguments Throws {A} e b.
Arguments Leaves {A} h b.

Global Instance outcome_bind : MBind outcome := λ A B f x,
  match x with
  | Returns a => f a
  | Throws e b => Throws e b
  | Leaves h b => Leaves h b
  end.

(** [array.forEach(body)] with the classifier threaded through. *)
Fixpoint forEach {A} (body : Bayes → A → outcome Bayes) (array : list A) (b : Bayes) : outcome Bayes :=
  match array with
  | [] => Returns b
  | x :: array' => b' ← body b x; forEach body array' b'
  end.

(** [!o[k]]. *)
Definition falsy {V} (isTrue : V → bool) (p : property V) : bool :=
  match p with
  | Own v => negb (isTrue v)
  | Inherited _ => false
  | Undefined => true
  end.

Definition initializeCategory (b : Bayes) (categoryName : jsstring) : outcome Bayes :=
  if falsy id (get (categories b) categoryName) then
    let docCount' := set (docCount b) categoryName (Int 0) in
    let wordCount' := set (wordCount b) categoryName (VNum (Int 0)) in
    if decide (categoryName = proto ∧ wordFrequencyCount b !! categoryName = None) then
      Leaves HostSetPrototype
        {| docCount := docCount'; wordCount := wordCount';
           wordFrequencyCount := wordFrequencyCount b; categories := categories b;
           totalDocuments := totalDocuments b; vocabularySize := vocabularySize b;
           tokenizer := tokenizer b; vocabulary := vocabulary b |}
    else
      Returns
        {| docCount := docCount'; wordCount := wordCount';
           wordFrequencyCount := <[categoryName := ∅]> (wordFrequencyCount b);
           categories := set (categories b) categoryName true;
           totalDocuments := totalDocuments b; vocabularySize := vocabularySize b;
           tokenizer := tokenizer b; vocabulary := vocabulary b |}
  else Returns b.

(** [o[k]++] on a table of numbers: [ToNumber] of a missing or of an
    inherited property is [NaN]. *)
Definition increment (o : gmap jsstring number) (k : jsstring) : gmap jsstring number :=
  match get o k with
  | Own n => set o k (num_add n (Int 1))
  | Inherited _ | Undefined => set o k NaN
  end.

(** [o[k] += f]: a number is added to a number and appended to a string, and
    a built-in function is turned into its source text first.  When the
    property read is the inherited [__proto__], the result is a string and
    the assignment goes to the setter, which ignores it. *)
Definition addTo (o : gmap jsstring value) (k : jsstring) (f : number) : gmap jsstring value :=
  match get o k with
  | Own v => set o k (value_add v f)
  | Inherited (IFunction name) => set o k (VNative name (num_chars f))
  | Inherited IPrototype => o
  | Undefined => set o k (VNum NaN)
  end.

(** The update of [wordFrequencyCount[category]] for one token: the
    frequency is stored when [table[token]] is falsy and added otherwise. *)
Definition countIn (table : gmap jsstring value) (token : jsstring) (frequencyInText : Z) : gmap jsstring value :=
  if falsy truthy (get table token)
  then set table token (VNum (Int frequencyInText))
  else addTo table token (Int frequencyInText).

(** The body of the loop of [learn] over the keys of the frequency table. *)
Definition learnToken (category : jsstring) (b : Bayes) (entry : jsstring * Z) : outcome Bayes :=
  let '(token, frequencyInText) := entry in
  let '(vocabulary', vocabularySize') :=
    if falsy id (get (vocabulary b) token)
    then (set (vocabulary b) token true, num_add (vocabularySize b) (Int 1))
    else (vocabulary b, vocabularySize b) in
  let b1 :=
    {| docCount := docCount b; wordCount := wordCount b;
       wordFrequencyCount := wordFrequencyCount b; categories := categories b;
       totalDocuments := totalDocuments b; vocabularySize := vocabularySize';
       tokenizer := tokenizer b; vocabulary := vocabulary' |} in
  match get (wordFrequencyCount b) category with
  | Undefined => Throws TypeError b1
  | Inherited target => Leaves (HostProperty target token) b1
  | Own table =>
      Returns
        {| docCount := docCount b;
           wordCount := addTo (wordCount b) category (Int frequencyInText);
           wordFrequencyCount :=
             <[category := countIn table token frequencyInText]> (wordFrequencyCount b);
           categories := categories b;
           totalDocuments := totalDocuments b; vocabularySize := vocabularySize';
           tokenizer := tokenizer b; vocabulary := vocabulary' |}
  end.

Definition learn (b : Bayes) (text category : jsstring) : outcome Bayes :=
  b1 ← initializeCategory b category;
  let b2 :=
    {| docCount := increment (docCount b1) category; wordCount := wordCount b1;
       wordFrequencyCount := wordFrequencyCount b1; categories := categories b1;
       totalDocuments := num_add (totalDocuments b1) (Int 1);
       vocabularySize := vocabularySize b1;
       tokenizer := tokenizer b1; vocabulary := vocabulary b1 |} in
  let tokens := tokenizer b2 text in
  forEach (learnToken category) (frequencyTable tokens) b2.

(** ** Scoring *)

(** [tokenProbability(token, category)].  The numerator is
    [(wordFrequencyCount[category][token] || 0) + 1] and the denominator
    [wordCount[category] + vocabularySize]; the division applies [ToNumber]
    to both. *)
Definition tokenProbability (b : Bayes) (token category : jsstring) : outcome quotient :=
  match get (wordFrequencyCount b) category with
  | Undefined => Throws TypeError b
  | Inherited target => Leaves (HostProperty target token) b
  | Own table =>
      let numerator :=
        match get table token with
        | Own v =>
            if truthy v then ToNumber (value_add v (Int 1)) else Int 1
        | Inherited _ => NaN    (* a function or an object, then a string *)
        | Undefined => Int 1
        end in
      let denominator :=
        match get (wordCount b) category with
        | Own v => ToNumber (value_add v (vocabularySize b))
        | Inherited _ => NaN    (* the text of a function, then a string *)
        | Undefined => NaN      (* [undefined + n] *)
        end in
      Returns (num_div numerator denominator)
  end.

Record CategoryResult := {
  name : jsstring;
  resultProbability : score
}.

Record CategoryResults := {
  chosenCategory : option jsstring;   (* [None]: never assigned, [undefined] *)
  probability : option score;
  categoryResults : list CategoryResult
}.

(** The sign of [n2.probability - n1.probability], the value of the
    comparison function given to [sort]; a [NaN] counts as [+0] there. *)
Definition byProbability (n1 n2 : CategoryResult) : comparison :=
  match resultProbability n2, resultProbability n1 with
  | SNaN, _ | _, SNaN => Eq
  | SInf m, SInf n =>
      if Bool.eqb m n then Eq else if m then Lt else Gt
  | SInf m, SLn _ => if m then Lt else Gt
  | SLn _, SInf n => if n then Gt else Lt
  | SLn q2, SLn q1 => q2 ?= q1
  end%Q.

(** [Array.prototype.sort] is stable: [x], which stands before the elements
    of [sorted], goes before the first of them that it need not follow.
    (With a [NaN] among several scores the comparison function is not
    consistent, and ECMA-262 leaves the order to the implementation.) *)
Fixpoint insertSorted {A} (compareFn : A → A → comparison) (x : A) (sorted : list A) : list A :=
  match sorted with
  | [] => [x]
  | y :: sorted' =>
      match compareFn x y with
      | Gt => y :: insertSorted compareFn x sorted'
      | _ => x :: sorted
      end
  end.

Definition Array_sort {A} (compareFn : A → A → comparison) (array : list A) : list A :=
  foldr (insertSorted compareFn) [] array.

(** The inner loop of [categorize]: the score accumulated over the frequency
    table of the text. *)
Fixpoint addTokens (b : Bayes) (category : jsstring) (table : list (jsstring * Z))
    (logProbability : score) : outcome score :=
  match table with
  | [] => Returns logProbability
  | (token, frequencyInText) :: table' =>
      p ← tokenProbability b token category;
      addTokens b category table'
        (score_add logProbability (score_scale frequencyInText (Math_log p)))
  end.

(** The prior of a category: [docCount[category] / totalDocuments]. *)
Definition categoryProbability (b : Bayes) (category : jsstring) : quotient :=
  match get (docCount b) category with
  | Own n => num_div n (totalDocuments b)
  | Inherited _ | Undefined => QNaN
  end.

(** The outer loop of [categorize]: [acc] is the result under construction
    and [maxProbability] the running maximum. *)
Fixpoint eachCategory (b : Bayes) (table : list (jsstring * Z)) (keys : list jsstring)
    (maxProbability : score) (acc : CategoryResults) : outcome CategoryResults :=
  match keys with
  | [] => Returns acc
  | category :: keys' =>
      logProbability ←
        addTokens b category table (Math_log (categoryProbability b category));
      let pushed := categoryResults acc ++
        [{| name := category; resultProbability := logProbability |}] in
      if score_gt logProbability maxProbability then
        eachCategory b table keys' logProbability
          {| chosenCategory := Some category;
             probability := Some logProbability;
             categoryResults := pushed |}
      else
        eachCategory b table keys' maxProbability
          {| chosenCategory := chosenCategory acc;
             probability := probability acc;
             categoryResults := pushed |}
  end.

Definition categorize (b : Bayes) (text : jsstring) : outcome CategoryResults :=
  let tokens := tokenizer b text in
  let table := frequencyTable tokens in
  r ← eachCategory b table (Object_keys (categories b)) (SInf true)
        {| chosenCategory := None; probability := None; categoryResults := [] |};
  Returns
    {| chosenCategory := chosenCategory r;
       probability := probability r;
       categoryResults := Array_sort byProbability (categoryResults r) |}.

(** ** JSON *)

(** What [JSON.parse] returns.  [JNumber m e] is the number [m * 10^e]; an
    object is the list of its own properties, each key once. *)
#[local] Unset Elimination Schemes.
Inductive json :=
  | JNull
  | JBool (b : bool)
  | JNumber (mantissa exponent : Z)
  | JString (s : jsstring)
  | JArray (items : list json)
  | JObject (members : list (jsstring * json)).
#[local] Set Elimination Schemes.

Local Open Scope N_scope.

(** *** [JSON.stringify] *)

Definition hexChar (d : N) : N := if d <? 10 then 48 + d else 87 + d.

(** [\uXXXX], in lower case. *)
Definition unicodeEscape (c : N) : jsstring :=
  [92; 117; hexChar (c / 4096 mod 16); hexChar (c / 256 mod 16);
   hexChar (c / 16 mod 16); hexChar (c mod 16)].

Definition isHighSurrogate (c : N) : bool := (55296 <=? c) && (c <=? 56319).
Definition isLowSurrogate (c : N) : bool := (56320 <=? c) && (c <=? 57343).

(** One code unit inside a string of a JSON text, pairs of surrogates apart. *)
Definition escapeOne (c : N) : jsstring :=
  if c =? 8 then [92; 98]            (* backspace: backslash, b *)
  else if c =? 9 then [92; 116]      (* tab: backslash, t *)
  else if c =? 10 then [92; 110]     (* line feed: backslash, n *)
  else if c =? 12 then [92; 102]     (* form feed: backslash, f *)
  else if c =? 13 then [92; 114]     (* carriage return: backslash, r *)
  else if c =? 34 then [92; 34]      (* the quote, after a backslash *)
  else if c =? 92 then [92; 92]      (* the backslash, twice *)
  else if (c <? 32) || isHighSurrogate c || isLowSurrogate c
  then unicodeEscape c
  else [c].

(** A high surrogate followed by a low one is a character and is copied;
    a surrogate on its own is escaped. *)
Fixpoint escapeAll (s : jsstring) : jsstring :=
  match s with
  | [] => []
  | c :: s' =>
      if isHighSurrogate c then
        match s' with
        | d :: s'' =>
            if isLowSurrogate d then c :: d :: escapeAll s''
            else unicodeEscape c ++ escapeAll s'
        | [] => unicodeEscape c
        end
      else escapeOne c ++ escapeAll s'
  end.

(** [QuoteJSONString]. *)
Definition quote (s : jsstring) : jsstring := 34 :: escapeAll s ++ [34].

(** A number: [NaN] is printed as [null]. *)
Definition stringifyNumber (n : number) : jsstring :=
  match n with
  | NaN => lit "null"
  | Int z => Z_chars z
  end.

Definition stringifyValue (v : value) : jsstring :=
  match v with
  | VNum n => stringifyNumber n
  | VNative name suffix => quote (nativeSource name ++ suffix)
  end.

Definition stringifyBool (b : bool) : jsstring :=
  if b then lit "true" else lit "false".

(** The members of an object, each already printed, between braces. *)
Fixpoint joinMembers (members : list (jsstring * jsstring)) : jsstring :=
  match members with
  | [] => []
  | [(k, text)] => quote k ++ 58 :: text
  | (k, text) :: members' => quote k ++ 58 :: text ++ 44 :: joinMembers members'
  end.

Definition braces (members : list (jsstring * jsstring)) : jsstring :=
  123 :: joinMembers members ++ [125].

(** An object used as a table: its own properties, in the order of
    [Object_keys]. *)
Definition stringifyTable {V} (stringify : V → jsstring) (o : gmap jsstring V) : jsstring :=
  braces (prod_map id stringify <$> map_to_list o).

(** [toJson()]: [JSON.stringify(this)].  The members are the fields of the
    class in the order of their declaration; [tokenizer] is a function and is
    left out, and so is the tokenizer inside [options].  The embedding
    follows the instances whose options hold a tokenizer and nothing else,
    for which [options] is printed as an empty object.  (The order in which
    the compiled constructor creates the fields depends on the compiler
    settings; [fromJson] reads the fields by their names.) *)
Definition toJson (b : Bayes) : jsstring :=
  braces
    [ (lit "docCount", stringifyTable stringifyNumber (docCount b));
      (lit "wordCount", stringifyTable stringifyValue (wordCount b));
      (lit "wordFrequencyCount",
         stringifyTable (stringifyTable stringifyValue) (wordFrequencyCount b));
      (lit "categories", stringifyTable stringifyBool (categories b));
      (lit "totalDocuments", stringifyNumber (totalDocuments b));
      (lit "vocabularySize", stringifyNumber (vocabularySize b));
      (lit "options", braces []);
      (lit "vocabulary", stringifyTable stringifyBool (vocabulary b)) ].

(** *** [JSON.parse] *)

Definition isWhite (c : N) : bool :=
  (c =? 32) || (c =? 9) || (c =? 10) || (c =? 13).

Fixpoint skipWhite (s : jsstring) : jsstring :=
  match s with
  | c :: s' => if isWhite c then skipWhite s' else s
  | [] => []
  end.

Definition hexValue (c : N) : option N :=
  if (48 <=? c) && (c <=? 57) then Some (c - 48)
  else if (97 <=? c) && (c <=? 102) then Some (c - 87)
  else if (65 <=? c) && (c <=? 70) then Some (c - 55)
  else None.

(** The character of a two-character escape. *)
Definition unescape (c : N) : option N :=
  match c with
  | 34 => Some 34
  | 92 => Some 92
  | 47 => Some 47
  | 98 => Some 8
  | 102 => Some 12
  | 110 => Some 10
  | 114 => Some 13
  | 116 => Some 9
  | _ => None
  end.

(** The characters of a string, after its opening quote, and what follows
    the closing quote. *)
Fixpoint parseChars (s : jsstring) : option (jsstring * jsstring) :=
  match s with
  | [] => None
  | c :: s' =>
      if c =? 34 then Some ([], s')
      else if c =? 92 then
        match s' with
        | [] => None
        | e :: s'' =>
            if e =? 117 then
              match s'' with
              | h1 :: h2 :: h3 :: h4 :: s3 =>
                  match hexValue h1, hexValue h2, hexValue h3, hexValue h4 with
                  | Some a, Some b, Some c, Some d =>
                      match parseChars s3 with
                      | Some (str, rest) =>
                          Some (a * 4096 + b * 256 + c * 16 + d :: str, rest)
                      | None => None
                      end
                  | _, _, _, _ => None
                  end
              | _ => None
              end
            else
              match unescape e with
              | Some c' =>
                  match parseChars s'' with
                  | Some (str, rest) => Some (c' :: str, rest)
                  | None => None
                  end
              | None => None
              end
        end
      else if c <? 32 then None
      else
        match parseChars s' with
        | Some (str, rest) => Some (c :: str, rest)
        | None => None
        end
  end.

Definition digit (c : N) : option (Decimal.uint → Decimal.uint) :=
  match c with
  | 48 => Some Decimal.D0
  | 49 => Some Decimal.D1
  | 50 => Some Decimal.D2
  | 51 => Some Decimal.D3
  | 52 => Some Decimal.D4
  | 53 => Some Decimal.D5
  | 54 => Some Decimal.D6
  | 55 => Some Decimal.D7
  | 56 => Some Decimal.D8
  | 57 => Some Decimal.D9
  | _ => None
  end.

(** The longest run of digits at the head of [s]. *)
Fixpoint readDigits (s : jsstring) : Decimal.uint * jsstring :=
  match s with
  | [] => (Decimal.Nil, [])
  | c :: s' =>
      match digit c with
      | Some d => let '(u, rest) := readDigits s' in (d u, rest)
      | None => (Decimal.Nil, s)
      end
  end.

(** The integer part of a number: [0], or digits that do not start with
    [0]. *)
Definition readInteger (s : jsstring) : option (Decimal.uint * jsstring) :=
  match s with
  | 48 :: rest => Some (Decimal.D0 Decimal.Nil, rest)
  | c :: _ => if (49 <=? c) && (c <=? 57) then Some (readDigits s) else None
  | [] => None
  end.

(** The fraction: nothing, or a point and at least one digit. *)
Definition readFraction (s : jsstring) : option (Decimal.uint * jsstring) :=
  match s with
  | 46 :: s' =>
      match readDigits s' with
      | (Decimal.Nil, _) => None
      | (u, rest) => Some (u, rest)
      end
  | _ => Some (Decimal.Nil, s)
  end.

(** The exponent: nothing, or [e] or [E], a sign and at least one digit. *)
Definition readExponent (s : jsstring) : option (Z * jsstring) :=
  match s with
  | c :: s' =>
      if (c =? 101) || (c =? 69) then
        let '(negative, s'') :=
          match s' with
          | 45 :: r => (true, r)
          | 43 :: r => (false, r)
          | _ => (false, s')
          end in
        match readDigits s'' with
        | (Decimal.Nil, _) => None
        | (u, rest) =>
            let e := Z.of_N (N.of_uint u) in
            Some (if negative then (- e)%Z else e, rest)
        end
      else Some (0%Z, s)
  | [] => Some (0%Z, s)
  end.

Definition parseNumber (s : jsstring) : option (json * jsstring) :=
  let '(negative, s1) :=
    match s with
    | 45 :: r => (true, r)
    | _ => (false, s)
    end in
  match readInteger s1 with
  | Some (i, s2) =>
      match readFraction s2 with
      | Some (f, s3) =>
          match readExponent s3 with
          | Some (e, rest) =>
              let m := Z.of_N (N.of_uint (Decimal.app i f)) in
              Some (JNumber (if negative then (- m)%Z else m)
                            (e - Z.of_nat (Decimal.nb_digits f))%Z, rest)
          | None => None
          end
      | None => None
      end
  | None => None
  end.

(** [o[k] = v] while an object is built: a key that is there keeps its
    place and takes the new value.  [__proto__] is a key like the others. *)
Fixpoint define (members : list (jsstring * json)) (k : jsstring) (v : json) : list (jsstring * json) :=
  match members with
  | [] => [(k, v)]
  | (k', v') :: members' =>
      if decide (k' = k) then (k', v) :: members'
      else (k', v') :: define members' k v
  end.

(** A value, the items of an array after the first bracket or a comma, and
    the members of an object after the first brace or a comma.  [fuel]
    bounds the depth of the calls; the length of the text is enough
    ([JSON_parse_depth]). *)
Fixpoint parseValue (fuel : nat) (s : jsstring) : option (json * jsstring) :=
  match fuel with
  | O => None
  | S fuel' =>
      match skipWhite s with
      | 110 :: 117 :: 108 :: 108 :: rest => Some (JNull, rest)
      | 116 :: 114 :: 117 :: 101 :: rest => Some (JBool true, rest)
      | 102 :: 97 :: 108 :: 115 :: 101 :: rest => Some (JBool false, rest)
      | 34 :: s' =>
          match parseChars s' with
          | Some (str, rest) => Some (JString str, rest)
          | None => None
          end
      | 91 :: s' =>
          match skipWhite s' with
          | 93 :: rest => Some (JArray [], rest)
          | _ => parseItems fuel' s' []
          end
      | 123 :: s' =>
          match skipWhite s' with
          | 125 :: rest => Some (JObject [], rest)
          | _ => parseMembers fuel' s' []
          end
      | s' => parseNumber s'
      end
  end
with parseItems (fuel : nat) (s : jsstring) (items : list json) : option (json * jsstring) :=
  match fuel with
  | O => None
  | S fuel' =>
      match parseValue fuel' s with
      | Some (v, s') =>
          match skipWhite s' with
          | 44 :: s'' => parseItems fuel' s'' (items ++ [v])
          | 93 :: rest => Some (JArray (items ++ [v]), rest)
          | _ => None
          end
      | None => None
      end
  end
with parseMembers (fuel : nat) (s : jsstring) (members : list (jsstring * json)) : option (json * jsstring) :=
  match fuel with
  | O => None
  | S fuel' =>
      match skipWhite s with
      | 34 :: s1 =>
          match parseChars s1 with
          | Some (k, s2) =>
              match skipWhite s2 with
              | 58 :: s3 =>
                  match parseValue fuel' s3 with
                  | Some (v, s4) =>
                      match skipWhite s4 with
                      | 44 :: s5 => parseMembers fuel' s5 (define members k v)
                      | 125 :: rest => Some (JObject (define members k v), rest)
                      | _ => None
                      end
                  | None => None
                  end
              | _ => None
              end
          | None => None
          end
      | _ => None
      end
  end.

(** [JSON.parse(text)]: one value and nothing but white space after it;
    [None] stands for the [SyntaxError]. *)
Definition JSON_parse (text : jsstring) : option json :=
  match parseValue (S (length text)) text with
  | Some (v, rest) =>
      match skipWhite rest with
      | [] => Some v
      | _ => None
      end
  | None => None
  end.

Local Close Scope N_scope.

(** *** [fromJson] *)

(** [ToBoolean] on a parsed value. *)
Definition jsonTruthy (j : json) : bool :=
  match j with
  | JNull => false
  | JBool b => b
  | JNumber m _ => negb (m =? 0)
  | JString s => negb (bool_decide (s = []))
  | JArray _ | JObject _ => true
  end.

(** [j[k]] for a parsed value other than [null] and one of the names that
    the constructor reads ([options], [tokenizer], [vocabulary], ...): an
    own property of an object, and [undefined] in every other case, since no
    built-in prototype has a property of these names. *)
Definition jsonGet (j : json) (k : jsstring) : option json :=
  match j with
  | JObject members => (list_to_map members : gmap jsstring json) !! k
  | _ => None
  end.

(** The instance that the constructor builds from a parsed value: it takes
    the fields as they are, whatever they hold; [None] is [undefined]. *)
Record Restored := {
  restoredOptions : json;
  restoredTokenizer : (jsstring → list jsstring) + json;
  restoredVocabulary : option json;
  restoredVocabularySize : option json;
  restoredTotalDocuments : option json;
  restoredDocCount : option json;
  restoredWordCount : option json;
  restoredWordFrequencyCount : option json;
  restoredCategories : option json
}.

(** [new Bayes(classifier, options)] for a [classifier] that is not [null]. *)
Definition restore (classifier : json) (options : option json) : Restored :=
  let options' :=
    match options with
    | Some o => if jsonTruthy o then o else JObject []
    | None => JObject []
    end in
  let field (k : jsstring) (fresh : json) : option json :=
    if jsonTruthy classifier then jsonGet classifier k else Some fresh in
  {| restoredOptions := options';
     restoredTokenizer :=
       match jsonGet options' (lit "tokenizer") with
       | Some t => if jsonTruthy t then inr t else inl defaultTokenizer
       | None => inl defaultTokenizer
       end;
     restoredVocabulary := field (lit "vocabulary") (JObject []);
     restoredVocabularySize := field (lit "vocabularySize") (JNumber 0 0);
     restoredTotalDocuments := field (lit "totalDocuments") (JNumber 0 0);
     restoredDocCount := field (lit "docCount") (JObject []);
     restoredWordCount := field (lit "wordCount") (JObject []);
     restoredWordFrequencyCount := field (lit "wordFrequencyCount") (JObject []);
     restoredCategories := field (lit "categories") (JObject []) |}.

(** [fromJson(jsonStr)].  The [try] covers [JSON.parse] only; reading
    [parsed.options] when [parsed] is [null] throws a [TypeError]. *)
Definition fromJson (jsonStr : jsstring) : error + Restored :=
  match JSON_parse jsonStr with
  | None => inl FormatError
  | Some JNull => inl TypeError
  | Some parsed => inr (restore parsed (jsonGet parsed (lit "options")))
  end.

(** *** Deep equality of a field and the value restored for it *)

(** The number that a parsed number is, when it is an integer. *)
Definition sameNumber (n : number) (j : json) : Prop :=
  match n, j with
  | Int z, JNumber m e =>
      if 0 <=? e then z = m * 10 ^ e else z * 10 ^ (- e) = m
  | _, _ => False
  end.

Definition sameValue (v : value) (j : json) : Prop :=
  match v with
  | VNum n => sameNumber n j
  | VNative name suffix => j = JString (nativeSource name ++ suffix)
  end.

Definition sameBool (b : bool) (j : json) : Prop := j = JBool b.

(** The same own keys, and under each key the same value. *)
Definition sameTable {V} (same : V → json → Prop) (o : gmap jsstring V) (j : json) : Prop :=
  match j with
  | JObject members =>
      NoDup members.*1 ∧
      ∀ k, match o !! k, (list_to_map members : gmap jsstring json) !! k with
           | Some v, Some j' => same v j'
           | None, None => True
           | _, _ => False
           end
  | _ => False
  end.

Definition restoredAs {V} (same : V → json → Prop) (v : V) (field : option json) : Prop :=
  match field with
  | Some j => same v j
  | None => False
  end.

(** The seven fields of the restored instance against those of [b]. *)
Definition deepEqual (b : Bayes) (r : Restored) : Prop :=
  restoredAs (sameTable sameNumber) (docCount b) (restoredDocCount r)
  ∧ restoredAs (sameTable sameValue) (wordCount b) (restoredWordCount r)
  ∧ restoredAs (sameTable (sameTable sameValue)) (wordFrequencyCount b)
      (restoredWordFrequencyCount r)
  ∧ restoredAs (sameTable sameBool) (categories b) (restoredCategories r)
  ∧ restoredAs sameNumber (totalDocuments b) (restoredTotalDocuments r)
  ∧ restoredAs (sameTable sameBool) (vocabulary b) (restoredVocabulary r)
  ∧ restoredAs sameNumber (vocabularySize b) (restoredVocabularySize r).

(** ** Sequences of operations *)

(** The public operations on an instance that are followed along a
    sequence of calls: those that change the instance, and [categorize] and
    [toJson].  ([tokenProbability] and [frequencyTable] change nothing.) *)
Inductive operation :=
  | InitializeCategory (categoryName : jsstring)
  | Learn (text category : jsstring)
  | Categorize (text : jsstring)
  | ToJson.

(** The classifier after an operation. *)
Definition perform (b : Bayes) (op : operation) : outcome Bayes :=
  match op with
  | InitializeCategory categoryName => initializeCategory b categoryName
  | Learn text category => learn b text category
  | Categorize text => _ ← categorize b text; Returns b
  | ToJson => let _ := toJson b in Returns b
  end.

(** The classifiers that the calls on one instance reach from a new one:
    along the calls that [allowed] admits and that return or throw, and by
    building a new instance on the classifier reached.  A call that reaches
    into a built-in object of the host ends the sequence: what the later
    calls do depends on what was written there.  The calls are those on the
    instance itself; what the calls on another instance that shares its
    tables do to it is followed by [learnAt] below. *)
Inductive reachableBy (allowed : Bayes → operation → Prop) : Bayes → Prop :=
  | reachable_new t : reachableBy allowed (newBayes t)
  | reachable_adopt b t :
      reachableBy allowed b → reachableBy allowed (construct (Some b) t)
  | reachable_returns b op b' :
      reachableBy allowed b → allowed b op → perform b op = Returns b' →
      reachableBy allowed b'
  | reachable_throws b op e b' :
      reachableBy allowed b → allowed b op → perform b op = Throws e b' →
      reachableBy allowed b'.

(** Every call is admitted. *)
Definition reachable : Bayes → Prop := reachableBy (λ _ _, True).

(** The calls of [learn] are admitted when no token of the text is the name
    of a property of [Object.prototype]. *)
Definition plainText (b : Bayes) (text : jsstring) : Prop :=
  Forall (λ token, ObjectPrototype token = None) (tokenizer b text).

Definition plainOperation (b : Bayes) (op : operation) : Prop :=
  match op with
  | Learn text _ => plainText b text
  | InitializeCategory _ | Categorize _ | ToJson => True
  end.

(** The calls of [learn] are admitted when the category is no name of a
    property of [Object.prototype]: these are the calls of [learn] that do
    not reach into a built-in object. *)
Definition plainCategory (b : Bayes) (op : operation) : Prop :=
  match op with
  | Learn _ category => ObjectPrototype category = None
  | InitializeCategory _ | Categorize _ | ToJson => True
  end.

(** Both: neither the category nor a token of a text learned is the name of
    a property of [Object.prototype]. *)
Definition plainCall (b : Bayes) (op : operation) : Prop :=
  plainCategory b op ∧ plainOperation b op.

Definition reachablePlain : Bayes → Prop := reachableBy plainCall.

(** ** Count conservation *)

(** The sum of the counts of a table; [None] when one of them is not an
    integer. *)
Definition addCount (v : value) (total : option Z) : option Z :=
  match v, total with
  | VNum (Int z), Some s => Some (z + s)
  | _, _ => None
  end.

Definition tableSum (table : gmap jsstring value) : option Z :=
  map_fold (λ _, addCount) (Some 0) table.

(** [wordCount[category]] is the sum of the counts of
    [wordFrequencyCount[category]]. *)
Definition conserved (b : Bayes) (category : jsstring) : Prop :=
  ∃ table total,
    wordFrequencyCount b !! category = Some table
    ∧ wordCount b !! category = Some (VNum (Int total))
    ∧ tableSum table = Some total.

(** ** Invariants *)

(** The classifier that a call leaves behind, however it ends. *)
Definition stateOf (o : outcome Bayes) : Bayes :=
  match o with
  | Returns b | Throws _ b | Leaves _ b => b
  end.

(** [vocabularySize] is the number of keys of [vocabulary], and every key
    is there with the value [true]. *)
Definition vocabularyCounted (b : Bayes) : Prop :=
  vocabularySize b = Int (Z.of_nat (size (vocabulary b)))
  ∧ ∀ k v, vocabulary b !! k = Some v → v = true.

(** What holds of every classifier that is reached from a new one: the
    keys of [categories] are not names of [Object.prototype], each of them
    has its three entries, and the counts are integers.  (A category that
    [initializeCategory] has created and that is not learned yet has no
    document.) *)
Record wellFormed (b : Bayes) : Prop := {
  wf_total :
    ∃ t, totalDocuments b = Int t ∧ 0 ≤ t;
  wf_categories :
    ∀ c v, categories b !! c = Some v → v = true ∧ ObjectPrototype c = None;
  wf_docCount :
    ∀ c, is_Some (categories b !! c) → ∃ d, docCount b !! c = Some (Int d) ∧ 0 ≤ d;
  wf_wordCount :
    ∀ c, is_Some (categories b !! c) → ∃ w, wordCount b !! c = Some (VNum (Int w));
  wf_tables :
    ∀ c, is_Some (categories b !! c) ↔ is_Some (wordFrequencyCount b !! c);
  wf_entries :
    ∀ c table token v,
      wordFrequencyCount b !! c = Some table → table !! token = Some v →
      match v with
      | VNum n => ∃ z, n = Int z ∧ 1 ≤ z
      | VNative _ _ => ObjectPrototype token ≠ None
      end
}.

(** What follows a value inside the text that [toJson] prints: nothing, a
    comma or a closing brace. *)
Definition delimited (rest : jsstring) : Prop :=
  match rest with
  | [] => True
  | c :: _ => c = 44%N ∨ c = 125%N
  end.

(** [text] is a text of the value [j]: [JSON.parse] reads [j] from it,
    whatever follows. *)
Definition renders (text : jsstring) (j : json) : Prop :=
  ∀ fuel rest, (length text ≤ fuel)%nat → delimited rest →
    parseValue fuel (text ++ rest) = Some (j, rest).

(** The values that are read back from what [toJson] prints. *)
Definition jsonNumber (n : number) : json :=
  match n with
  | NaN => JNull
  | Int z => JNumber z 0
  end.

Definition jsonValue (v : value) : json :=
  match v with
  | VNum n => jsonNumber n
  | VNative name suffix => JString (nativeSource name ++ suffix)
  end.

Definition jsonTable {V} (toJson : V → json) (o : gmap jsstring V) : json :=
  JObject (prod_map id toJson <$> map_to_list o).

(** The members of an object as they are built by successive assignments. *)
Definition defineAll (members : list (jsstring * json)) (l : list (jsstring * json)) : list (jsstring * json) :=
  foldl (λ acc m, define acc m.1 m.2) members l.

(** Members given by their key, their text and their value: as they are
    printed and as they are read. *)
Definition printed (ms : list (jsstring * (jsstring * json))) : list (jsstring * jsstring) :=
  prod_map id fst <$> ms.
Definition parsed (ms : list (jsstring * (jsstring * json))) : list (jsstring * json) :=
  prod_map id snd <$> ms.

(** The object that is read back from [toJson()]. *)
Definition jsonBayes (b : Bayes) : json :=
  JObject
    [ (lit "docCount", jsonTable jsonNumber (docCount b));
      (lit "wordCount", jsonTable jsonValue (wordCount b));
      (lit "wordFrequencyCount", jsonTable (jsonTable jsonValue) (wordFrequencyCount b));
      (lit "categories", jsonTable JBool (categories b));
      (lit "totalDocuments", jsonNumber (totalDocuments b));
      (lit "vocabularySize", jsonNumber (vocabularySize b));
      (lit "options", JObject []);
      (lit "vocabulary", jsonTable JBool (vocabulary b)) ].

(** No counter is [NaN]. *)
Definition finiteNumber (n : number) : Prop := n ≠ NaN.
Definition finiteValue (v : value) : Prop := v ≠ VNum NaN.

Definition finite (b : Bayes) : Prop :=
  map_Forall (λ _, finiteNumber) (docCount b)
  ∧ map_Forall (λ _, finiteValue) (wordCount b)
  ∧ map_Forall (λ _, map_Forall (λ _, finiteValue)) (wordFrequencyCount b)
  ∧ finiteNumber (totalDocuments b)
  ∧ finiteNumber (vocabularySize b).

(** The own entries of a category in the four tables. *)
Definition entries (b : Bayes) (c : jsstring) :
    option number * option value * option (gmap jsstring value) * option bool :=
  (docCount b !! c, wordCount b !! c, wordFrequencyCount b !! c, categories b !! c).

(** Every count of every table is a positive integer, and the counts of a
    table add up to the word count of its category. *)
Definition countsConserved (b : Bayes) : Prop :=
  ∀ c table, wordFrequencyCount b !! c = Some table →
    map_Forall (λ _ v, ∃ z, v = VNum (Int z) ∧ 1 ≤ z) table
    ∧ ∃ w, wordCount b !! c = Some (VNum (Int w)) ∧ tableSum table = Some w.

(** ** Counting *)

(** The number of times that [token] occurs in [tokens]. *)
Definition occurrences (token : jsstring) (tokens : list jsstring) : Z :=
  Z.of_nat (length (filter (λ t, t = token) tokens)).

(** ** The code units of a token *)

(** The code units that the default tokenizer leaves inside a token: those
    that its expression lists and that are not white space.  Every other
    code unit separates tokens. *)
Definition kept (c : N) : bool := listed c && negb (isSpace c).

(** The count that a table holds for a token: [0] when it holds none. *)
Definition frequency (table : gmap jsstring value) (token : jsstring) : Z :=
  match table !! token with
  | Some (VNum (Int z)) => z
  | _ => 0
  end.

(** The entries of a category read as counts: [0], and the empty table, when
    the category has none. *)
Definition documentsOf (b : Bayes) (c : jsstring) : Z :=
  match docCount b !! c with
  | Some (Int d) => d
  | _ => 0
  end.

Definition wordsOf (b : Bayes) (c : jsstring) : Z :=
  match wordCount b !! c with
  | Some (VNum (Int w)) => w
  | _ => 0
  end.

Definition tableOf (b : Bayes) (c : jsstring) : gmap jsstring value :=
  default ∅ (wordFrequencyCount b !! c).

(** A name that is no property of [Object.prototype] has its counts only
    when it is a key of [categories]. *)
Definition registered (b : Bayes) : Prop :=
  ∀ c, ObjectPrototype c = None → categories b !! c = None →
    docCount b !! c = None ∧ wordCount b !! c = None.

(** ** Documents *)

(** The sum of the document counts of the categories; [None] when one of
    them is not an integer. *)
Definition documentSum (b : Bayes) : option Z := tableSum (VNum <$> docCount b).

(** ** The vocabulary and the tables *)

(** No key of [vocabulary] is the name of a property of [Object.prototype],
    and every token that a table counts is a key of [vocabulary]. *)
Definition vocabularyCovers (b : Bayes) : Prop :=
  (∀ k, is_Some (vocabulary b !! k) → ObjectPrototype k = None)
  ∧ ∀ c table k,
      wordFrequencyCount b !! c = Some table → is_Some (table !! k) →
      is_Some (vocabulary b !! k).

(** ** Instances that share their tables *)

(** The five tables of an instance are objects, and the fields of the
    instance hold references to them.  [new Bayes()] creates five objects;
    [new Bayes(classifier)] copies the five references of [classifier] and
    the values of its two numbers: the two instances then have the same
    tables, and each has its own [totalDocuments] and [vocabularySize].  The
    tables that instances share are kept together, at one address. *)
Record Tables := {
  sharedDocCount : gmap jsstring number;
  sharedWordCount : gmap jsstring value;
  sharedWordFrequencyCount : gmap jsstring (gmap jsstring value);
  sharedCategories : gmap jsstring bool;
  sharedVocabulary : gmap jsstring bool
}.

Record Instance := {
  tablesAt : nat;
  ownTotalDocuments : number;
  ownVocabularySize : number;
  ownTokenizer : jsstring → list jsstring
}.

(** The classifier that an instance is, in a store of tables. *)
Definition view (store : gmap nat Tables) (i : Instance) : option Bayes :=
  match store !! tablesAt i with
  | Some t =>
      Some {| docCount := sharedDocCount t; wordCount := sharedWordCount t;
              wordFrequencyCount := sharedWordFrequencyCount t;
              categories := sharedCategories t;
              totalDocuments := ownTotalDocuments i;
              vocabularySize := ownVocabularySize i;
              tokenizer := ownTokenizer i; vocabulary := sharedVocabulary t |}
  | None => None
  end.

(** [new Bayes(classifier, options)] for an instance [classifier]. *)
Definition adopt (classifier : Instance)
    (optionsTokenizer : option (jsstring → list jsstring)) : Instance :=
  {| tablesAt := tablesAt classifier;
     ownTotalDocuments := ownTotalDocuments classifier;
     ownVocabularySize := ownVocabularySize classifier;
     ownTokenizer := default defaultTokenizer optionsTokenizer |}.

(** [i.learn(text, category)]: the tables are updated where they are, the
    numbers in the instance. *)
Definition learnAt (store : gmap nat Tables) (i : Instance) (text category : jsstring) :
    option (gmap nat Tables * Instance) :=
  match view store i with
  | Some b =>
      let b' := stateOf (learn b text category) in
      Some (<[tablesAt i :=
                {| sharedDocCount := docCount b'; sharedWordCount := wordCount b';
                   sharedWordFrequencyCount := wordFrequencyCount b';
                   sharedCategories := categories b';
                   sharedVocabulary := vocabulary b' |}]> store,
            {| tablesAt := tablesAt i;
               ownTotalDocuments := totalDocuments b';
               ownVocabularySize := vocabularySize b';
               ownTokenizer := ownTokenizer i |})
  | None => None
  end.

(** ** The order of the results *)

(** [y.probability > x.probability] is false: [y] is not greater than [x]. *)
Definition notGreater (x y : CategoryResult) : Prop :=
  score_gt (resultProbability y) (resultProbability x) = false.

(** Results in non-increasing order: no result is greater than one that
    stands before it. *)
Definition nonIncreasing (results : list CategoryResult) : Prop :=
  StronglySorted notGreater results.

(** The state of the outer loop of [categorize]: no result pushed is
    greater than [maxProbability]; the category chosen, when there is one,
    was pushed with [maxProbability] as its score, which is above
    [-Infinity]; and [maxProbability] is [-Infinity] as long as none is
    chosen. *)
Definition tracked (maxProbability : score) (acc : CategoryResults) : Prop :=
  (∀ x, x ∈ categoryResults acc →
     score_gt (resultProbability x) maxProbability = false)
  ∧ match chosenCategory acc with
    | Some c =>
        probability acc = Some maxProbability
        ∧ {| name := c; resultProbability := maxProbability |} ∈ categoryResults acc
        ∧ score_gt maxProbability (SInf true) = true
    | None => probability acc = None ∧ maxProbability = SInf true
    end.

(** * Properties *)

(** ** Property names inherited from [Object.prototype] *)

(** C1, count conservation, fails on the code.  The word [constructor] is
    a token of the default tokenizer.  [wordFrequencyCount["a"]] is a plain
    object, so that [wordFrequencyCount["a"]["constructor"]] is the function
    [Object], which is truthy: [+=] turns it into a string and appends the
    frequency, while [wordCount["a"]] counts the token.  After
    [new Bayes().learn("constructor", "a")] the category [a] is present,
    [wordCount["a"]] is [1], and the only entry of
    [wordFrequencyCount["a"]] is a string. *)
Lemma learn_constructor_breaks_conservation :
  let b := stateOf (learn (newBayes None) (lit "constructor") (lit "a")) in
  learn (newBayes None) (lit "constructor") (lit "a") = Returns b
  ∧ categories b !! lit "a" = Some true
  ∧ wordCount b !! lit "a" = Some (VNum (Int 1))
  ∧ wordFrequencyCount b !! lit "a"
    = Some {[ lit "constructor" := VNative (lit "Object") (lit "1") ]}
  ∧ ¬ conserved b (lit "a").
Proof.
  intros b.
  assert (wordFrequencyCount b !! lit "a"
          = Some {[ lit "constructor" := VNative (lit "Object") (lit "1") ]}) as Hb
    by (vm_compute; reflexivity).
  split; [vm_compute; reflexivity|]. split; [vm_compute; reflexivity|].
  split; [vm_compute; reflexivity|]. split; [exact Hb|].
  intros (table & total & Htable & _ & Hsum).
  rewrite Hb in Htable. injection Htable as <-.
  vm_compute in Hsum. discriminate.
Qed.

(** C2, the value of [tokenProbability], fails on the code.  After
    [new Bayes().learn("a", "c")] the category [c] is present and
    [vocabularySize] is [1]; the token [constructor] is absent from
    [wordFrequencyCount["c"]], yet the frequency read is the inherited
    function [Object] and not [0], and [tokenProbability("constructor", "c")]
    is [NaN]: neither [(0 + 1) / (1 + 1)] nor a number in the interval
    from [0] to [1]. *)
Lemma tokenProbability_constructor_is_NaN :
  let b := stateOf (learn (newBayes None) (lit "a") (lit "c")) in
  learn (newBayes None) (lit "a") (lit "c") = Returns b
  ∧ categories b !! lit "c" = Some true
  ∧ vocabularySize b = Int 1
  ∧ wordCount b !! lit "c" = Some (VNum (Int 1))
  ∧ wordFrequencyCount b !! lit "c" = Some {[ lit "a" := VNum (Int 1) ]}
  ∧ tokenProbability b (lit "constructor") (lit "c") = Returns QNaN.
Proof. intros b. split_and!; vm_compute; reflexivity. Qed.

(** C5, the chosen category against the results, fails on the code.  After
    [new Bayes().learn("a", "c")], [categorize("constructor")] scores the
    category [c] with [NaN] (see C2), and [NaN > -Infinity] is false:
    [chosenCategory] and [probability] are never assigned, while
    [categoryResults] holds one result. *)
Lemma categorize_constructor_chooses_nothing :
  let b := stateOf (learn (newBayes None) (lit "a") (lit "c")) in
  learn (newBayes None) (lit "a") (lit "c") = Returns b
  ∧ categorize b (lit "constructor")
    = Returns {| chosenCategory := None; probability := None;
                 categoryResults :=
                   [ {| name := lit "c"; resultProbability := SNaN |} ] |}.
Proof. intros b. split; vm_compute; reflexivity. Qed.

(** C10, the frame of [learn], fails on the code.  In
    [new Bayes().learn("b", "__proto__")] the category is not initialized,
    [categories["__proto__"]] being [Object.prototype], which is truthy; the
    loop then reads [wordFrequencyCount["__proto__"]["b"]], a property of
    [Object.prototype], and assigns it: a write outside the entries of the
    category, into the object that every table inherits from. *)
Lemma learn_proto_category_reaches_Object_prototype :
  let b := stateOf (learn (newBayes None) (lit "b") (lit "__proto__")) in
  learn (newBayes None) (lit "b") (lit "__proto__")
  = Leaves (HostProperty IPrototype (lit "b")) b
  ∧ categories b = ∅ ∧ wordFrequencyCount b = ∅.
Proof. intros b. split_and!; vm_compute; reflexivity. Qed.

(** ** The default tokenizer *)

(** C9, the characters that the default tokenizer replaces, fails on the
    code: parentheses, the plus sign and the brackets are neither word
    characters nor white space and are kept, so that ["a(b)"] is one token
    and not two.  The text of the example is split as the claim says. *)
Lemma defaultTokenizer_keeps_parentheses :
  defaultTokenizer (lit "a(b)") = [lit "a(b)"]
  ∧ defaultTokenizer (lit "x+[y]") = [lit "x+[y]"]
  ∧ defaultTokenizer (lit "Hello, world! 123")
    = [lit "Hello"; lit "world"; lit "123"].
Proof. repeat split; vm_compute; reflexivity. Qed.

(** ** Deserialization *)

(** C6, the errors of [fromJson], fails on the code: the text [null] is
    valid JSON, [JSON.parse] returns [null] for it, and [fromJson] then
    throws a [TypeError], reading [parsed.options], instead of returning a
    classifier. *)
Lemma fromJson_null_throws_TypeError :
  JSON_parse (lit "null") = Some JNull
  ∧ fromJson (lit "null") = inl TypeError.
Proof. split; vm_compute; reflexivity. Qed.

(** ** Loops and reads *)

Section Loops.
Context {A : Type} (P : Bayes → Prop) (Q : A → Prop).
Context (body : Bayes → A → outcome Bayes).
Hypothesis body_keeps : ∀ b x, Q x → P b → P (stateOf (body b x)).

(** What every turn of a loop keeps, the loop keeps, also when it is cut
    short. *)
Lemma forEach_keeps array b :
  Forall Q array → P b → P (stateOf (forEach body array b)).
Proof.
  intros Harray. revert b.
  induction Harray as [|x array Hx _ IH]; intros b Hb; [done|].
  simpl. specialize (body_keeps b x Hx Hb).
  destruct (body b x) as [b'| |]; simpl in *; auto.
Qed.
End Loops.

(** The scoring functions only read the classifier. *)
Lemma tokenProbability_state b token category :
  match tokenProbability b token category with
  | Returns _ => True
  | Throws _ b' | Leaves _ b' => b' = b
  end.
Proof. unfold tokenProbability. by destruct (get _ category). Qed.

Lemma addTokens_state b category table s :
  match addTokens b category table s with
  | Returns _ => True
  | Throws _ b' | Leaves _ b' => b' = b
  end.
Proof.
  revert s. induction table as [|[token f] table IH]; intros s; [done|].
  simpl. pose proof (tokenProbability_state b token category) as H.
  destruct (tokenProbability b token category); simpl; auto. apply IH.
Qed.

Lemma eachCategory_state b table keys m acc :
  match eachCategory b table keys m acc with
  | Returns _ => True
  | Throws _ b' | Leaves _ b' => b' = b
  end.
Proof.
  revert m acc. induction keys as [|c keys IH]; intros m acc; [done|].
  simpl. pose proof (addTokens_state b c table (Math_log (categoryProbability b c))) as H.
  destruct (addTokens b c table _); simpl; auto.
  destruct (score_gt a m); apply IH.
Qed.

Lemma categorize_state b text :
  match categorize b text with
  | Returns _ => True
  | Throws _ b' | Leaves _ b' => b' = b
  end.
Proof.
  unfold categorize.
  pose proof (eachCategory_state b (frequencyTable (tokenizer b text))
    (Object_keys (categories b)) (SInf true)
    {| chosenCategory := None; probability := None; categoryResults := [] |}) as H.
  destruct (eachCategory _ _ _ _ _); simpl; auto.
Qed.

(** [categorize] and [toJson] leave the classifier as it is. *)
Lemma perform_reads b op :
  match op with
  | Categorize _ | ToJson => stateOf (perform b op) = b
  | InitializeCategory _ | Learn _ _ => True
  end.
Proof.
  destruct op as [categoryName|text category|text|]; simpl; try done.
  pose proof (categorize_state b text) as H. unfold mbind, outcome_bind.
  by destruct (categorize b text).
Qed.

(** What the new classifier has, and what every admitted call keeps however
    it ends, every classifier reached has. *)
Lemma reachableBy_invariant allowed (P : Bayes → Prop) :
  (∀ t, P (newBayes t)) →
  (∀ b t, P b → P (construct (Some b) t)) →
  (∀ b op, reachableBy allowed b → P b → allowed b op → P (stateOf (perform b op))) →
  ∀ b, reachableBy allowed b → P b.
Proof.
  intros Hnew Hadopt Hstep.
  induction 1 as [t|b t _ IH|b op b' Hb IH Hallowed Hop|b op e b' Hb IH Hallowed Hop];
    auto.
  - specialize (Hstep b op Hb IH Hallowed). by rewrite Hop in Hstep.
  - specialize (Hstep b op Hb IH Hallowed). by rewrite Hop in Hstep.
Qed.

(** ** The size of the vocabulary *)

Lemma learnToken_vocabulary category b entry :
  vocabularyCounted b →
  vocabularyCounted (stateOf (learnToken category b entry))
  ∧ (size (vocabulary b) ≤ size (vocabulary (stateOf (learnToken category b entry))))%nat.
Proof.
  intros [Hsize Htrue]. destruct entry as [token f]. unfold learnToken.
  assert (∃ voc n, (if falsy id (get (vocabulary b) token)
            then (set (vocabulary b) token true, num_add (vocabularySize b) (Int 1))
            else (vocabulary b, vocabularySize b)) = (voc, n)
          ∧ n = Int (Z.of_nat (size voc))
          ∧ (∀ k v, voc !! k = Some v → v = true)
          ∧ (size (vocabulary b) ≤ size voc)%nat) as (voc & n & -> & Hn & Hvoc & Hle).
  { unfold get, set. destruct (vocabulary b !! token) as [v|] eqn:Hv.
    - rewrite (Htrue _ _ Hv). simpl. eauto 10.
    - destruct (ObjectPrototype token) eqn:Hp; simpl; [eauto 10|].
      unfold ObjectPrototype in Hp. destruct (decide (token = proto)); [done|].
      do 2 eexists. split; [done|]. rewrite Hsize. simpl.
      rewrite map_size_insert_None by done. split; [f_equal; lia|]. split; [|lia].
      intros k v Hk. rewrite lookup_insert in Hk.
      case_decide; [congruence|]. eauto. }
  destruct (get (wordFrequencyCount b) category); simpl; done.
Qed.

Lemma initializeCategory_vocabulary b category :
  vocabulary (stateOf (initializeCategory b category)) = vocabulary b
  ∧ vocabularySize (stateOf (initializeCategory b category)) = vocabularySize b.
Proof.
  unfold initializeCategory.
  destruct (falsy id _); [|done]. by case_decide.
Qed.

Lemma learn_vocabulary b text category :
  vocabularyCounted b →
  vocabularyCounted (stateOf (learn b text category))
  ∧ (size (vocabulary b) ≤ size (vocabulary (stateOf (learn b text category))))%nat.
Proof.
  intros Hb. unfold learn.
  destruct (initializeCategory_vocabulary b category) as [Hv Hn].
  destruct (initializeCategory b category) as [b1|e b1|h b1]; simpl in *;
    try (by unfold vocabularyCounted in *; rewrite Hv, Hn).
  apply (forEach_keeps (λ b', vocabularyCounted b'
           ∧ (size (vocabulary b) ≤ size (vocabulary b'))%nat) (λ _, True)).
  - intros b' x _ [Hb' Hgrow].
    destruct (learnToken_vocabulary category b' x Hb') as [? ?].
    split; [done|lia].
  - by apply Forall_true.
  - unfold vocabularyCounted in *. simpl. rewrite Hv, Hn. done.
Qed.

Lemma perform_vocabulary b op :
  vocabularyCounted b →
  vocabularyCounted (stateOf (perform b op))
  ∧ (size (vocabulary b) ≤ size (vocabulary (stateOf (perform b op))))%nat.
Proof.
  intros Hb. destruct op as [categoryName|text category|text|]; simpl.
  - destruct (initializeCategory_vocabulary b categoryName) as [Hv Hn].
    unfold vocabularyCounted in *. rewrite Hv, Hn. split; [done|lia].
  - by apply learn_vocabulary.
  - pose proof (categorize_state b text) as H. unfold mbind, outcome_bind.
    destruct (categorize b text); simpl; subst; (split; [done|lia]).
  - split; [done|lia].
Qed.

Lemma reachable_vocabulary allowed b : reachableBy allowed b → vocabularyCounted b.
Proof.
  induction 1 as [t|b t _ IH|b op b' _ IH _ Hop|b op e b' _ IH _ Hop].
  - split; [done|]. intros k v. simpl. by rewrite lookup_empty.
  - done.
  - destruct (perform_vocabulary b op IH) as [H _]. by rewrite Hop in H.
  - destruct (perform_vocabulary b op IH) as [H _]. by rewrite Hop in H.
Qed.

(** ** No category *)

(** C7.  On a classifier without categories, [categorize] returns, with no
    result and without a chosen category. *)
Theorem categorize_without_categories b text :
  categories b = ∅ →
  categorize b text
  = Returns {| chosenCategory := None; probability := None; categoryResults := [] |}.
Proof.
  intros H. unfold categorize, Object_keys. rewrite H, map_to_list_empty. done.
Qed.

Lemma categorize_without_categories_witness :
  categories (newBayes None) = ∅
  ∧ categorize (newBayes None) (lit "I love rain")
    = Returns {| chosenCategory := None; probability := None; categoryResults := [] |}.
Proof.
  split; [reflexivity|].
  apply (categorize_without_categories (newBayes None) (lit "I love rain")).
  reflexivity.
Defined.

(** ** The frequency table *)

Lemma countToken_positive token table :
  Forall (λ e : jsstring * Z, 1 ≤ e.2) table →
  Forall (λ e : jsstring * Z, 1 ≤ e.2) (countToken token table).
Proof.
  induction 1 as [|[k n] table Hn Htable IH]; simpl.
  - repeat constructor. simpl. lia.
  - simpl in Hn. case_decide; constructor; simpl; auto.
    destruct (Z.eqb_spec n 0); lia.
Qed.

(** Every frequency of a frequency table is at least [1]. *)
Lemma frequencyTable_positive tokens :
  Forall (λ e : jsstring * Z, 1 ≤ e.2) (frequencyTable tokens).
Proof.
  unfold frequencyTable.
  assert (∀ table, Forall (λ e : jsstring * Z, 1 ≤ e.2) table →
    Forall (λ e : jsstring * Z, 1 ≤ e.2)
      (foldl (λ table token, countToken token table) table tokens)) as H.
  { induction tokens as [|token tokens IH]; intros table Htable; [done|].
    simpl. apply IH. by apply countToken_positive. }
  apply H. constructor.
Qed.

Lemma countToken_keys token table k :
  k ∈ (countToken token table).*1 → k = token ∨ k ∈ table.*1.
Proof.
  induction table as [|[k' n] table IH]; simpl.
  - rewrite list_elem_of_singleton. auto.
  - case_decide; simpl; rewrite !elem_of_cons; intros [->|Hk]; auto.
    apply IH in Hk as [->|Hk]; auto.
Qed.

(** The keys of a frequency table are tokens. *)
Lemma frequencyTable_keys tokens k :
  k ∈ (frequencyTable tokens).*1 → k ∈ tokens.
Proof.
  unfold frequencyTable.
  assert (∀ table, k ∈ (foldl (λ table token, countToken token table) table tokens).*1 →
    k ∈ table.*1 ∨ k ∈ tokens) as H.
  { induction tokens as [|token tokens IH]; intros table Hk; [by left|].
    simpl in Hk. apply IH in Hk as [Hk|Hk].
    - apply countToken_keys in Hk as [->|Hk]; [right; left|by left].
    - right. by right. }
  intros Hk. apply H in Hk as [Hk|Hk]; [|done]. simpl in Hk. by apply elem_of_nil in Hk.
Qed.

(** ** Reads and writes of properties *)

Lemma ObjectPrototype_None_proto k : ObjectPrototype k = None → k ≠ proto.
Proof. intros H ->. done. Qed.

Lemma set_plain {V} (o : gmap jsstring V) k v : k ≠ proto → set o k v = <[k := v]> o.
Proof. intros H. unfold set. by destruct (decide (k = proto)). Qed.

Lemma set_lookup_ne {V} (o : gmap jsstring V) k k' v :
  k ≠ k' → set o k v !! k' = o !! k'.
Proof.
  intros H. unfold set. destruct (decide (k = proto)); [destruct (o !! k)|];
    rewrite ?lookup_insert_ne; done.
Qed.

Lemma set_lookup {V} (o : gmap jsstring V) k v :
  set o k v !! k =
    if decide (k = proto) then (match o !! k with Some _ => Some v | None => None end)
    else Some v.
Proof.
  unfold set. destruct (decide (k = proto)).
  - destruct (o !! k) eqn:H; [by rewrite lookup_insert_eq|done].
  - by rewrite lookup_insert_eq.
Qed.

Lemma get_Own {V} (o : gmap jsstring V) k v : o !! k = Some v → get o k = Own v.
Proof. intros H. unfold get. by rewrite H. Qed.

Lemma get_Own_inv {V} (o : gmap jsstring V) k v : get o k = Own v → o !! k = Some v.
Proof.
  unfold get. destruct (o !! k); [congruence|]. by destruct (ObjectPrototype k).
Qed.

Lemma get_plain {V} (o : gmap jsstring V) k :
  ObjectPrototype k = None →
  get o k = match o !! k with Some v => Own v | None => Undefined end.
Proof. intros H. unfold get. by rewrite H. Qed.

Lemma addTo_lookup_ne o k k' f : k ≠ k' → addTo o k f !! k' = o !! k'.
Proof.
  intros H. unfold addTo.
  destruct (get o k) as [v|[name|]|]; rewrite ?set_lookup_ne; done.
Qed.

Lemma countIn_lookup_ne table token token' f :
  token ≠ token' → countIn table token f !! token' = table !! token'.
Proof.
  intros H. unfold countIn.
  destruct (falsy truthy _); [by rewrite set_lookup_ne|by apply addTo_lookup_ne].
Qed.

(** The entry of a token after [countIn]. *)
Lemma countIn_lookup table token f :
  countIn table token f !! token =
    match table !! token with
    | Some v => Some (if truthy v then value_add v (Int f) else VNum (Int f))
    | None =>
        match ObjectPrototype token with
        | Some (IFunction name) => Some (VNative name (Z_chars f))
        | Some IPrototype => None
        | None => Some (VNum (Int f))
        end
    end.
Proof.
  unfold countIn, addTo, get.
  destruct (table !! token) as [v|] eqn:Hv; simpl.
  - destruct (truthy v); simpl; rewrite set_lookup, Hv; by case_decide.
  - destruct (ObjectPrototype token) as [[name|]|] eqn:Hp; simpl.
    + rewrite set_lookup, Hv. case_decide; [by subst|done].
    + done.
    + rewrite set_lookup. apply ObjectPrototype_None_proto in Hp. by case_decide.
Qed.

(** ** Well-formed classifiers *)

Lemma wellFormed_vocabulary b voc n :
  wellFormed b →
  wellFormed
    {| docCount := docCount b; wordCount := wordCount b;
       wordFrequencyCount := wordFrequencyCount b; categories := categories b;
       totalDocuments := totalDocuments b; vocabularySize := n;
       tokenizer := tokenizer b; vocabulary := voc |}.
Proof. intros []. by constructor. Qed.

Lemma learnToken_wellFormed category b entry :
  1 ≤ entry.2 → wellFormed b → wellFormed (stateOf (learnToken category b entry)).
Proof.
  destruct entry as [token f]. simpl. intros Hf Hb. unfold learnToken.
  destruct (if falsy id (get (vocabulary b) token)
            then (set (vocabulary b) token true, num_add (vocabularySize b) (Int 1))
            else (vocabulary b, vocabularySize b)) as [voc n].
  destruct (get (wordFrequencyCount b) category) as [table|i|] eqn:Hget; simpl;
    try (by apply wellFormed_vocabulary).
  apply get_Own_inv in Hget.
  assert (is_Some (categories b !! category)) as [v Hcat].
  { apply (wf_tables b Hb). eauto. }
  destruct (wf_categories b Hb _ _ Hcat) as [-> Hplain].
  pose proof (ObjectPrototype_None_proto _ Hplain) as Hne.
  destruct (wf_wordCount b Hb category) as [w Hw]; [eauto|].
  constructor; simpl; try apply Hb.
  - intros c Hc. unfold addTo. rewrite (get_Own _ _ _ Hw), set_plain by done.
    rewrite lookup_insert. case_decide; [simpl; eauto|]. by apply (wf_wordCount b Hb).
  - intros c. rewrite lookup_insert. case_decide; [subst|apply Hb].
    split; eauto.
  - intros c table' token' v. rewrite lookup_insert.
    case_decide as Hc; [|apply Hb]. subst c. intros [= <-].
    pose proof (wf_entries b Hb category table) as Hentries.
    destruct (decide (token = token')) as [<-|Hne'].
    + rewrite countIn_lookup.
      destruct (table !! token) as [old|] eqn:Hold.
      * specialize (Hentries token old Hget Hold).
        intros [= <-]. destruct old as [m|nm sfx]; [|done].
        destruct Hentries as (z & -> & Hz). simpl.
        destruct (Z.eqb_spec z 0); [lia|]. simpl. eexists. split; [done|lia].
      * destruct (ObjectPrototype token) as [[name|]|] eqn:Hproto; [| |]; intros [= <-];
          [congruence|]. eexists. split; [done|lia].
    + rewrite countIn_lookup_ne by done. by apply Hentries.
Qed.

(** [initializeCategory] followed by the two increments of [learn]. *)
Lemma initializeCategory_wellFormed b category b1 :
  wellFormed b → initializeCategory b category = Returns b1 →
  wellFormed
    {| docCount := increment (docCount b1) category; wordCount := wordCount b1;
       wordFrequencyCount := wordFrequencyCount b1; categories := categories b1;
       totalDocuments := num_add (totalDocuments b1) (Int 1);
       vocabularySize := vocabularySize b1;
       tokenizer := tokenizer b1; vocabulary := vocabulary b1 |}.
Proof.
  intros Hb. unfold initializeCategory, get.
  destruct (wf_total b Hb) as (t & Ht & Ht0).
  destruct (categories b !! category) as [v|] eqn:Hcat; simpl.
  - (* the category is there *)
    destruct (wf_categories b Hb _ _ Hcat) as [-> Hplain]. simpl. intros [= <-].
    destruct (wf_docCount b Hb category) as (d & Hd & Hd1); [eauto|].
    pose proof (ObjectPrototype_None_proto _ Hplain) as Hne.
    constructor; simpl; try apply Hb.
    + rewrite Ht. simpl. exists (t + 1). split; [done|]. lia.
    + intros c Hc. unfold increment. rewrite (get_Own _ _ _ Hd), set_plain by done.
      rewrite lookup_insert. case_decide; [simpl; eexists; split; [done|lia]|].
      by apply (wf_docCount b Hb).
  - destruct (ObjectPrototype category) as [i|] eqn:Hproto; simpl.
    + (* an inherited name: nothing is initialized *)
      intros [= <-]. constructor; simpl; try apply Hb.
      * rewrite Ht. simpl. exists (t + 1). split; [done|]. lia.
      * intros c Hc. assert (category ≠ c) as Hne.
        { intros <-. destruct Hc as [v Hv]. congruence. }
        unfold increment. destruct (get (docCount b) category);
          rewrite set_lookup_ne by done; by apply (wf_docCount b Hb).
    + (* a new category *)
      pose proof (ObjectPrototype_None_proto _ Hproto) as Hne.
      case_decide as Hcase; [by destruct Hcase|]. intros [= <-].
      rewrite !set_plain by done.
      constructor; simpl.
      * rewrite Ht. simpl. exists (t + 1). split; [done|]. lia.
      * intros c v. rewrite lookup_insert. case_decide; [by intros [= <-]; subst|].
        apply Hb.
      * intros c. rewrite lookup_insert. unfold increment.
        rewrite (get_Own _ category (Int 0)) by apply lookup_insert_eq.
        rewrite set_plain by done. rewrite insert_insert_eq.
        rewrite lookup_insert. case_decide; [simpl; eexists; split; [done|lia]|].
        by apply (wf_docCount b Hb).
      * intros c. rewrite !lookup_insert. case_decide; [eauto|].
        by apply (wf_wordCount b Hb).
      * intros c. rewrite !lookup_insert. case_decide; [split; eauto|]. apply Hb.
      * intros c table token v. rewrite lookup_insert.
        case_decide; [by intros [= <-]|]. apply Hb.
Qed.

Lemma initializeCategory_abrupt_state b category :
  match initializeCategory b category with
  | Returns _ => True
  | Throws _ _ => False
  | Leaves _ b' => ¬ wellFormed b
  end.
Proof.
  unfold initializeCategory, get.
  destruct (categories b !! category) as [v|] eqn:Hcat; simpl.
  - destruct v; simpl; [done|]. case_decide as Hc; [|done].
    intros Hb. by destruct (wf_categories b Hb _ _ Hcat).
  - destruct (ObjectPrototype category) eqn:Hp; simpl; [done|].
    case_decide as Hc; [|done]. destruct Hc as [-> _]. done.
Qed.

(** [initializeCategory] called from outside. *)
Lemma initializeCategory_stays_wellFormed b category :
  wellFormed b → wellFormed (stateOf (initializeCategory b category)).
Proof.
  intros Hb. unfold initializeCategory, get.
  destruct (categories b !! category) as [v|] eqn:Hcat; simpl.
  - by destruct (wf_categories b Hb _ _ Hcat) as [-> _].
  - destruct (ObjectPrototype category) as [i|] eqn:Hproto; simpl; [done|].
    pose proof (ObjectPrototype_None_proto _ Hproto) as Hne.
    case_decide as Hcase; [by destruct Hcase|]. simpl.
    rewrite !set_plain by done.
    constructor; simpl.
    + apply Hb.
    + intros c v. rewrite lookup_insert. case_decide; [by intros [= <-]; subst|].
      apply Hb.
    + intros c. rewrite !lookup_insert. case_decide; [eexists; split; [done|lia]|].
      by apply (wf_docCount b Hb).
    + intros c. rewrite !lookup_insert. case_decide; [eauto|].
      by apply (wf_wordCount b Hb).
    + intros c. rewrite !lookup_insert. case_decide; [split; eauto|]. apply Hb.
    + intros c table token v. rewrite lookup_insert.
      case_decide; [by intros [= <-]|]. apply Hb.
Qed.

Lemma learn_wellFormed b text category :
  wellFormed b → wellFormed (stateOf (learn b text category)).
Proof.
  intros Hb. unfold learn.
  pose proof (initializeCategory_wellFormed b category) as Hinit.
  pose proof (initializeCategory_abrupt_state b category) as Habrupt.
  destruct (initializeCategory b category) as [b1|e b1|h b1]; simpl in *; [|done..].
  apply (forEach_keeps wellFormed (λ e, 1 ≤ e.2)).
  - intros b' x Hx Hb'. by apply learnToken_wellFormed.
  - apply frequencyTable_positive.
  - by apply Hinit.
Qed.

Lemma perform_wellFormed b op :
  wellFormed b → wellFormed (stateOf (perform b op)).
Proof.
  intros Hb. destruct op as [categoryName|text category|text|]; simpl.
  - by apply initializeCategory_stays_wellFormed.
  - by apply learn_wellFormed.
  - pose proof (categorize_state b text) as H. unfold mbind, outcome_bind.
    destruct (categorize b text); simpl; by subst.
  - done.
Qed.

Lemma newBayes_wellFormed t : wellFormed (newBayes t).
Proof.
  constructor; simpl.
  - exists 0. split; [done|lia].
  - intros c v. by rewrite lookup_empty.
  - intros c [v Hv]. by rewrite lookup_empty in Hv.
  - intros c [v Hv]. by rewrite lookup_empty in Hv.
  - intros c. rewrite !lookup_empty. split; intros [v Hv]; done.
  - intros c table token v. by rewrite lookup_empty.
Qed.

Lemma reachable_wellFormed allowed b : reachableBy allowed b → wellFormed b.
Proof.
  induction 1 as [t|b t _ IH|b op b' _ IH _ Hop|b op e b' _ IH _ Hop].
  - apply newBayes_wellFormed.
  - destruct IH. by constructor.
  - pose proof (perform_wellFormed b op IH) as H. by rewrite Hop in H.
  - pose proof (perform_wellFormed b op IH) as H. by rewrite Hop in H.
Qed.

(** ** Counting a token *)

Lemma countIn_absent table token f :
  ObjectPrototype token = None → table !! token = None →
  countIn table token f = <[token := VNum (Int f)]> table.
Proof.
  intros Hp Hnone. unfold countIn. rewrite get_plain, Hnone by done. simpl.
  apply set_plain. by apply ObjectPrototype_None_proto.
Qed.

Lemma countIn_present table token f n :
  ObjectPrototype token = None → table !! token = Some (VNum (Int n)) → n ≠ 0 →
  countIn table token f = <[token := VNum (Int (n + f))]> table.
Proof.
  intros Hp Hsome Hn. unfold countIn, addTo. rewrite get_plain, Hsome by done.
  simpl. destruct (Z.eqb_spec n 0); [done|]. simpl.
  apply set_plain. by apply ObjectPrototype_None_proto.
Qed.

#[local] Arguments learnToken : simpl never.

(** The body of the loop when the category has its table. *)
Lemma learnToken_returns category b token f table :
  wordFrequencyCount b !! category = Some table →
  ∃ voc n,
    learnToken category b (token, f) = Returns
      {| docCount := docCount b;
         wordCount := addTo (wordCount b) category (Int f);
         wordFrequencyCount := <[category := countIn table token f]> (wordFrequencyCount b);
         categories := categories b;
         totalDocuments := totalDocuments b; vocabularySize := n;
         tokenizer := tokenizer b; vocabulary := voc |}.
Proof.
  intros Htable. unfold learnToken.
  destruct (if falsy id (get (vocabulary b) token)
            then (set (vocabulary b) token true, num_add (vocabularySize b) (Int 1))
            else (vocabulary b, vocabularySize b)) as [voc n].
  rewrite (get_Own _ _ _ Htable). eauto.
Qed.

(** ** The empty text *)

(** C8, the empty text, fails on the code.  The default tokenizer does not
    yield an empty sequence of tokens for the empty text but one token, the
    empty string, against its description (an array of word tokens); [learn]
    of the empty text for the category [a], on a new classifier, changes
    [wordFrequencyCount["a"]], which is empty once the category is
    initialized, into the table that counts the empty token once. *)
Lemma learn_empty_text_counts_the_empty_token :
  let b0 := stateOf (initializeCategory (newBayes None) (lit "a")) in
  let b' := stateOf (learn (newBayes None) [] (lit "a")) in
  defaultTokenizer [] = [[]]
  ∧ initializeCategory (newBayes None) (lit "a") = Returns b0
  ∧ learn (newBayes None) [] (lit "a") = Returns b'
  ∧ wordFrequencyCount b0 !! lit "a" = Some ∅
  ∧ wordFrequencyCount b' !! lit "a" = Some {[ [] := VNum (Int 1) ]}
  ∧ wordFrequencyCount b' !! lit "a" ≠ wordFrequencyCount b0 !! lit "a".
Proof.
  intros b0 b'.
  assert (wordFrequencyCount b0 !! lit "a" = Some ∅) as H0
    by (vm_compute; reflexivity).
  assert (wordFrequencyCount b' !! lit "a" = Some {[ [] := VNum (Int 1) ]}) as H'
    by (vm_compute; reflexivity).
  split_and!; try (vm_compute; reflexivity); done.
Qed.

(** ** Strings of a JSON text *)

Lemma hexValue_hexChar d : (d < 16)%N → hexValue (hexChar d) = Some d.
Proof.
  intros Hd. unfold hexValue, hexChar.
  destruct (N.ltb_spec d 10).
  - replace ((48 <=? 48 + d) && (48 + d <=? 57))%N with true.
    + f_equal. lia.
    + symmetry. apply andb_true_iff. split; apply N.leb_le; lia.
  - replace ((48 <=? 87 + d) && (87 + d <=? 57))%N with false.
    + replace ((97 <=? 87 + d) && (87 + d <=? 102))%N with true.
      * f_equal. lia.
      * symmetry. apply andb_true_iff. split; apply N.leb_le; lia.
    + symmetry. apply andb_false_iff. right. apply N.leb_gt. lia.
Qed.

Lemma hexChar_plain d : (d < 16)%N → hexChar d ≠ 34%N ∧ hexChar d ≠ 92%N.
Proof. intros Hd. unfold hexChar. destruct (N.ltb_spec d 10); lia. Qed.

(** An escape [\uXXXX] is read back as its code unit. *)
Lemma parseChars_unicodeEscape c s :
  (c < 65536)%N →
  parseChars (unicodeEscape c ++ s) =
    match parseChars s with
    | Some (str, rest) => Some (c :: str, rest)
    | None => None
    end.
Proof.
  intros Hc. unfold unicodeEscape. simpl.
  rewrite !hexValue_hexChar by (apply N.mod_lt; lia).
  replace (c / 4096 mod 16 * 4096 + c / 256 mod 16 * 256 + c / 16 mod 16 * 16 + c mod 16)%N
    with c; [done|].
  change 4096%N with (16 * 16 * 16)%N. change 256%N with (16 * 16)%N.
  rewrite <- !N.Div0.div_div.
  assert (c / 16 / 16 / 16 < 16)%N
    by (repeat apply N.Div0.div_lt_upper_bound; lia).
  rewrite (N.mod_small (c / 16 / 16 / 16) 16) by done.
  pose proof (N.div_mod' c 16) as H0.
  pose proof (N.div_mod' (c / 16) 16) as H1.
  pose proof (N.div_mod' (c / 16 / 16) 16) as H2.
  lia.
Qed.

Lemma parseChars_raw c s :
  (32 ≤ c)%N → c ≠ 34%N → c ≠ 92%N →
  parseChars (c :: s) =
    match parseChars s with
    | Some (str, rest) => Some (c :: str, rest)
    | None => None
    end.
Proof.
  intros H32 H34 H92. simpl.
  destruct (N.eqb_spec c 34); [done|]. destruct (N.eqb_spec c 92); [done|].
  destruct (N.ltb_spec c 32); [lia|done].
Qed.

Lemma escapeAll_plain c s :
  isHighSurrogate c = false → escapeAll (c :: s) = escapeOne c ++ escapeAll s.
Proof. intros H. simpl. by rewrite H. Qed.

Lemma escapeAll_pair c d s :
  isHighSurrogate c = true → isLowSurrogate d = true →
  escapeAll (c :: d :: s) = c :: d :: escapeAll s.
Proof. intros Hc Hd. simpl. by rewrite Hc, Hd. Qed.

Lemma escapeAll_lone c s :
  isHighSurrogate c = true →
  match s with d :: _ => isLowSurrogate d = false | [] => True end →
  escapeAll (c :: s) = unicodeEscape c ++ escapeAll s.
Proof.
  intros Hc Hs. destruct s as [|d s]; simpl; rewrite Hc; [done|]. by rewrite Hs.
Qed.

Lemma surrogate_raw c :
  isHighSurrogate c = true ∨ isLowSurrogate c = true →
  (32 ≤ c)%N ∧ c ≠ 34%N ∧ c ≠ 92%N ∧ (c < 65536)%N.
Proof.
  unfold isHighSurrogate, isLowSurrogate.
  intros [H|H]; apply andb_true_iff in H as [H1 H2];
    apply N.leb_le in H1; apply N.leb_le in H2; lia.
Qed.

Lemma parseChars_escapeOne c s :
  parseChars (escapeOne c ++ s) =
    match parseChars s with
    | Some (str, rest) => Some (c :: str, rest)
    | None => None
    end.
Proof.
  unfold escapeOne.
  repeat (match goal with
          | |- context [(c =? ?k)%N] => destruct (N.eqb_spec c k) as [->|?]
          end; [done|]).
  destruct (_ || _ || _) eqn:Htest.
  - apply parseChars_unicodeEscape.
    apply orb_true_iff in Htest as [Htest|Htest].
    + apply orb_true_iff in Htest as [Htest|Htest].
      * apply N.ltb_lt in Htest. lia.
      * apply surrogate_raw. by left.
    + apply surrogate_raw. by right.
  - apply orb_false_iff in Htest as [Htest _].
    apply orb_false_iff in Htest as [Htest _]. apply N.ltb_ge in Htest.
    by apply parseChars_raw.
Qed.

(** A string is read back from its escaped form. *)
Lemma parseChars_escapeAll s rest :
  parseChars (escapeAll s ++ 34%N :: rest) = Some (s, rest).
Proof.
  remember (length s) as n eqn:Hn.
  revert s Hn. induction (lt_wf n) as [n _ IH]. intros s ->.
  destruct s as [|c s]; [done|].
  assert (parseChars (escapeAll s ++ 34%N :: rest) = Some (s, rest)) as IHs.
  { apply (IH (length s)); [simpl; lia|done]. }
  destruct (isHighSurrogate c) eqn:Hhigh.
  - destruct (surrogate_raw c) as (? & ? & ? & ?); [by left|].
    destruct s as [|d s].
    + rewrite escapeAll_lone, <- app_assoc, parseChars_unicodeEscape by done. done.
    + destruct (isLowSurrogate d) eqn:Hlow.
      * rewrite escapeAll_pair by done.
        destruct (surrogate_raw d) as (? & ? & ? & ?); [by right|].
        rewrite <- !app_comm_cons, !parseChars_raw by done.
        rewrite (IH (length s)); [done|simpl; lia|done].
      * rewrite escapeAll_lone, <- app_assoc, parseChars_unicodeEscape, IHs by done.
        done.
  - by rewrite escapeAll_plain, <- app_assoc, parseChars_escapeOne, IHs.
Qed.

Lemma parseChars_quote s rest :
  ∃ text, quote s = 34%N :: text ∧ parseChars (text ++ rest) = Some (s, rest).
Proof.
  exists (escapeAll s ++ [34%N]). split; [done|].
  rewrite <- app_assoc. apply parseChars_escapeAll.
Qed.

(** ** Numbers of a JSON text *)

Lemma readDigits_delimited rest : delimited rest → readDigits rest = (Decimal.Nil, rest).
Proof. destruct rest as [|c rest]; [done|]. by intros [->| ->]. Qed.

Lemma readDigits_uint_chars d rest :
  delimited rest → readDigits (uint_chars d ++ rest) = (d, rest).
Proof.
  intros Hrest. induction d; simpl; rewrite ?IHd; try done.
  by apply readDigits_delimited.
Qed.

(** The digits that [N.to_uint] prints: [0], or digits without a leading
    [0]. *)
Lemma to_uint_normal n :
  N.to_uint n = Decimal.D0 Decimal.Nil
  ∨ (∀ d, N.to_uint n ≠ Decimal.D0 d) ∧ N.to_uint n ≠ Decimal.Nil.
Proof.
  pose proof (DecimalN.Unsigned.to_of (N.to_uint n)) as H.
  rewrite DecimalN.Unsigned.of_to in H.
  destruct (N.to_uint n) as [|d| | | | | | | | |] eqn:Hd;
    try (right; split; [intros; discriminate|discriminate]).
  rewrite unorm_D0 in H. unfold Decimal.unorm in H.
  destruct (Decimal.nzhead d) eqn:Hnz;
    try (by destruct (nzhead_nonzero d d); congruence).
  injection H as <-. by left.
Qed.

Lemma readInteger_N_chars n rest :
  delimited rest → readInteger (N_chars n ++ rest) = Some (N.to_uint n, rest).
Proof.
  intros Hrest. unfold N_chars.
  destruct (to_uint_normal n) as [->|[Hnot0 Hnotnil]]; [done|].
  destruct (N.to_uint n) as [|d| | | | | | | | |] eqn:Hd; try done;
    try (by destruct (Hnot0 d));
    simpl; by rewrite readDigits_uint_chars.
Qed.

Lemma N_chars_head n rest :
  match N_chars n ++ rest with
  | [] => False
  | c :: _ => (48 ≤ c ≤ 57)%N
  end.
Proof.
  unfold N_chars.
  destruct (to_uint_normal n) as [->|[_ Hnotnil]]; [simpl; lia|].
  destruct (N.to_uint n); simpl; try done; lia.
Qed.

Lemma readFraction_delimited rest :
  delimited rest → readFraction rest = Some (Decimal.Nil, rest).
Proof. destruct rest as [|c rest]; [done|]. by intros [->| ->]. Qed.

Lemma readExponent_delimited rest :
  delimited rest → readExponent rest = Some (0, rest).
Proof. destruct rest as [|c rest]; [done|]. by intros [->| ->]. Qed.

(** An integer is read back from its digits. *)
Lemma parseNumber_Z_chars z rest :
  delimited rest → parseNumber (Z_chars z ++ rest) = Some (JNumber z 0, rest).
Proof.
  intros Hrest. unfold Z_chars, parseNumber.
  destruct (Z.ltb_spec z 0).
  - simpl. rewrite readInteger_N_chars, readFraction_delimited, readExponent_delimited by done.
    rewrite DecimalFacts.app_nil_r, DecimalN.Unsigned.of_to. simpl.
    do 2 f_equal. f_equal; lia.
  - pose proof (N_chars_head (Z.abs_N z) rest) as Hhead.
    destruct (N_chars (Z.abs_N z) ++ rest) as [|c s] eqn:Hs; [done|].
    assert ((match c :: s with
             | 45%N :: r => (true, r)
             | _ => (false, c :: s)
             end) = (false, c :: s)) as ->.
    { assert (c = 48 ∨ c = 49 ∨ c = 50 ∨ c = 51 ∨ c = 52 ∨ c = 53 ∨ c = 54
              ∨ c = 55 ∨ c = 56 ∨ c = 57)%N as Hc by lia.
      by repeat (destruct Hc as [->|Hc]; [done|]); subst. }
    rewrite <- Hs.
    rewrite readInteger_N_chars, readFraction_delimited, readExponent_delimited by done.
    rewrite DecimalFacts.app_nil_r, DecimalN.Unsigned.of_to. simpl.
    do 2 f_equal. f_equal; lia.
Qed.

(** ** Values of a JSON text *)

Lemma parseValue_number fuel s :
  match s with
  | c :: _ => c = 45%N ∨ (48 ≤ c ≤ 57)%N
  | [] => False
  end →
  parseValue (S fuel) s = parseNumber s.
Proof.
  destruct s as [|c s]; [done|]. intros Hc.
  assert (c = 45 ∨ c = 48 ∨ c = 49 ∨ c = 50 ∨ c = 51 ∨ c = 52 ∨ c = 53 ∨ c = 54
          ∨ c = 55 ∨ c = 56 ∨ c = 57)%N as H by lia.
  by repeat (destruct H as [->|H]; [done|]); subst.
Qed.

Lemma Z_chars_head z rest :
  match Z_chars z ++ rest with
  | c :: _ => c = 45%N ∨ (48 ≤ c ≤ 57)%N
  | [] => False
  end.
Proof.
  unfold Z_chars. destruct (z <? 0); [by left|].
  pose proof (N_chars_head (Z.abs_N z) rest) as H.
  destruct (N_chars (Z.abs_N z) ++ rest); [done|]. by right.
Qed.

Lemma Z_chars_length z : (1 ≤ length (Z_chars z))%nat.
Proof.
  pose proof (Z_chars_head z []) as H. rewrite List.app_nil_r in H.
  destruct (Z_chars z); [done|]. simpl. lia.
Qed.

Lemma renders_integer z : renders (Z_chars z) (JNumber z 0).
Proof.
  intros fuel rest Hfuel Hrest. pose proof (Z_chars_length z).
  destruct fuel as [|fuel]; [lia|].
  rewrite parseValue_number by apply Z_chars_head.
  by apply parseNumber_Z_chars.
Qed.

Lemma renders_number n : renders (stringifyNumber n) (jsonNumber n).
Proof.
  destruct n as [|z]; [|apply renders_integer].
  intros fuel rest Hfuel _. destruct fuel as [|fuel]; [simpl in Hfuel; lia|done].
Qed.

Lemma renders_bool b : renders (stringifyBool b) (JBool b).
Proof.
  intros fuel rest Hfuel _.
  destruct fuel as [|fuel]; [destruct b; simpl in Hfuel; lia|]. by destruct b.
Qed.

Lemma parseValue_string fuel s :
  parseValue (S fuel) (34%N :: s) =
    match parseChars s with
    | Some (str, rest) => Some (JString str, rest)
    | None => None
    end.
Proof. done. Qed.

Lemma renders_string s : renders (quote s) (JString s).
Proof.
  intros fuel rest Hfuel _.
  destruct fuel as [|fuel]; [simpl in Hfuel; lia|].
  destruct (parseChars_quote s rest) as (text & -> & Htext).
  by rewrite <- app_comm_cons, parseValue_string, Htext.
Qed.

Lemma renders_value v : renders (stringifyValue v) (jsonValue v).
Proof. destruct v; [apply renders_number|apply renders_string]. Qed.

(** ** Objects of a JSON text *)

Lemma parseMembers_unfold fuel s members :
  parseMembers (S fuel) s members =
    match skipWhite s with
    | 34%N :: s1 =>
        match parseChars s1 with
        | Some (k, s2) =>
            match skipWhite s2 with
            | 58%N :: s3 =>
                match parseValue fuel s3 with
                | Some (v, s4) =>
                    match skipWhite s4 with
                    | 44%N :: s5 => parseMembers fuel s5 (define members k v)
                    | 125%N :: rest => Some (JObject (define members k v), rest)
                    | _ => None
                    end
                | None => None
                end
            | _ => None
            end
        | None => None
        end
    | _ => None
    end.
Proof. done. Qed.

Lemma quote_length k : (2 ≤ length (quote k))%nat.
Proof. unfold quote. simpl. rewrite length_app. simpl. lia. Qed.

(** One member, and what follows it, through [parseMembers]. *)
Lemma parseMembers_member fuel k text j s members :
  renders text j → (length text ≤ fuel)%nat → delimited s →
  parseMembers (S fuel) (quote k ++ 58%N :: text ++ s) members =
    match s with
    | 44%N :: s' => parseMembers fuel s' (define members k j)
    | 125%N :: rest => Some (JObject (define members k j), rest)
    | _ => None
    end.
Proof.
  intros Htext Hfuel Hs. rewrite parseMembers_unfold.
  destruct (parseChars_quote k (58%N :: text ++ s)) as (qtext & -> & Hq).
  rewrite <- app_comm_cons. simpl skipWhite. cbv beta iota. rewrite Hq.
  simpl skipWhite. cbv beta iota. rewrite (Htext fuel s Hfuel Hs).
  destruct s as [|c s]; [done|]. by destruct Hs as [-> | ->].
Qed.

Lemma joinMembers_cons k text members :
  members ≠ [] →
  joinMembers ((k, text) :: members) = quote k ++ 58%N :: text ++ 44%N :: joinMembers members.
Proof. by destruct members. Qed.

(** The members of an object, up to its closing brace. *)
Lemma parseMembers_joinMembers ms members fuel rest :
  ms ≠ [] → Forall (λ m, renders m.2.1 m.2.2) ms →
  (length (joinMembers (printed ms)) < fuel)%nat →
  parseMembers fuel (joinMembers (printed ms) ++ 125%N :: rest) members
  = Some (JObject (defineAll members (parsed ms)), rest).
Proof.
  intros Hne Hms. revert members fuel.
  induction Hms as [|[k [text j]] ms Hm Hms IH]; [done|]. intros members fuel Hfuel.
  destruct fuel as [|fuel]; [lia|].
  destruct (decide (ms = [])) as [->|Hms'].
  - change (joinMembers (printed [(k, (text, j))])) with (quote k ++ 58%N :: text) in *.
    rewrite length_app in Hfuel. simpl in Hfuel.
    rewrite <- app_assoc, <- app_comm_cons.
    rewrite (parseMembers_member fuel k text j (125%N :: rest)); [done..|lia|by right].
  - unfold printed in *. rewrite fmap_cons in *. simpl prod_map in *.
    rewrite joinMembers_cons in * by (by destruct ms).
    pose proof (quote_length k).
    repeat (rewrite ?length_app, ?length_cons in Hfuel).
    rewrite <- app_assoc, <- app_comm_cons, <- app_assoc, <- app_comm_cons.
    rewrite (parseMembers_member fuel k text j); [|done|lia|by left].
    rewrite IH; [done|done|lia].
Qed.

Lemma define_fresh members k v :
  k ∉ members.*1 → define members k v = members ++ [(k, v)].
Proof.
  induction members as [|[k' v'] members IH]; [done|]. simpl.
  rewrite not_elem_of_cons. intros [Hne Hk].
  case_decide; [congruence|]. by rewrite IH.
Qed.

(** Assignments to keys that are all different build the list of them. *)
Lemma defineAll_NoDup members l :
  NoDup (members.*1 ++ l.*1) → defineAll members l = members ++ l.
Proof.
  unfold defineAll. revert members.
  induction l as [|[k v] l IH]; intros members Hdup; simpl.
  - by rewrite List.app_nil_r.
  - rewrite define_fresh.
    + rewrite IH; [by rewrite <- app_assoc|].
      rewrite fmap_app, <- app_assoc. done.
    + apply NoDup_app in Hdup as (_ & Hdup & _). intros Hk.
      apply (Hdup k Hk). simpl. left.
Qed.

Lemma braces_cons_head m ms rest :
  ∃ text, joinMembers (m :: ms) ++ 125%N :: rest = 34%N :: text.
Proof.
  destruct m as [k t]. destruct ms as [|m' ms]; simpl; eauto.
Qed.

(** An object is read back from its members. *)
Lemma renders_braces ms :
  NoDup (parsed ms).*1 → Forall (λ m, renders m.2.1 m.2.2) ms →
  renders (braces (printed ms)) (JObject (parsed ms)).
Proof.
  intros Hdup Hms fuel rest Hfuel _.
  destruct fuel as [|fuel]; [simpl in Hfuel; lia|].
  destruct ms as [|m ms]; [done|].
  unfold braces in *. rewrite <- app_comm_cons, <- app_assoc.
  rewrite length_cons, length_app in Hfuel. cbn [length] in Hfuel.
  change ([125%N] ++ rest) with (125%N :: rest).
  assert (parseValue (S fuel) (123%N :: joinMembers (printed (m :: ms)) ++ 125%N :: rest)
          = parseMembers fuel (joinMembers (printed (m :: ms)) ++ 125%N :: rest) []) as ->.
  { unfold printed. rewrite fmap_cons.
    destruct (braces_cons_head (prod_map id fst m) (prod_map id fst <$> ms) rest)
      as [text ->]. done. }
  rewrite parseMembers_joinMembers; [|done|done|lia].
  by rewrite defineAll_NoDup.
Qed.

(** A table is read back as the object of its entries. *)
Lemma renders_table {V} (stringify : V → jsstring) (toJson : V → json) (o : gmap jsstring V) :
  (∀ v, renders (stringify v) (toJson v)) →
  renders (stringifyTable stringify o) (jsonTable toJson o).
Proof.
  intros Hv. unfold stringifyTable, jsonTable.
  pose (ms := (λ e : jsstring * V, (e.1, (stringify e.2, toJson e.2))) <$> map_to_list o).
  replace (prod_map id stringify <$> map_to_list o) with (printed ms).
  2:{ unfold printed, ms. rewrite <- list_fmap_compose.
      apply list_fmap_ext. by intros _ [k v] _. }
  replace (prod_map id toJson <$> map_to_list o) with (parsed ms).
  2:{ unfold parsed, ms. rewrite <- list_fmap_compose.
      apply list_fmap_ext. by intros _ [k v] _. }
  apply renders_braces.
  - unfold parsed, ms. rewrite <- !list_fmap_compose.
    replace (fst ∘ _ ∘ _) with (fst : jsstring * V → jsstring); [apply NoDup_fst_map_to_list|].
    done.
  - unfold ms. apply Forall_fmap, Forall_true. intros [k v]. apply Hv.
Qed.

(** ** The round trip through JSON *)

(** [JSON.parse] reads back what [toJson] prints, for every classifier. *)
Lemma JSON_parse_toJson b : JSON_parse (toJson b) = Some (jsonBayes b).
Proof.
  pose (ms :=
    [ (lit "docCount",
        (stringifyTable stringifyNumber (docCount b), jsonTable jsonNumber (docCount b)));
      (lit "wordCount",
        (stringifyTable stringifyValue (wordCount b), jsonTable jsonValue (wordCount b)));
      (lit "wordFrequencyCount",
        (stringifyTable (stringifyTable stringifyValue) (wordFrequencyCount b),
         jsonTable (jsonTable jsonValue) (wordFrequencyCount b)));
      (lit "categories",
        (stringifyTable stringifyBool (categories b), jsonTable JBool (categories b)));
      (lit "totalDocuments",
        (stringifyNumber (totalDocuments b), jsonNumber (totalDocuments b)));
      (lit "vocabularySize",
        (stringifyNumber (vocabularySize b), jsonNumber (vocabularySize b)));
      (lit "options", (braces [], JObject []));
      (lit "vocabulary",
        (stringifyTable stringifyBool (vocabulary b), jsonTable JBool (vocabulary b))) ]).
  assert (renders (toJson b) (jsonBayes b)) as Hrenders.
  { change (toJson b) with (braces (printed ms)).
    change (jsonBayes b) with (JObject (parsed ms)).
    apply renders_braces.
    - apply (bool_decide_unpack _). vm_compute. exact I.
    - repeat constructor; simpl.
      + apply renders_table, renders_number.
      + apply renders_table, renders_value.
      + apply renders_table. intros table. apply renders_table, renders_value.
      + apply renders_table, renders_bool.
      + apply renders_number.
      + apply renders_number.
      + apply (renders_braces []); constructor.
      + apply renders_table, renders_bool. }
  unfold JSON_parse.
  rewrite <- (List.app_nil_r (toJson b)) at 2.
  rewrite Hrenders; [done|lia|done].
Qed.

Lemma list_to_map_jsonTable {V} (toJson : V → json) (o : gmap jsstring V) :
  (list_to_map (prod_map id toJson <$> map_to_list o) : gmap jsstring json) = toJson <$> o.
Proof. by rewrite list_to_map_fmap, list_to_map_to_list. Qed.

(** A table is deep-equal to the object read back for it when its values
    are. *)
Lemma sameTable_jsonTable {V} (same : V → json → Prop) (toJson : V → json) (o : gmap jsstring V) :
  map_Forall (λ _ v, same v (toJson v)) o → sameTable same o (jsonTable toJson o).
Proof.
  intros Hsame. unfold sameTable, jsonTable. split.
  - rewrite <- list_fmap_compose.
    replace (fst ∘ prod_map id toJson) with (fst : jsstring * V → jsstring) by done.
    apply NoDup_fst_map_to_list.
  - intros k. rewrite list_to_map_jsonTable, lookup_fmap.
    destruct (o !! k) as [v|] eqn:Hv; simpl; [|done]. by apply (Hsame k).
Qed.

Lemma sameNumber_finite n : finiteNumber n → sameNumber n (jsonNumber n).
Proof. destruct n as [|z]; [done|]. intros _. simpl. lia. Qed.

Lemma sameValue_finite v : finiteValue v → sameValue v (jsonValue v).
Proof.
  destruct v as [n|name suffix]; [|done]. intros Hn. apply sameNumber_finite.
  intros ->. done.
Qed.

(** The fields that the constructor takes from the object read back. *)
Lemma restore_jsonBayes b :
  fromJson (toJson b) = inr
    {| restoredOptions := JObject [];
       restoredTokenizer := inl defaultTokenizer;
       restoredVocabulary := Some (jsonTable JBool (vocabulary b));
       restoredVocabularySize := Some (jsonNumber (vocabularySize b));
       restoredTotalDocuments := Some (jsonNumber (totalDocuments b));
       restoredDocCount := Some (jsonTable jsonNumber (docCount b));
       restoredWordCount := Some (jsonTable jsonValue (wordCount b));
       restoredWordFrequencyCount :=
         Some (jsonTable (jsonTable jsonValue) (wordFrequencyCount b));
       restoredCategories := Some (jsonTable JBool (categories b)) |}.
Proof.
  unfold fromJson. rewrite JSON_parse_toJson. unfold jsonBayes.
  generalize (jsonTable jsonNumber (docCount b)) (jsonTable jsonValue (wordCount b))
    (jsonTable (jsonTable jsonValue) (wordFrequencyCount b))
    (jsonTable JBool (categories b)) (jsonNumber (totalDocuments b))
    (jsonNumber (vocabularySize b)) (jsonTable JBool (vocabulary b)).
  intros j1 j2 j3 j4 j5 j6 j7. vm_compute. reflexivity.
Qed.




(** The round trip keeps the vocabulary and its size for every classifier
    reached from a new one, whatever its other counters hold:
    [vocabularySize] is a number of keys there, never [NaN]. *)
Theorem vocabulary_restored b :
  reachable b →
  ∃ r, fromJson (toJson b) = inr r
    ∧ restoredAs (sameTable sameBool) (vocabulary b) (restoredVocabulary r)
    ∧ restoredAs sameNumber (vocabularySize b) (restoredVocabularySize r).
Proof.
  intros Hb. destruct (reachable_vocabulary _ b Hb) as [Hsize _].
  eexists. split; [apply restore_jsonBayes|].
  unfold restoredAs. cbn -[sameTable sameNumber jsonTable]. split.
  - by apply sameTable_jsonTable.
  - apply sameNumber_finite. by rewrite Hsize.
Qed.

(** ** The frame of [learn] *)

Lemma increment_lookup_ne o k k' : k ≠ k' → increment o k !! k' = o !! k'.
Proof.
  intros H. unfold increment. destruct (get o k); by rewrite set_lookup_ne.
Qed.

Lemma initializeCategory_frame b c c' :
  c ≠ c' → entries (stateOf (initializeCategory b c)) c' = entries b c'.
Proof.
  intros Hne. unfold initializeCategory, entries.
  destruct (falsy id _); [|done].
  case_decide; simpl; rewrite ?set_lookup_ne, ?lookup_insert_ne by done; done.
Qed.

Lemma learnToken_frame c b entry c' :
  c ≠ c' → entries (stateOf (learnToken c b entry)) c' = entries b c'.
Proof.
  intros Hne. destruct entry as [token f]. unfold learnToken, entries.
  destruct (if falsy id _ then _ else _) as [voc n].
  destruct (get (wordFrequencyCount b) c); simpl; [|done..].
  by rewrite addTo_lookup_ne, lookup_insert_ne.
Qed.

(** However a call of [learn] ends, the own entries of the other categories
    in [docCount], [wordCount], [wordFrequencyCount] and [categories] are
    those of before, up to the point where the call reaches into a built-in
    object. *)
Theorem learn_frame b text c c' :
  c ≠ c' → entries (stateOf (learn b text c)) c' = entries b c'.
Proof.
  intros Hne. unfold learn.
  pose proof (initializeCategory_frame b c c' Hne) as Hinit.
  destruct (initializeCategory b c) as [b1|e b1|h b1]; simpl in *; [|done..].
  apply (forEach_keeps (λ b', entries b' c' = entries b c') (λ _, True)).
  - intros b' x _ Hb'. by rewrite learnToken_frame.
  - by apply Forall_true.
  - rewrite <- Hinit. unfold entries. simpl. by rewrite increment_lookup_ne.
Qed.

(** ** The depth of the calls of [JSON.parse] *)

Local Open Scope nat_scope.

(** The cases of a character that a pattern of numerals tests. *)
Ltac bits p := try done; try (destruct p as [p|p|]; bits p).

Lemma skipWhite_length s : length (skipWhite s) ≤ length s.
Proof.
  induction s as [|c s IH]; [done|]. simpl. destruct (isWhite c); simpl; lia.
Qed.

Lemma parseChars_length s str rest :
  parseChars s = Some (str, rest) → length rest < length s.
Proof.
  remember (length s) as n eqn:Hn. revert s str rest Hn.
  induction n as [n IH] using lt_wf_ind. intros s str rest -> H.
  destruct s as [|c s]; [done|]. simpl in H.
  destruct (c =? 34)%N; [simplify_eq; simpl; lia|].
  destruct (c =? 92)%N.
  - destruct s as [|e s]; [done|].
    destruct (e =? 117)%N.
    + destruct s as [|h1 [|h2 [|h3 [|h4 s]]]]; try done.
      destruct (hexValue h1), (hexValue h2), (hexValue h3), (hexValue h4); try done.
      destruct (parseChars s) as [[str' rest']|] eqn:Hs; [|done]. simplify_eq.
      specialize (IH (length s) ltac:(simpl; lia) s _ _ eq_refl Hs). simpl; lia.
    + destruct (unescape e); [|done].
      destruct (parseChars s) as [[str' rest']|] eqn:Hs; [|done]. simplify_eq.
      specialize (IH (length s) ltac:(simpl; lia) s _ _ eq_refl Hs). simpl; lia.
  - destruct (c <? 32)%N; [done|].
    destruct (parseChars s) as [[str' rest']|] eqn:Hs; [|done]. simplify_eq.
    specialize (IH (length s) ltac:(simpl; lia) s _ _ eq_refl Hs). simpl; lia.
Qed.

Lemma readDigits_length s : length (readDigits s).2 ≤ length s.
Proof.
  induction s as [|c s IH]; [done|]. simpl.
  destruct (digit c); [|done]. destruct (readDigits s). simpl in *. lia.
Qed.

Lemma readInteger_length s u rest :
  readInteger s = Some (u, rest) → length rest < length s.
Proof.
  destruct s as [|c s]; [done|]. intros H.
  destruct (decide (c = 48%N)) as [->|Hc]; [simpl in H; simplify_eq; simpl; lia|].
  assert (readInteger (c :: s) =
            if ((49 <=? c) && (c <=? 57))%N then Some (readDigits (c :: s)) else None) as Heq.
  { destruct c as [|p]; [done|]. bits p. }
  rewrite Heq in H. clear Heq.
  destruct ((49 <=? c) && (c <=? 57))%N eqn:Hd; [|done].
  assert (is_Some (digit c)) as [d Hdigit].
  { apply andb_prop in Hd as [?%N.leb_le ?%N.leb_le].
    assert (c = 49 ∨ c = 50 ∨ c = 51 ∨ c = 52 ∨ c = 53 ∨ c = 54
            ∨ c = 55 ∨ c = 56 ∨ c = 57)%N as Hcs by lia.
    by repeat (destruct Hcs as [->|Hcs]; [done|]); subst. }
  simpl in H. rewrite Hdigit in H.
  pose proof (readDigits_length s). destruct (readDigits s). simplify_eq. simpl in *. lia.
Qed.

Lemma readFraction_length s u rest :
  readFraction s = Some (u, rest) → length rest ≤ length s.
Proof.
  intros H. destruct s as [|c s]; [simpl in H; by simplify_eq|].
  destruct (decide (c = 46%N)) as [->|Hc].
  - simpl in H. pose proof (readDigits_length s).
    destruct (readDigits s) as [[] ?]; simplify_eq; simpl in *; lia.
  - assert (readFraction (c :: s) = Some (Decimal.Nil, c :: s)) as Heq.
    { destruct c as [|p]; [done|]. bits p. }
    rewrite Heq in H. by simplify_eq.
Qed.

Lemma readExponent_length s e rest :
  readExponent s = Some (e, rest) → length rest ≤ length s.
Proof.
  intros H. destruct s as [|c s]; [simpl in H; by simplify_eq|].
  unfold readExponent in H.
  destruct ((c =? 101) || (c =? 69))%N; [|by simplify_eq].
  assert (∃ (negative : bool) (s' : jsstring), length s' ≤ length s ∧
            match s with
            | 45%N :: r => (true, r)
            | 43%N :: r => (false, r)
            | _ => (false, s)
            end = (negative, s')) as (negative & s' & Hs' & Heq).
  { destruct s as [|d s]; [by exists false, (@nil N)|].
    destruct (decide (d = 45%N)) as [->|]; [exists true, s; simpl; split; [lia|done]|].
    destruct (decide (d = 43%N)) as [->|]; [exists false, s; simpl; split; [lia|done]|].
    exists false, (d :: s). split; [done|].
    destruct d as [|p]; [done|]. bits p. }
  rewrite Heq in H. clear Heq.
  pose proof (readDigits_length s').
  destruct (readDigits s') as [[] ?]; simplify_eq; simpl in *; lia.
Qed.

Lemma parseNumber_length s j rest :
  parseNumber s = Some (j, rest) → length rest < length s.
Proof.
  unfold parseNumber. intros H.
  assert (∃ (negative : bool) (s1 : jsstring), length s1 ≤ length s ∧
            match s with
            | 45%N :: r => (true, r)
            | _ => (false, s)
            end = (negative, s1)) as (negative & s1 & Hs1 & Heq).
  { destruct s as [|d s]; [by exists false, (@nil N)|].
    destruct (decide (d = 45%N)) as [->|]; [exists true, s; simpl; split; [lia|done]|].
    exists false, (d :: s). split; [done|].
    destruct d as [|p]; [done|]. bits p. }
  rewrite Heq in H. clear Heq.
  destruct (readInteger s1) as [[i s2]|] eqn:Hi; [|done].
  destruct (readFraction s2) as [[f s3]|] eqn:Hf; [|done].
  destruct (readExponent s3) as [[e s4]|] eqn:He; [|done].
  apply readInteger_length in Hi. apply readFraction_length in Hf.
  apply readExponent_length in He. simplify_eq. lia.
Qed.

Lemma parseValue_array fuel s t :
  skipWhite s = 91%N :: t →
  parseValue (S fuel) s =
    match skipWhite t with
    | d :: u => if (d =? 93)%N then Some (JArray [], u) else parseItems fuel t []
    | [] => parseItems fuel t []
    end.
Proof.
  intros Hs. simpl. rewrite Hs. destruct (skipWhite t) as [|d u]; [done|].
  destruct d as [|p]; [done|]. bits p.
Qed.

Lemma parseValue_object fuel s t :
  skipWhite s = 123%N :: t →
  parseValue (S fuel) s =
    match skipWhite t with
    | d :: u => if (d =? 125)%N then Some (JObject [], u) else parseMembers fuel t []
    | [] => parseMembers fuel t []
    end.
Proof.
  intros Hs. simpl. rewrite Hs. destruct (skipWhite t) as [|d u]; [done|].
  destruct d as [|p]; [done|]. bits p.
Qed.

Lemma parseValue_leaf fuel fuel' s c t :
  skipWhite s = c :: t → c ≠ 91%N → c ≠ 123%N →
  parseValue (S fuel) s = parseValue (S fuel') s.
Proof.
  intros Hs H1 H2. simpl. rewrite Hs.
  destruct c as [|p]; [done|]. bits p.
Qed.

(** The cases of the test at the head of [H], down to its leaves. *)
Ltac crack H :=
  try done;
  lazymatch type of H with
  | match ?x with _ => _ end = _ =>
      lazymatch type of x with
      | option _ =>
          let E := fresh "E" in
          destruct x as [[? ?]|] eqn:E; [apply parseChars_length in E|]
      | _ => destruct x
      end; cbv beta iota in H; crack H
  | parseNumber _ = _ => apply parseNumber_length in H; simpl in *; lia
  | _ => simplify_eq; simpl in *; lia
  end.

Lemma parseValue_leaf_length fuel s c t v rest :
  skipWhite s = c :: t → c ≠ 91%N → c ≠ 123%N →
  parseValue (S fuel) s = Some (v, rest) → length rest < length (c :: t).
Proof.
  intros Hs H1 H2 H. simpl in H. rewrite Hs in H. clear Hs.
  cbv beta iota in H. crack H.
Qed.

Lemma parseItems_separator fuel s items :
  parseItems (S fuel) s items =
    match parseValue fuel s with
    | Some (v, s') =>
        match skipWhite s' with
        | c :: s'' =>
            if (c =? 44)%N then parseItems fuel s'' (items ++ [v])
            else if (c =? 93)%N then Some (JArray (items ++ [v]), s'')
            else None
        | [] => None
        end
    | None => None
    end.
Proof.
  simpl. destruct (parseValue fuel s) as [[v s']|]; [|done].
  destruct (skipWhite s') as [|[|p] s'']; [done..|].
  bits p.
Qed.

Lemma parseMembers_separator fuel s members :
  parseMembers (S fuel) s members =
    match skipWhite s with
    | c :: s1 =>
        if (c =? 34)%N then
          match parseChars s1 with
          | Some (k, s2) =>
              match skipWhite s2 with
              | d :: s3 =>
                  if (d =? 58)%N then
                    match parseValue fuel s3 with
                    | Some (v, s4) =>
                        match skipWhite s4 with
                        | e :: s5 =>
                            if (e =? 44)%N then parseMembers fuel s5 (define members k v)
                            else if (e =? 125)%N then Some (JObject (define members k v), s5)
                            else None
                        | [] => None
                        end
                    | None => None
                    end
                  else None
              | [] => None
              end
          | None => None
          end
        else None
    | [] => None
    end.
Proof.
  rewrite parseMembers_unfold.
  destruct (skipWhite s) as [|[|p] s1]; [done..|].
  bits p.
  destruct (parseChars s1) as [[k s2]|]; [|done].
  destruct (skipWhite s2) as [|[|p] s3]; [done..|].
  bits p.
  destruct (parseValue fuel s3) as [[v s4]|]; [|done].
  destruct (skipWhite s4) as [|[|p] s5]; [done..|].
  bits p.
Qed.

(** A value that is read with some bound on the depth of the calls is read
    with every bound that is at least the number of characters read. *)
Lemma parse_fuel fuel :
  (∀ s v rest, parseValue fuel s = Some (v, rest) →
     length rest < length s ∧
     ∀ fuel', length s - length rest ≤ fuel' → parseValue fuel' s = Some (v, rest))
  ∧ (∀ s items v rest, parseItems fuel s items = Some (v, rest) →
     length rest < length s ∧
     ∀ fuel', length s - length rest ≤ fuel' → parseItems fuel' s items = Some (v, rest))
  ∧ (∀ s members v rest, parseMembers fuel s members = Some (v, rest) →
     length rest < length s ∧
     ∀ fuel', length s - length rest ≤ fuel' → parseMembers fuel' s members = Some (v, rest)).
Proof.
  induction fuel as [|fuel (IHv & IHi & IHm)]; [done|]. split_and!.
  - intros s v rest H. pose proof (skipWhite_length s) as Hs.
    destruct (skipWhite s) as [|c t] eqn:Hst; [simpl in H; by rewrite Hst in H|].
    pose proof (skipWhite_length t) as Ht. simpl in Hs.
    destruct (decide (c = 91%N)) as [->|H91]; [|destruct (decide (c = 123%N)) as [->|H123]].
    + rewrite (parseValue_array _ _ _ Hst) in H.
      cut (length rest < length t ∧
           ∀ fuel', length t - length rest ≤ fuel' → parseValue (S fuel') s = Some (v, rest)).
      { intros [? Hfuel]. split; [lia|]. intros [|fuel'] ?; [lia|]. apply Hfuel. lia. }
      setoid_rewrite (parseValue_array _ _ _ Hst).
      destruct (skipWhite t) as [|d u]; [by apply IHi|].
      destruct (d =? 93)%N; [|by apply IHi]. simplify_eq. simpl in Ht. split; [lia|done].
    + rewrite (parseValue_object _ _ _ Hst) in H.
      cut (length rest < length t ∧
           ∀ fuel', length t - length rest ≤ fuel' → parseValue (S fuel') s = Some (v, rest)).
      { intros [? Hfuel]. split; [lia|]. intros [|fuel'] ?; [lia|]. apply Hfuel. lia. }
      setoid_rewrite (parseValue_object _ _ _ Hst).
      destruct (skipWhite t) as [|d u]; [by apply IHm|].
      destruct (d =? 125)%N; [|by apply IHm]. simplify_eq. simpl in Ht. split; [lia|done].
    + pose proof (parseValue_leaf_length _ _ _ _ _ _ Hst H91 H123 H) as Hlen. simpl in Hlen.
      split; [lia|]. intros [|fuel'] ?; [lia|].
      by rewrite (parseValue_leaf fuel' fuel _ _ _ Hst).
  - intros s items res rest H. rewrite parseItems_separator in H.
    destruct (parseValue fuel s) as [[v s']|] eqn:Hv; [|done].
    apply IHv in Hv as [Hlen Hv]. pose proof (skipWhite_length s') as Hs'.
    destruct (skipWhite s') as [|c s''] eqn:Hs''; [done|]. simpl in Hs'.
    cut (length rest ≤ length s'' ∧
         ∀ fuel', length s - length rest ≤ S fuel' → parseItems (S fuel') s items = Some (res, rest)).
    { intros [? Hfuel]. split; [lia|]. intros [|fuel'] ?; [lia|]. by apply Hfuel. }
    setoid_rewrite parseItems_separator.
    destruct (c =? 44)%N eqn:Hc'.
    + apply IHi in H as [Hlen' H]. split; [lia|]. intros fuel' Hfuel'.
      rewrite Hv by lia. rewrite Hs'', Hc'. apply H. lia.
    + destruct (c =? 93)%N eqn:Hc; [|done]. simplify_eq. split; [done|]. intros fuel' Hfuel'.
      rewrite Hv by lia. by rewrite Hs'', Hc', Hc.
  - intros s members res rest H. rewrite parseMembers_separator in H.
    pose proof (skipWhite_length s) as Hs.
    destruct (skipWhite s) as [|c s1] eqn:Hs1; [done|]. simpl in Hs.
    destruct (c =? 34)%N eqn:Hc; [|done].
    destruct (parseChars s1) as [[k s2]|] eqn:Hk; [|done].
    pose proof (parseChars_length _ _ _ Hk) as Hk'.
    pose proof (skipWhite_length s2) as Hs2.
    destruct (skipWhite s2) as [|d s3] eqn:Hs3; [done|]. simpl in Hs2.
    destruct (d =? 58)%N eqn:Hd; [|done].
    destruct (parseValue fuel s3) as [[v s4]|] eqn:Hv; [|done].
    apply IHv in Hv as [Hlen Hv]. pose proof (skipWhite_length s4) as Hs4.
    destruct (skipWhite s4) as [|e s5] eqn:Hs5; [done|]. simpl in Hs4.
    cut (length rest ≤ length s5 ∧
         ∀ fuel', length s - length rest ≤ S fuel' → parseMembers (S fuel') s members = Some (res, rest)).
    { intros [? Hfuel]. split; [lia|]. intros [|fuel'] ?; [lia|]. by apply Hfuel. }
    setoid_rewrite parseMembers_separator. rewrite Hs1, Hc, Hk, Hs3, Hd.
    destruct (e =? 44)%N eqn:He'.
    + apply IHm in H as [Hlen' H]. split; [lia|]. intros fuel' Hfuel'.
      rewrite Hv by lia. rewrite Hs5, He'. apply H. lia.
    + destruct (e =? 125)%N eqn:He; [|done]. simplify_eq. split; [done|]. intros fuel' Hfuel'.
      rewrite Hv by lia. by rewrite Hs5, He', He.
Qed.

(** [JSON.parse] accepts a text exactly when some depth of calls reads a
    value from it, followed by white space only: the bound that [JSON_parse]
    takes from the length of the text rejects no text. *)
Theorem JSON_parse_depth text v :
  JSON_parse text = Some v ↔
  ∃ fuel rest, parseValue fuel text = Some (v, rest) ∧ skipWhite rest = [].
Proof.
  unfold JSON_parse. split.
  - intros H. destruct (parseValue (S (length text)) text) as [[v' rest]|] eqn:Hv; [|done].
    exists (S (length text)), rest. destruct (skipWhite rest); by simplify_eq.
  - intros (fuel & rest & Hv & Hrest).
    apply parse_fuel in Hv as [_ Hv]. rewrite Hv by lia. by rewrite Hrest.
Qed.

Local Close Scope nat_scope.

(** ** The errors of [fromJson] *)

(** [fromJson] throws the format error exactly when [JSON.parse] fails,
    throws a [TypeError] exactly when the text denotes [null], and returns
    an instance in every other case. *)
Theorem fromJson_outcomes text :
  (fromJson text = inl FormatError ↔ JSON_parse text = None)
  ∧ (fromJson text = inl TypeError ↔ JSON_parse text = Some JNull)
  ∧ (∀ parsed, JSON_parse text = Some parsed → parsed ≠ JNull →
       fromJson text = inr (restore parsed (jsonGet parsed (lit "options")))).
Proof.
  unfold fromJson. destruct (JSON_parse text) as [[]|]; split_and!; try done;
    try (split; congruence); try (intros ? [= <-] ?; done).
Qed.

(** ** Count conservation for plain tokens *)

Lemma addCount_comm v1 v2 total :
  addCount v1 (addCount v2 total) = addCount v2 (addCount v1 total).
Proof.
  destruct v1 as [[|z1]|], v2 as [[|z2]|], total as [s|]; simpl; try done.
  f_equal. lia.
Qed.

Lemma tableSum_empty : tableSum ∅ = Some 0.
Proof. unfold tableSum. by rewrite map_fold_empty. Qed.

Lemma tableSum_insert table k v :
  table !! k = None → tableSum (<[k := v]> table) = addCount v (tableSum table).
Proof.
  intros Hk. unfold tableSum.
  rewrite map_fold_insert_L; [done| |done].
  intros. apply addCount_comm.
Qed.

Lemma tableSum_delete table k v :
  table !! k = Some v → tableSum table = addCount v (tableSum (delete k table)).
Proof.
  intros Hk. rewrite <- (insert_delete_id table k v) at 1 by done.
  apply tableSum_insert, lookup_delete_eq.
Qed.

(** Replacing a count changes the sum by the difference. *)
Lemma tableSum_replace table k old new total :
  table !! k = Some (VNum (Int old)) → tableSum table = Some total →
  tableSum (<[k := VNum (Int new)]> table) = Some (total - old + new).
Proof.
  intros Hk Hsum. rewrite (tableSum_delete _ _ _ Hk) in Hsum.
  rewrite <- insert_delete_eq, tableSum_insert by apply lookup_delete_eq.
  destruct (tableSum (delete k table)) as [s|]; [|done].
  simpl in *. injection Hsum as <-. f_equal. lia.
Qed.

Lemma tableSum_nonnegative table total :
  map_Forall (λ _ v, ∃ z, v = VNum (Int z) ∧ 1 ≤ z) table →
  tableSum table = Some total → 0 ≤ total.
Proof.
  revert total. induction table as [|k v table Hk IH] using map_ind; intros total Hall.
  - rewrite tableSum_empty. intros [= <-]. lia.
  - rewrite tableSum_insert by done.
    apply map_Forall_insert in Hall as [(z & -> & Hz) Hall]; [|done].
    destruct (tableSum table) as [s|] eqn:Hs; [|done].
    simpl. intros [= <-]. specialize (IH s Hall eq_refl). lia.
Qed.

(** A count is at most the sum of the counts. *)
Lemma tableSum_bound table total k z :
  map_Forall (λ _ v, ∃ z, v = VNum (Int z) ∧ 1 ≤ z) table →
  tableSum table = Some total → table !! k = Some (VNum (Int z)) → z ≤ total.
Proof.
  intros Hall Hsum Hk. rewrite (tableSum_delete _ _ _ Hk) in Hsum.
  destruct (tableSum (delete k table)) as [s|] eqn:Hs; [|done].
  simpl in Hsum. injection Hsum as <-.
  assert (0 ≤ s); [|lia].
  apply (tableSum_nonnegative (delete k table)); [|done].
  intros k' v' Hk'. apply lookup_delete_Some in Hk' as [_ Hk']. by apply (Hall k').
Qed.

(** [countIn] on a table of positive counts, for a plain token. *)
Lemma countIn_conserved table token f total :
  ObjectPrototype token = None → 1 ≤ f →
  map_Forall (λ _ v, ∃ z, v = VNum (Int z) ∧ 1 ≤ z) table →
  tableSum table = Some total →
  map_Forall (λ _ v, ∃ z, v = VNum (Int z) ∧ 1 ≤ z) (countIn table token f)
  ∧ tableSum (countIn table token f) = Some (total + f).
Proof.
  intros Hplain Hf Hall Hsum.
  destruct (table !! token) as [v|] eqn:Hv.
  - destruct (Hall _ _ Hv) as (z & -> & Hz).
    rewrite (countIn_present _ _ _ z) by (done || lia). split.
    + apply map_Forall_insert_2; [|done]. eexists. split; [done|lia].
    + rewrite (tableSum_replace _ _ z _ total) by done. f_equal. lia.
  - rewrite countIn_absent by done. split.
    + apply map_Forall_insert_2; [|done]. eexists. split; [done|lia].
    + rewrite tableSum_insert, Hsum by done. simpl. f_equal. lia.
Qed.

Lemma learnToken_conserved category b entry :
  ObjectPrototype entry.1 = None → 1 ≤ entry.2 →
  wellFormed b → countsConserved b →
  countsConserved (stateOf (learnToken category b entry)).
Proof.
  destruct entry as [token f]. simpl. intros Hplain Hf Hb Hcons.
  destruct (get (wordFrequencyCount b) category) as [table|i|] eqn:Hget.
  - apply get_Own_inv in Hget.
    destruct (learnToken_returns category b token f table Hget) as (voc & n & ->).
    destruct (Hcons category table Hget) as (Hall & w & Hw & Hsum).
    destruct (countIn_conserved table token f w Hplain Hf Hall Hsum) as [Hall' Hsum'].
    assert (category ≠ proto) as Hne.
    { assert (is_Some (categories b !! category)) as [v Hv]
        by (apply (wf_tables b Hb); eauto).
      apply ObjectPrototype_None_proto. by apply (wf_categories b Hb category v). }
    intros c table'. simpl. rewrite lookup_insert. case_decide as Hc.
    + subst c. intros [= <-]. split; [done|]. exists (w + f). split; [|done].
      unfold addTo. rewrite (get_Own _ _ _ Hw), set_plain, lookup_insert_eq by done.
      done.
    + intros Htable'. destruct (Hcons c table' Htable') as (Hall'' & w' & Hw' & Hsum'').
      split; [done|]. exists w'. split; [|done]. by rewrite addTo_lookup_ne.
  - unfold learnToken. destruct (if falsy id _ then _ else _) as [voc n].
    rewrite Hget. done.
  - unfold learnToken. destruct (if falsy id _ then _ else _) as [voc n].
    rewrite Hget. done.
Qed.

Lemma initializeCategory_conserved b category b1 :
  countsConserved b → initializeCategory b category = Returns b1 →
  countsConserved b1.
Proof.
  intros Hcons. unfold initializeCategory.
  destruct (falsy id _); [|by intros [= <-]].
  case_decide as Hcase; [done|]. intros [= <-].
  intros c table. simpl. rewrite lookup_insert. case_decide as Hc.
  - subst c. intros [= <-]. split; [apply map_Forall_empty|].
    assert (category ≠ proto ∨ is_Some (wordFrequencyCount b !! category)) as Hor.
    { destruct (decide (category = proto)) as [->|]; [right|by left].
      destruct (wordFrequencyCount b !! proto) eqn:H; [eauto|]. by destruct Hcase. }
    exists 0. split; [|apply tableSum_empty].
    destruct Hor as [Hne|[table Htable]]; [by rewrite set_plain, lookup_insert_eq|].
    destruct (Hcons _ _ Htable) as (_ & w & Hw & _).
    rewrite set_lookup, Hw. by case_decide.
  - intros Htable. destruct (Hcons c table Htable) as (Hall & w & Hw & Hsum).
    split; [done|]. exists w. split; [|done]. by rewrite set_lookup_ne.
Qed.

Lemma learn_conserved b text category :
  plainText b text → wellFormed b → countsConserved b →
  countsConserved (stateOf (learn b text category)).
Proof.
  intros Hplain Hb Hcons. unfold learn.
  pose proof (initializeCategory_wellFormed b category) as Hwf.
  pose proof (initializeCategory_conserved b category) as Hinit.
  pose proof (initializeCategory_abrupt_state b category) as Habrupt.
  assert (tokenizer (stateOf (initializeCategory b category)) = tokenizer b) as Htok.
  { unfold initializeCategory. destruct (falsy id _); [|done]. by case_decide. }
  destruct (initializeCategory b category) as [b1|e b1|h b1]; simpl in *; [|done..].
  apply (forEach_keeps (λ b', wellFormed b' ∧ countsConserved b')
           (λ e, ObjectPrototype e.1 = None ∧ 1 ≤ e.2)).
  - intros b' x [Hx1 Hx2] [Hb' Hcons']. split.
    + by apply learnToken_wellFormed.
    + by apply learnToken_conserved.
  - rewrite Htok. apply Forall_forall. intros [token f] Hin. split.
    + unfold plainText in Hplain. rewrite Forall_forall in Hplain. apply Hplain.
      apply frequencyTable_keys. apply list_elem_of_fmap. by exists (token, f).
    + pose proof (frequencyTable_positive (tokenizer b text)) as Hpos.
      rewrite Forall_forall in Hpos. by apply (Hpos (token, f)).
  - split; [by apply Hwf|]. specialize (Hinit b1 Hcons eq_refl).
    intros c table. simpl. apply Hinit.
Qed.

(** The fewer calls are admitted, the fewer classifiers are reached. *)
Lemma reachableBy_mono (allowed1 allowed2 : Bayes → operation → Prop) b :
  (∀ b op, allowed1 b op → allowed2 b op) →
  reachableBy allowed1 b → reachableBy allowed2 b.
Proof.
  intros Hsub.
  induction 1 as [t|b t _ IH|b op b' _ IH Hallowed Hop|b op e b' _ IH Hallowed Hop].
  - apply reachable_new.
  - by apply reachable_adopt.
  - apply (reachable_returns _ b op); auto.
  - apply (reachable_throws _ b op e); auto.
Qed.

Lemma reachablePlain_reachable b : reachablePlain b → reachable b.
Proof. by apply reachableBy_mono. Qed.

Lemma reachablePlain_categories b : reachablePlain b → reachableBy plainCategory b.
Proof. apply reachableBy_mono. by intros b' op []. Qed.

Lemma reachablePlain_conserved b : reachablePlain b → countsConserved b.
Proof.
  induction 1 as [t|b t _ IH|b op b' Hb IH Hallowed Hop|b op e b' Hb IH Hallowed Hop].
  - intros c table. simpl. by rewrite lookup_empty.
  - done.
  - apply reachable_wellFormed in Hb. destruct Hallowed as [_ Hallowed].
    destruct op as [categoryName|text category|text|]; simpl in *.
    + by apply (initializeCategory_conserved b categoryName).
    + pose proof (learn_conserved b text category Hallowed Hb IH) as H.
      by rewrite Hop in H.
    + pose proof (categorize_state b text) as H. unfold mbind, outcome_bind in Hop.
      destruct (categorize b text); simpl in *; by simplify_eq.
    + by simplify_eq.
  - apply reachable_wellFormed in Hb. destruct Hallowed as [_ Hallowed].
    destruct op as [categoryName|text category|text|]; simpl in *.
    + pose proof (initializeCategory_abrupt_state b categoryName) as H.
      by rewrite Hop in H.
    + pose proof (learn_conserved b text category Hallowed Hb IH) as H.
      by rewrite Hop in H.
    + pose proof (categorize_state b text) as H. unfold mbind, outcome_bind in Hop.
      destruct (categorize b text); simpl in *; by simplify_eq.
    + by simplify_eq.
Qed.

(** Count conservation (C1) holds as long as no category and no token
    learned is the name of a property of [Object.prototype]: for every
    category present in [categories], [wordCount[category]] is the sum of the
    counts of [wordFrequencyCount[category]]. *)
Theorem conservation_for_plain_tokens b category :
  reachablePlain b → is_Some (categories b !! category) → conserved b category.
Proof.
  intros Hb Hcat.
  pose proof (reachable_wellFormed _ b Hb) as Hwf.
  apply (wf_tables b Hwf) in Hcat as [table Htable].
  destruct (reachablePlain_conserved b Hb category table Htable) as (_ & w & Hw & Hsum).
  by exists table, w.
Qed.

(** ** The value of [tokenProbability] for plain tokens *)

(** The value of [tokenProbability] for a token that is no name of a property
    of [Object.prototype]. *)
Lemma tokenProbability_plain b token category :
  reachablePlain b → is_Some (categories b !! category) →
  ObjectPrototype token = None →
  ∃ table frequency totalWords size,
    wordFrequencyCount b !! category = Some table
    ∧ (table !! token = Some (VNum (Int frequency))
       ∨ table !! token = None ∧ frequency = 0)
    ∧ wordCount b !! category = Some (VNum (Int totalWords))
    ∧ vocabularySize b = Int size
    ∧ 0 ≤ frequency ≤ totalWords ∧ 0 ≤ size
    ∧ tokenProbability b token category
      = Returns (num_div (Int (frequency + 1)) (Int (totalWords + size))).
Proof.
  intros Hb Hcat Hplain.
  pose proof (reachable_wellFormed _ b Hb) as Hwf.
  pose proof (reachable_vocabulary _ b Hb) as [Hsize _].
  pose proof (reachablePlain_conserved b Hb) as Hcons.
  apply (wf_tables b Hwf) in Hcat as [table Htable].
  destruct (Hcons category table Htable) as (Hall & w & Hw & Hsum).
  assert (∃ f, (table !! token = Some (VNum (Int f)) ∨ table !! token = None ∧ f = 0)
               ∧ 0 ≤ f ≤ w
               ∧ match get table token with
                 | Own v => if truthy v then ToNumber (value_add v (Int 1)) else Int 1
                 | Inherited _ => NaN
                 | Undefined => Int 1
                 end = Int (f + 1)) as (f & Hf & Hfw & Hnum).
  { rewrite get_plain by done. destruct (table !! token) as [v|] eqn:Hv.
    - destruct (Hall _ _ Hv) as (z & -> & Hz). exists z.
      pose proof (tableSum_bound table w token z Hall Hsum Hv).
      split; [by left|]. split; [lia|]. simpl.
      destruct (Z.eqb_spec z 0); [lia|done].
    - exists 0. split; [by right|]. split; [|done].
      pose proof (tableSum_nonnegative table w Hall Hsum). lia. }
  exists table, f, w, (Z.of_nat (size (vocabulary b))).
  split; [done|]. split; [done|]. split; [done|]. split; [done|].
  split; [done|]. split; [lia|].
  unfold tokenProbability. rewrite (get_Own _ _ _ Htable), Hnum.
  rewrite (get_Own _ _ _ Hw), Hsize. done.
Qed.

(** The smoothed probability (C2) as long as no category and no token
    learned, and not the token asked for, is the name of a property of
    [Object.prototype]: for a category present in [categories],
    [tokenProbability] returns the quotient of the integers [frequency + 1]
    and [totalWords + vocabularySize], where [frequency] is the count of the
    token in the table of the category, [0] when it is absent, and is at
    most [totalWords]. *)
Theorem tokenProbability_for_plain_tokens b token category :
  reachablePlain b → is_Some (categories b !! category) →
  ObjectPrototype token = None →
  ∃ table frequency totalWords size,
    wordFrequencyCount b !! category = Some table
    ∧ (table !! token = Some (VNum (Int frequency))
       ∨ table !! token = None ∧ frequency = 0)
    ∧ wordCount b !! category = Some (VNum (Int totalWords))
    ∧ vocabularySize b = Int size
    ∧ 0 ≤ frequency ≤ totalWords ∧ 0 ≤ size
    ∧ tokenProbability b token category
      = Returns (num_div (Int (frequency + 1)) (Int (totalWords + size))).
Proof. apply tokenProbability_plain. Qed.

(** ** Sorting *)

Lemma insertSorted_Permutation {A} (compareFn : A → A → comparison) x sorted :
  insertSorted compareFn x sorted ≡ₚ x :: sorted.
Proof.
  induction sorted as [|y sorted IH]; [done|]. simpl.
  destruct (compareFn x y); try done.
  rewrite IH. apply Permutation_swap.
Qed.

Lemma Array_sort_Permutation {A} (compareFn : A → A → comparison) array :
  Array_sort compareFn array ≡ₚ array.
Proof.
  induction array as [|x array IH]; [done|]. simpl.
  by rewrite insertSorted_Permutation, IH.
Qed.

(** * Further properties *)

(** ** The frequency table, entry by entry *)

Lemma frequencyTable_snoc tokens token :
  frequencyTable (tokens ++ [token]) = countToken token (frequencyTable tokens).
Proof. unfold frequencyTable. by rewrite foldl_app. Qed.

Lemma occurrences_snoc token tokens t :
  occurrences token (tokens ++ [t])
  = occurrences token tokens + (if decide (t = token) then 1 else 0).
Proof.
  unfold occurrences. rewrite filter_app, length_app.
  rewrite filter_cons, filter_nil. case_decide; simpl; lia.
Qed.

Lemma countToken_fst token table :
  (countToken token table).*1
  = if decide (token ∈ table.*1) then table.*1 else table.*1 ++ [token].
Proof.
  induction table as [|[k n] table IH]; [done|]. cbn [countToken].
  destruct (decide (k = token)) as [->|Hne]; rewrite !fmap_cons; cbn [fst].
  - rewrite decide_True by left. done.
  - rewrite IH. destruct (decide (token ∈ table.*1)) as [Hin|Hin].
    + rewrite decide_True by (by right). done.
    + rewrite decide_False; [done|]. rewrite elem_of_cons. by intros [->|?].
Qed.

Lemma countToken_elem token table k n :
  NoDup table.*1 → Forall (λ e : jsstring * Z, 1 ≤ e.2) table →
  (k, n) ∈ countToken token table ↔
    (if decide (k = token)
     then (∃ old, (token, old) ∈ table ∧ n = old + 1) ∨ ((token ∉ table.*1) ∧ n = 1)
     else (k, n) ∈ table).
Proof.
  induction table as [|[k' n'] table IH]; intros Hdup Hpos.
  - simpl. rewrite list_elem_of_singleton. case_decide; [|split; [by intros [= -> ->]|by intros ?%elem_of_nil]].
    split; [intros [= -> ->]; right; split; [apply not_elem_of_nil|done]|].
    intros [(old & Hold & _)|[_ ->]]; [by apply elem_of_nil in Hold|by subst].
  - apply NoDup_cons in Hdup as [Hk' Hdup]. apply Forall_cons in Hpos as [Hn' Hpos].
    simpl in Hn'. specialize (IH Hdup Hpos). simpl.
    destruct (decide (k' = token)) as [->|Hne].
    + rewrite elem_of_cons. destruct (Z.eqb_spec n' 0); [lia|].
      case_decide as Hk; [subst k|].
      * split.
        -- intros [[= ->]|Hin]; [left; exists n'; split; [left|done]|].
           destruct Hk'. apply list_elem_of_fmap. by exists (token, n).
        -- intros [(old & Hold & ->)|[Hnot _]].
           ++ apply elem_of_cons in Hold as [[= ->]|Hold]; [by left|].
              destruct Hk'. apply list_elem_of_fmap. by exists (token, old).
           ++ destruct Hnot. simpl. left.
      * rewrite elem_of_cons. split; (intros [[= -> ->]|Hin]; [done|by right]).
    + rewrite elem_of_cons, IH. case_decide as Hk; [subst k|].
      * split.
        -- intros [[= -> ->]|[(old & Hold & ->)|[Hnot ->]]]; [done| |].
           ++ left. exists old. split; [by right|done].
           ++ right. split; [|done]. simpl. rewrite not_elem_of_cons. done.
        -- intros [(old & Hold & ->)|[Hnot ->]].
           ++ apply elem_of_cons in Hold as [[= -> ->]|Hold]; [done|].
              right. left. by exists old.
           ++ right. right. split; [|done]. simpl in Hnot.
              rewrite not_elem_of_cons in Hnot. tauto.
      * by rewrite elem_of_cons.
Qed.

Lemma frequencyTable_entries tokens :
  NoDup (frequencyTable tokens).*1
  ∧ ∀ token n,
      (token, n) ∈ frequencyTable tokens ↔ n = occurrences token tokens ∧ 1 ≤ n.
Proof.
  induction tokens as [|t tokens [Hdup IH]] using rev_ind.
  - split; [constructor|]. intros token n. unfold occurrences. simpl.
    rewrite elem_of_nil. lia.
  - rewrite frequencyTable_snoc. split.
    + rewrite countToken_fst. case_decide; [done|].
      apply NoDup_app. split; [done|]. split; [|apply NoDup_singleton].
      intros k Hk ->%list_elem_of_singleton. done.
    + intros token n.
      rewrite countToken_elem by (done || apply frequencyTable_positive).
      rewrite occurrences_snoc. destruct (decide (token = t)) as [->|Hne].
      * rewrite decide_True by done. split.
        -- intros [(old & Hold & ->)|[Hnot ->]].
           ++ apply IH in Hold as [<- ?]. lia.
           ++ assert (occurrences t tokens = 0) as ->; [|lia].
              destruct (decide (1 ≤ occurrences t tokens)) as [Hocc|Hocc].
              ** destruct Hnot. apply list_elem_of_fmap.
                 exists (t, occurrences t tokens). split; [done|]. by apply IH.
              ** unfold occurrences in *. lia.
        -- intros [-> _]. destruct (decide (1 ≤ occurrences t tokens)) as [Hocc|Hocc].
           ++ left. exists (occurrences t tokens). split; [by apply IH|done].
           ++ right. assert (occurrences t tokens = 0) as Hz
                by (unfold occurrences in *; lia).
              split; [|lia]. intros ([k n] & -> & Hin)%list_elem_of_fmap.
              apply IH in Hin. simpl in *. lia.
      * rewrite decide_False by done. rewrite IH. lia.
Qed.

Lemma occurrences_positive token tokens :
  token ∈ tokens ↔ 1 ≤ occurrences token tokens.
Proof.
  unfold occurrences. induction tokens as [|t tokens IH].
  - rewrite elem_of_nil. simpl. lia.
  - rewrite elem_of_cons, filter_cons. case_decide as Ht; simpl.
    + split; [lia|]. intros _. by left.
    + rewrite IH. split; [|by right]. intros [->|?]; done.
Qed.

(** The frequency table has one entry for each token that occurs, with the
    number of its occurrences, and no other entry. *)
Theorem frequencyTable_counts tokens :
  NoDup (frequencyTable tokens).*1
  ∧ (∀ token, token ∈ tokens →
       (token, occurrences token tokens) ∈ frequencyTable tokens)
  ∧ (∀ token n, (token, n) ∈ frequencyTable tokens →
       token ∈ tokens ∧ n = occurrences token tokens).
Proof.
  destruct (frequencyTable_entries tokens) as [Hdup Hentries]. split; [done|]. split.
  - intros token Hin. apply Hentries. split; [done|]. by apply occurrences_positive.
  - intros token n [-> Hn]%Hentries. split; [|done]. by apply occurrences_positive.
Qed.

Lemma countToken_total token table :
  foldr Z.add 0 (countToken token table).*2 = foldr Z.add 0 table.*2 + 1.
Proof.
  induction table as [|[k n] table IH]; [done|]. cbn [countToken].
  case_decide; rewrite !fmap_cons; cbn [snd foldr]; [destruct (Z.eqb_spec n 0)|]; lia.
Qed.

(** The counts of the frequency table add up to the number of tokens. *)
Lemma frequencyTable_sum tokens :
  foldr Z.add 0 (frequencyTable tokens).*2 = Z.of_nat (length tokens).
Proof.
  induction tokens as [|t tokens IH] using rev_ind; [done|].
  rewrite frequencyTable_snoc, countToken_total, IH, length_app. simpl. lia.
Qed.

(** ** The tokens of the default tokenizer *)

Lemma sanitize_isSpace c :
  isSpace (if listed c then c else 32%N) = negb (kept c).
Proof.
  unfold kept. destruct (listed c); simpl; [|done]. by rewrite negb_involutive.
Qed.

Lemma sanitize_kept c : kept c = true → (if listed c then c else 32%N) = c.
Proof. unfold kept. by destruct (listed c). Qed.

(** The pieces that [split] produces: the first one continues [cur], and
    only the first and the last can be empty. *)
Lemma splitSpaces_pieces s inRun cur :
  ∃ piece pieces,
    splitSpaces inRun cur s = piece :: pieces
    ∧ (cur ≠ [] → piece ≠ [])
    ∧ (inRun = true → piece = [] → pieces = [])
    ∧ (∀ i, pieces !! i = Some [] → S i = length pieces).
Proof.
  revert inRun cur. induction s as [|c s IH]; intros inRun cur.
  - exists (rev cur), []. simpl. split_and!; try done.
    intros Hne Hrev. apply Hne. by rewrite <- (rev_involutive cur), Hrev.
  - simpl. destruct (isSpace c) eqn:Hc.
    + destruct inRun; [by apply IH|].
      destruct (IH true []) as (piece & pieces & -> & _ & Hrun & Hmid).
      exists (rev cur), (piece :: pieces). split_and!; try done.
      * intros Hne Hrev. apply Hne. by rewrite <- (rev_involutive cur), Hrev.
      * intros [|i] Hi; simpl in *.
        -- injection Hi as ->. by rewrite Hrun.
        -- f_equal. by apply Hmid.
    + destruct (IH false (c :: cur)) as (piece & pieces & -> & Hne & _ & Hmid).
      exists piece, pieces. split_and!; try done.
      * intros _. by apply Hne.
      * intros _ Hp. by destruct Hne.
Qed.

Lemma splitSpaces_Forall (P : N → Prop) s inRun cur :
  Forall P cur → Forall (λ c, isSpace c = false → P c) s →
  Forall (Forall P) (splitSpaces inRun cur s).
Proof.
  intros Hcur Hs. revert inRun cur Hcur.
  induction Hs as [|c s Hc _ IH]; intros inRun cur Hcur; simpl.
  - repeat constructor. by apply Forall_rev.
  - destruct (isSpace c).
    + destruct inRun; [by apply IH|].
      constructor; [by apply Forall_rev|]. apply IH. constructor.
    + apply IH. constructor; [by apply Hc|done].
Qed.

Lemma sanitize_Forall text :
  Forall (λ c, isSpace c = false → kept c = true) (sanitize text).
Proof.
  unfold sanitize. apply Forall_fmap, Forall_true. intros c. simpl.
  rewrite sanitize_isSpace. by destruct (kept c) eqn:Hk; [rewrite sanitize_kept|].
Qed.

(** The default tokenizer always returns at least one token; no token holds
    a code unit that separates tokens, and only the first and the last token
    can be empty. *)
Theorem defaultTokenizer_tokens text :
  defaultTokenizer text ≠ []
  ∧ Forall (Forall (λ c, kept c = true)) (defaultTokenizer text)
  ∧ ∀ i, defaultTokenizer text !! i = Some [] →
      i = 0%nat ∨ S i = length (defaultTokenizer text).
Proof.
  unfold defaultTokenizer, split.
  destruct (splitSpaces_pieces (sanitize text) false [])
    as (piece & pieces & Heq & _ & _ & Hmid).
  split; [by rewrite Heq|]. split.
  - apply splitSpaces_Forall; [constructor|apply sanitize_Forall].
  - rewrite Heq. intros [|i] Hi; [by left|]. right. simpl in *. f_equal. by apply Hmid.
Qed.

Lemma splitSpaces_word s cur :
  Forall (λ c, isSpace c = false) s → splitSpaces false cur s = [rev cur ++ s].
Proof.
  intros Hs. revert cur. induction Hs as [|c s Hc _ IH]; intros cur; simpl.
  - by rewrite List.app_nil_r.
  - rewrite Hc, IH. simpl. by rewrite <- app_assoc.
Qed.

Lemma sanitize_word text :
  Forall (λ c, kept c = true) text → sanitize text = text.
Proof.
  unfold sanitize. induction 1 as [|c text Hc _ IH]; [done|].
  rewrite fmap_cons, IH. by rewrite sanitize_kept.
Qed.

(** A text of code units that the tokenizer keeps is one token, as it is:
    nothing is removed from a word and no letter is changed. *)
Theorem defaultTokenizer_word text :
  Forall (λ c, kept c = true) text → defaultTokenizer text = [text].
Proof.
  intros Htext. unfold defaultTokenizer, split.
  rewrite sanitize_word by done. rewrite splitSpaces_word; [done|].
  eapply Forall_impl; [done|]. unfold kept. intros c Hc.
  apply andb_prop in Hc as [_ Hc]. by destruct (isSpace c).
Qed.

Lemma defaultTokenizer_word_witness :
  Forall (λ c, kept c = true) (lit "Cats")
  ∧ defaultTokenizer (lit "Cats") = [lit "Cats"].
Proof.
  assert (Forall (λ c, kept c = true) (lit "Cats")) as H
    by (repeat constructor).
  split; [exact H|]. apply (defaultTokenizer_word (lit "Cats") H).
Defined.

Lemma splitSpaces_app s1 inRun cur sep s2 :
  isSpace sep = true →
  match last s1 with Some c => isSpace c = false | None => inRun = false end →
  match s2 with c :: _ => isSpace c = false | [] => True end →
  splitSpaces inRun cur (s1 ++ sep :: s2)
  = splitSpaces inRun cur s1 ++ splitSpaces false [] s2.
Proof.
  intros Hsep Hs1 Hs2. revert inRun cur Hs1.
  induction s1 as [|c s1 IH]; intros inRun cur Hs1; simpl in *.
  - subst inRun. rewrite Hsep. simpl. f_equal.
    destruct s2 as [|d s2]; [done|]. simpl. by rewrite Hs2.
  - rewrite last_cons in Hs1. destruct (isSpace c) eqn:Hc.
    + destruct (last s1) as [d|] eqn:Hlast; [|congruence].
      destruct inRun; [by apply IH|]. rewrite <- app_comm_cons. f_equal. by apply IH.
    + apply IH. by destruct (last s1).
Qed.

(** Two texts joined by a separator are tokenized one after the other,
    provided that the first does not end and the second does not start with
    a separator. *)
Theorem defaultTokenizer_app text1 sep text2 :
  kept sep = false →
  match last text1 with Some c => kept c = true | None => True end →
  match text2 with c :: _ => kept c = true | [] => True end →
  defaultTokenizer (text1 ++ sep :: text2)
  = defaultTokenizer text1 ++ defaultTokenizer text2.
Proof.
  intros Hsep H1 H2. unfold defaultTokenizer, split, sanitize.
  rewrite fmap_app, fmap_cons. apply splitSpaces_app.
  - by rewrite sanitize_isSpace, Hsep.
  - rewrite fmap_last. destruct (last text1) as [c|]; simpl; [|done].
    by rewrite sanitize_isSpace, H1.
  - destruct text2 as [|c text2]; [done|]. rewrite fmap_cons.
    by rewrite sanitize_isSpace, H2.
Qed.

Lemma defaultTokenizer_app_witness :
  kept 44%N = false
  ∧ match last (lit "I love") with Some c => kept c = true | None => True end
  ∧ match lit "cats" with c :: _ => kept c = true | [] => True end
  ∧ defaultTokenizer (lit "I love" ++ 44%N :: lit "cats")
    = defaultTokenizer (lit "I love") ++ defaultTokenizer (lit "cats").
Proof.
  split; [reflexivity|]. split; [reflexivity|]. split; [reflexivity|].
  apply (defaultTokenizer_app (lit "I love") 44%N (lit "cats"));
    reflexivity.
Defined.

(** ** Categories *)

(** Once [initializeCategory] has returned, [categories[categoryName]] is
    truthy. *)
Lemma initializeCategory_truthy b category b1 :
  initializeCategory b category = Returns b1 →
  falsy id (get (categories b1) category) = false.
Proof.
  unfold initializeCategory.
  destruct (falsy id (get (categories b) category)) eqn:Hfalsy.
  - case_decide as Hproto; [done|]. intros [= <-]. cbn [categories].
    assert (get (set (categories b) category true) category = Own true) as ->; [|done].
    apply get_Own. rewrite set_lookup. case_decide as Hc; [|done].
    unfold get in Hfalsy. destruct (categories b !! category); [done|].
    subst category. done.
  - by intros [= <-].
Qed.

Lemma learnToken_categories category b entry :
  categories (stateOf (learnToken category b entry)) = categories b.
Proof.
  destruct entry as [token f]. unfold learnToken.
  destruct (if falsy id (get (vocabulary b) token)
            then (set (vocabulary b) token true, num_add (vocabularySize b) (Int 1))
            else (vocabulary b, vocabularySize b)) as [voc n].
  by destruct (get (wordFrequencyCount b) category).
Qed.

(** The counts of a category that was learned are never reset.  After a
    call [learn(text, category)] that has returned, [initializeCategory] for
    the same name returns and changes nothing: the document count, the word
    count and the table of the category are those that [learn] has left. *)
Theorem initializeCategory_keeps_what_was_learned b text category b1 :
  learn b text category = Returns b1 →
  initializeCategory b1 category = Returns b1.
Proof.
  unfold learn. intros Hlearn.
  destruct (initializeCategory b category) as [b0|e b0|h b0] eqn:Hinit; [|done..].
  cbn [mbind outcome_bind] in Hlearn.
  assert (categories b1 = categories b0) as Hcats.
  { pose proof (forEach_keeps (λ b', categories b' = categories b0) (λ _, True)
                  (learnToken category)) as Hkeeps.
    match type of Hlearn with
    | forEach _ ?l ?b2 = _ => specialize (Hkeeps
        (λ b' x _ Hb', eq_trans (learnToken_categories category b' x) Hb')
        l b2 (Forall_true _ _ (λ _, I)) eq_refl)
    end.
    by rewrite Hlearn in Hkeeps. }
  apply initializeCategory_truthy in Hinit.
  unfold initializeCategory. by rewrite Hcats, Hinit.
Qed.

Lemma initializeCategory_keeps_what_was_learned_witness :
  let b1 := stateOf (learn (newBayes None) (lit "I love cats") (lit "positive")) in
  learn (newBayes None) (lit "I love cats") (lit "positive") = Returns b1
  ∧ initializeCategory b1 (lit "positive") = Returns b1.
Proof.
  intros b1.
  assert (learn (newBayes None) (lit "I love cats") (lit "positive") = Returns b1) as H
    by (vm_compute; reflexivity).
  split; [exact H|].
  apply (initializeCategory_keeps_what_was_learned (newBayes None) (lit "I love cats")
           (lit "positive") b1 H).
Defined.

(** ** What [learn] adds *)

(** The loop of [learn] for a category that has its table: every turn
    returns, whatever the tokens are. *)
Lemma forEach_learnToken category l b table :
  wordFrequencyCount b !! category = Some table →
  ∃ voc n,
    forEach (learnToken category) l b = Returns
      {| docCount := docCount b;
         wordCount := foldl (λ o e, addTo o category (Int e.2)) (wordCount b) l;
         wordFrequencyCount :=
           <[category := foldl (λ t e, countIn t e.1 e.2) table l]> (wordFrequencyCount b);
         categories := categories b;
         totalDocuments := totalDocuments b; vocabularySize := n;
         tokenizer := tokenizer b; vocabulary := voc |}.
Proof.
  revert b table. induction l as [|[token f] l IH]; intros b table Htable.
  - exists (vocabulary b), (vocabularySize b). simpl.
    rewrite insert_id by done. destruct b. done.
  - simpl. destruct (learnToken_returns category b token f table Htable) as (voc & n & ->).
    simpl. edestruct IH as (voc' & n' & ->); [apply lookup_insert_eq|].
    exists voc', n'. simpl. by rewrite insert_insert_eq.
Qed.

Lemma learnToken_vocabulary_plain category b token f :
  (∀ k v, vocabulary b !! k = Some v → v = true) → ObjectPrototype token = None →
  vocabulary (stateOf (learnToken category b (token, f))) = <[token := true]> (vocabulary b).
Proof.
  intros Hvoc Hplain. unfold learnToken. rewrite get_plain by done.
  pose proof (ObjectPrototype_None_proto _ Hplain) as Hne.
  destruct (vocabulary b !! token) as [v|] eqn:Hv; simpl.
  - pose proof (Hvoc _ _ Hv) as ->. simpl. rewrite insert_id by done.
    by destruct (get (wordFrequencyCount b) category).
  - rewrite set_plain by done. by destruct (get (wordFrequencyCount b) category).
Qed.

Lemma forEach_learnToken_vocabulary category l b table k :
  wordFrequencyCount b !! category = Some table →
  (∀ k v, vocabulary b !! k = Some v → v = true) →
  Forall (λ e : jsstring * Z, ObjectPrototype e.1 = None) l →
  vocabulary (stateOf (forEach (learnToken category) l b)) !! k
  = if decide (k ∈ l.*1) then Some true else vocabulary b !! k.
Proof.
  intros Htable Hvoc Hl. revert b table Htable Hvoc.
  induction Hl as [|[token f] l Htoken _ IH]; intros b table Htable Hvoc.
  - cbn [forEach stateOf fmap list_fmap]. case_decide as Hin; [by apply elem_of_nil in Hin|done].
  - simpl in *. pose proof (learnToken_vocabulary_plain category b token f Hvoc Htoken) as Hstep.
    destruct (learnToken_returns category b token f table Htable) as (voc & n & Heq).
    rewrite Heq in *. simpl in *. subst voc.
    erewrite IH; [|apply lookup_insert_eq|].
    + simpl. destruct (decide (k ∈ l.*1)) as [Hin|Hin].
      * by rewrite decide_True by (by right).
      * destruct (decide (k = token)) as [->|Hne].
        -- rewrite decide_True by left. apply lookup_insert_eq.
        -- rewrite decide_False by (rewrite elem_of_cons; tauto).
           by apply lookup_insert_ne.
    + simpl. intros k' v. destruct (decide (token = k')) as [->|Hne].
      * rewrite lookup_insert_eq. congruence.
      * rewrite lookup_insert_ne by done. apply Hvoc.
Qed.

Lemma set_present {V} (o : gmap jsstring V) k v :
  is_Some (o !! k) → set o k v = <[k := v]> o.
Proof. intros [v0 Hk]. unfold set. rewrite Hk. by case_decide. Qed.

Lemma foldl_addTo o category (l : list (jsstring * Z)) w :
  o !! category = Some (VNum (Int w)) →
  foldl (λ o e, addTo o category (Int e.2)) o l
  = <[category := VNum (Int (w + foldr Z.add 0 l.*2))]> o.
Proof.
  revert o w. induction l as [|[token f] l IH]; intros o w Hw.
  - simpl. rewrite Z.add_0_r. by rewrite insert_id.
  - cbn [foldl]. rewrite fmap_cons. cbn [foldr snd].
    unfold addTo at 2. rewrite (get_Own _ _ _ Hw). cbn [value_add num_add].
    rewrite set_present by eauto.
    rewrite (IH _ (w + f)) by apply lookup_insert_eq.
    rewrite insert_insert_eq. do 3 f_equal. lia.
Qed.

Lemma foldl_countIn table (l : list (jsstring * Z)) k :
  NoDup l.*1 →
  Forall (λ e : jsstring * Z, ObjectPrototype e.1 = None ∧ 1 ≤ e.2) l →
  (∀ k v, table !! k = Some v → ObjectPrototype k = None → ∃ z, v = VNum (Int z) ∧ 1 ≤ z) →
  (∀ f, (k, f) ∈ l →
     foldl (λ t e, countIn t e.1 e.2) table l !! k
     = Some (VNum (Int (frequency table k + f))))
  ∧ (k ∉ l.*1 → foldl (λ t e, countIn t e.1 e.2) table l !! k = table !! k).
Proof.
  intros Hdup Hl. revert table Hdup.
  induction Hl as [|[token f] l [Htoken Hf] _ IH]; intros table Hdup Htable.
  - split; [by intros f ?%elem_of_nil|done].
  - simpl in *. apply NoDup_cons in Hdup as [Hfresh Hdup].
    assert (countIn table token f !! token
            = Some (VNum (Int (frequency table token + f)))
            ∧ ∀ k v, countIn table token f !! k = Some v → ObjectPrototype k = None →
                ∃ z, v = VNum (Int z) ∧ 1 ≤ z) as [Hhere Htable'].
    { unfold frequency. destruct (table !! token) as [v|] eqn:Hv.
      - destruct (Htable _ _ Hv Htoken) as (z & -> & Hz).
        rewrite (countIn_present _ _ _ z) by (done || lia).
        split; [apply lookup_insert_eq|]. intros k' v.
        destruct (decide (token = k')) as [->|Hne].
        + rewrite lookup_insert_eq. intros [= <-] _. exists (z + f). split; [done|lia].
        + rewrite lookup_insert_ne by done. apply Htable.
      - rewrite countIn_absent by done. split; [apply lookup_insert_eq|]. intros k' v.
        destruct (decide (token = k')) as [->|Hne].
        + rewrite lookup_insert_eq. intros [= <-] _. by exists f.
        + rewrite lookup_insert_ne by done. apply Htable. }
    destruct (IH (countIn table token f) Hdup Htable') as [IHin IHout]. split.
    + intros f' [[= -> ->]|Hin]%elem_of_cons.
      * by rewrite IHout.
      * rewrite (IHin f' Hin). unfold frequency.
        rewrite countIn_lookup_ne; [done|]. intros ->. apply Hfresh.
        apply list_elem_of_fmap. by exists (k, f').
    + intros [Hne Hout]%not_elem_of_cons. rewrite (IHout Hout).
      by apply countIn_lookup_ne.
Qed.

(** [initializeCategory] for a name that is no property of
    [Object.prototype]. *)
Lemma initializeCategory_fresh b category :
  ObjectPrototype category = None → categories b !! category = None →
  initializeCategory b category = Returns
    {| docCount := <[category := Int 0]> (docCount b);
       wordCount := <[category := VNum (Int 0)]> (wordCount b);
       wordFrequencyCount := <[category := ∅]> (wordFrequencyCount b);
       categories := <[category := true]> (categories b);
       totalDocuments := totalDocuments b; vocabularySize := vocabularySize b;
       tokenizer := tokenizer b; vocabulary := vocabulary b |}.
Proof.
  intros Hplain Hcat. unfold initializeCategory. rewrite get_plain, Hcat by done.
  pose proof (ObjectPrototype_None_proto _ Hplain) as Hne. simpl.
  case_decide as Hcase; [by destruct Hcase|]. by rewrite !set_plain.
Qed.

(** The category after [initializeCategory], for a name that is no property
    of [Object.prototype]: its three entries are there, those of before or
    fresh ones. *)
Lemma initializeCategory_entries b category :
  wellFormed b → ObjectPrototype category = None →
  ∃ b1 d w table,
    initializeCategory b category = Returns b1
    ∧ match categories b !! category with
      | Some _ =>
          docCount b !! category = Some (Int d)
          ∧ wordCount b !! category = Some (VNum (Int w))
          ∧ wordFrequencyCount b !! category = Some table
      | None => d = 0 ∧ w = 0 ∧ table = ∅
      end
    ∧ (∀ k v, table !! k = Some v → ObjectPrototype k = None → ∃ z, v = VNum (Int z) ∧ 1 ≤ z)
    ∧ docCount b1 !! category = Some (Int d)
    ∧ wordCount b1 !! category = Some (VNum (Int w))
    ∧ wordFrequencyCount b1 !! category = Some table
    ∧ (∀ n, <[category := n]> (docCount b1) = <[category := n]> (docCount b))
    ∧ (∀ v, <[category := v]> (wordCount b1) = <[category := v]> (wordCount b))
    ∧ (∀ t, <[category := t]> (wordFrequencyCount b1) = <[category := t]> (wordFrequencyCount b))
    ∧ categories b1 = <[category := true]> (categories b)
    ∧ totalDocuments b1 = totalDocuments b ∧ vocabularySize b1 = vocabularySize b
    ∧ tokenizer b1 = tokenizer b ∧ vocabulary b1 = vocabulary b.
Proof.
  intros Hwf Hplain. destruct (categories b !! category) as [v|] eqn:Hcat.
  - destruct (wf_categories b Hwf _ _ Hcat) as [-> _].
    destruct (wf_docCount b Hwf category ltac:(eauto)) as (d & Hd & _).
    destruct (wf_wordCount b Hwf category ltac:(eauto)) as (w & Hw).
    destruct (proj1 (wf_tables b Hwf category) ltac:(eauto)) as [table Htable].
    exists b, d, w, table. split_and!; try done.
    + unfold initializeCategory. by rewrite (get_Own _ _ _ Hcat).
    + intros k v Hv Hk. pose proof (wf_entries b Hwf _ _ _ _ Htable Hv) as Hentry.
      destruct v as [n|]; [|done]. destruct Hentry as (z & -> & Hz). eauto.
    + by rewrite insert_id.
  - rewrite (initializeCategory_fresh b category Hplain Hcat).
    eexists _, 0, 0, ∅. split; [done|]. simpl.
    split_and!; try done; try apply lookup_insert_eq;
      intros; apply insert_insert_eq.
Qed.

(** [learn] for a category and tokens that are no names of properties of
    [Object.prototype], field by field. *)
Lemma learn_fields b text category :
  wellFormed b → vocabularyCounted b →
  ObjectPrototype category = None → plainText b text →
  ∃ b' t d w table table',
    learn b text category = Returns b'
    ∧ totalDocuments b = Int t ∧ totalDocuments b' = Int (t + 1)
    ∧ tokenizer b' = tokenizer b
    ∧ categories b' = <[category := true]> (categories b)
    ∧ match categories b !! category with
      | Some _ =>
          docCount b !! category = Some (Int d)
          ∧ wordCount b !! category = Some (VNum (Int w))
          ∧ wordFrequencyCount b !! category = Some table
      | None => d = 0 ∧ w = 0 ∧ table = ∅
      end
    ∧ docCount b' = <[category := Int (d + 1)]> (docCount b)
    ∧ wordCount b'
      = <[category := VNum (Int (w + Z.of_nat (length (tokenizer b text))))]> (wordCount b)
    ∧ wordFrequencyCount b' = <[category := table']> (wordFrequencyCount b)
    ∧ (∀ k, table' !! k =
         if decide (k ∈ tokenizer b text)
         then Some (VNum (Int (frequency table k + occurrences k (tokenizer b text))))
         else table !! k)
    ∧ (∀ k, vocabulary b' !! k =
         if decide (k ∈ tokenizer b text) then Some true else vocabulary b !! k)
    ∧ vocabularySize b' = Int (Z.of_nat (size (vocabulary b'))).
Proof.
  intros Hwf Hvc Hplain Htext.
  destruct (initializeCategory_entries b category Hwf Hplain)
    as (b1 & d & w & table & Hinit & Hcase & Hentries & Hd & Hw & Htable
        & HdocCount & HwordCount & Htables & Hcats & Htotal & Hsize & Htok & Hvoc).
  destruct (wf_total b Hwf) as (t & Ht & _).
  pose proof (learn_vocabulary b text category Hvc) as [[Hcounted _] _].
  unfold learn in *. rewrite Hinit in *. cbn [mbind outcome_bind] in *.
  cbn [tokenizer] in *. rewrite Htok in *.
  set (tokens := tokenizer b text) in *.
  set (b2 := {| docCount := increment (docCount b1) category; wordCount := wordCount b1;
                wordFrequencyCount := wordFrequencyCount b1; categories := categories b1;
                totalDocuments := num_add (totalDocuments b1) (Int 1);
                vocabularySize := vocabularySize b1;
                tokenizer := tokenizer b; vocabulary := vocabulary b1 |}) in *.
  pose proof (forEach_learnToken_vocabulary category (frequencyTable tokens) b2 table) as Hvocabulary.
  destruct (forEach_learnToken category (frequencyTable tokens) b2 table Htable)
    as (voc & n & Heq).
  rewrite Heq in *. cbn [stateOf vocabulary vocabularySize wordFrequencyCount] in *.
  destruct (frequencyTable_entries tokens) as [Hdup Hfreq].
  assert (Forall (λ e : jsstring * Z, ObjectPrototype e.1 = None ∧ 1 ≤ e.2)
            (frequencyTable tokens)) as Hl.
  { apply Forall_forall. intros [k f] Hin. simpl. split.
    - unfold plainText in Htext. rewrite Forall_forall in Htext. apply Htext.
      apply frequencyTable_keys, list_elem_of_fmap. by exists (k, f).
    - by apply Hfreq in Hin as [_ ?]. }
  assert (∀ k, k ∈ (frequencyTable tokens).*1 ↔ k ∈ tokens) as Hkeys.
  { intros k. split; [apply frequencyTable_keys|]. intros Hin.
    apply list_elem_of_fmap. exists (k, occurrences k tokens). split; [done|].
    apply Hfreq. split; [done|]. by apply occurrences_positive. }
  eexists _, t, d, w, table, _. split; [done|]. cbn. split_and!; try done.
  - by rewrite Htotal, Ht.
  - unfold increment. rewrite (get_Own _ _ _ Hd). cbn [num_add].
    rewrite set_present by eauto. apply HdocCount.
  - rewrite (foldl_addTo _ _ _ w) by done.
    rewrite frequencyTable_sum. apply HwordCount.
  - intros k. destruct (foldl_countIn table (frequencyTable tokens) k Hdup Hl Hentries)
      as [Hin Hout].
    destruct (decide (k ∈ tokens)) as [Hk|Hk].
    + apply Hin, Hfreq. split; [done|]. by apply occurrences_positive.
    + apply Hout. by rewrite Hkeys.
  - intros k. rewrite (Hvocabulary k Htable); [| |eapply Forall_impl; [exact Hl|by intros ? []]].
    + cbn. rewrite Hvoc.
      destruct (decide (k ∈ tokens)) as [Hk|Hk].
      * by rewrite decide_True by (by apply Hkeys).
      * by rewrite decide_False by (by rewrite Hkeys).
    + cbn. intros k' v. rewrite Hvoc. apply Hvc.
Qed.

(** For a category whose name is no property of [Object.prototype], [learn]
    returns and the category is there, whatever the tokens are. *)
Lemma learn_registers b text category :
  wellFormed b → ObjectPrototype category = None →
  ∃ b', learn b text category = Returns b' ∧ categories b' !! category = Some true.
Proof.
  intros Hwf Hplain.
  destruct (initializeCategory_entries b category Hwf Hplain)
    as (b1 & d & w & table & Hinit & _ & _ & _ & _ & Htable & _ & _ & _ & Hcats & _).
  unfold learn. rewrite Hinit. cbn [mbind outcome_bind].
  edestruct (forEach_learnToken category) as (voc & n & ->); [exact Htable|].
  eexists. split; [done|]. cbn. rewrite Hcats. apply lookup_insert_eq.
Qed.

Lemma learn_registered b text category :
  wellFormed b → registered b → registered (stateOf (learn b text category)).
Proof.
  intros Hwf Hb c Hc Hcat. destruct (decide (category = c)) as [->|Hne].
  - destruct (learn_registers b text c Hwf Hc) as (b' & Heq & Hin).
    rewrite Heq in Hcat. simpl in Hcat. congruence.
  - pose proof (learn_frame b text category c Hne) as Hframe.
    unfold entries in Hframe. injection Hframe as Hd Hw _ Hc'.
    rewrite Hc' in Hcat. rewrite Hd, Hw. by apply Hb.
Qed.

Lemma initializeCategory_registered b category :
  wellFormed b → registered b → registered (stateOf (initializeCategory b category)).
Proof.
  intros Hwf Hb. unfold initializeCategory, get.
  destruct (categories b !! category) as [v|] eqn:Hcat; simpl.
  - by destruct (wf_categories b Hwf _ _ Hcat) as [-> _].
  - destruct (ObjectPrototype category) as [i|] eqn:Hproto; simpl; [done|].
    pose proof (ObjectPrototype_None_proto _ Hproto) as Hne.
    case_decide as Hcase; [by destruct Hcase|]. simpl.
    intros c Hc. simpl. rewrite !set_plain by done. rewrite !lookup_insert.
    case_decide; [done|]. by apply Hb.
Qed.

Lemma reachable_registered allowed b : reachableBy allowed b → registered b.
Proof.
  apply reachableBy_invariant.
  - intros t c _ _. split; apply lookup_empty.
  - by intros b' t Hb'.
  - intros b' op Hreach Hb' _.
    pose proof (reachable_wellFormed _ b' Hreach) as Hwf.
    pose proof (perform_reads b' op) as Hreads.
    destruct op as [categoryName|text category|text|].
    + by apply initializeCategory_registered.
    + by apply learn_registered.
    + by rewrite Hreads.
    + by rewrite Hreads.
Qed.

(** [learn] on a classifier reached from a new one, for a category and
    tokens that are no names of properties of [Object.prototype]: what each
    field becomes. *)
Lemma learn_plain b text category :
  wellFormed b → vocabularyCounted b → registered b →
  ObjectPrototype category = None → plainText b text →
  ∃ b' t table',
    learn b text category = Returns b'
    ∧ totalDocuments b = Int t ∧ totalDocuments b' = Int (t + 1)
    ∧ tokenizer b' = tokenizer b
    ∧ categories b' = <[category := true]> (categories b)
    ∧ docCount b' = <[category := Int (documentsOf b category + 1)]> (docCount b)
    ∧ wordCount b'
      = <[category := VNum (Int (wordsOf b category
                                 + Z.of_nat (length (tokenizer b text))))]> (wordCount b)
    ∧ wordFrequencyCount b' = <[category := table']> (wordFrequencyCount b)
    ∧ (∀ k, table' !! k =
         if decide (k ∈ tokenizer b text)
         then Some (VNum (Int (frequency (tableOf b category) k
                               + occurrences k (tokenizer b text))))
         else tableOf b category !! k)
    ∧ (∀ k, vocabulary b' !! k =
         if decide (k ∈ tokenizer b text) then Some true else vocabulary b !! k)
    ∧ vocabularySize b' = Int (Z.of_nat (size (vocabulary b'))).
Proof.
  intros Hwf Hvc Hreg Hplain Htext.
  destruct (learn_fields b text category Hwf Hvc Hplain Htext)
    as (b' & t & d & w & table & table' & Heq & Ht & Ht' & Htok & Hcats & Hcase
        & Hd & Hw & Htables & Htable' & Hvoc & Hsize).
  assert (documentsOf b category = d ∧ wordsOf b category = w
          ∧ tableOf b category = table) as (<- & <- & <-).
  { unfold documentsOf, wordsOf, tableOf.
    destruct (categories b !! category) as [v|] eqn:Hcat.
    - destruct Hcase as (-> & -> & ->). done.
    - destruct Hcase as (-> & -> & ->).
      destruct (Hreg category Hplain Hcat) as [-> ->].
      destruct (wordFrequencyCount b !! category) as [table|] eqn:Htable; [|done].
      apply (mk_is_Some) in Htable. apply (wf_tables b Hwf) in Htable as [? ?]. congruence. }
  exists b', t, table'. split_and!; done.
Qed.

Lemma Bayes_eq b b' :
  docCount b = docCount b' → wordCount b = wordCount b' →
  wordFrequencyCount b = wordFrequencyCount b' → categories b = categories b' →
  totalDocuments b = totalDocuments b' → vocabularySize b = vocabularySize b' →
  tokenizer b = tokenizer b' → vocabulary b = vocabulary b' → b = b'.
Proof. destruct b, b'. simpl. by intros -> -> -> -> -> -> -> ->. Qed.

Lemma frequency_added (table table' : gmap jsstring value) tokens k :
  (∀ k, table' !! k =
     if decide (k ∈ tokens)
     then Some (VNum (Int (frequency table k + occurrences k tokens)))
     else table !! k) →
  frequency table' k = frequency table k + occurrences k tokens.
Proof.
  intros Htable'. unfold frequency at 1. rewrite Htable'.
  destruct (decide (k ∈ tokens)) as [Hin|Hin]; [done|].
  assert (occurrences k tokens = 0) as ->.
  { destruct (decide (1 ≤ occurrences k tokens)) as [Hocc|Hocc].
    - by apply occurrences_positive in Hocc.
    - unfold occurrences in *. lia. }
  unfold frequency. lia.
Qed.

(** Tokens added to a table in two rounds give the same table in either
    order. *)
Lemma added_twice (table0 table1 table2 table12 table21 : gmap jsstring value) tokens1 tokens2 :
  (∀ k, table1 !! k =
     if decide (k ∈ tokens1)
     then Some (VNum (Int (frequency table0 k + occurrences k tokens1)))
     else table0 !! k) →
  (∀ k, table2 !! k =
     if decide (k ∈ tokens2)
     then Some (VNum (Int (frequency table0 k + occurrences k tokens2)))
     else table0 !! k) →
  (∀ k, table12 !! k =
     if decide (k ∈ tokens2)
     then Some (VNum (Int (frequency table1 k + occurrences k tokens2)))
     else table1 !! k) →
  (∀ k, table21 !! k =
     if decide (k ∈ tokens1)
     then Some (VNum (Int (frequency table2 k + occurrences k tokens1)))
     else table2 !! k) →
  table12 = table21.
Proof.
  intros H1 H2 H12 H21. apply map_eq. intros k.
  rewrite H12, H21, (frequency_added _ _ _ _ H1), (frequency_added _ _ _ _ H2), H1, H2.
  destruct (decide (k ∈ tokens1)) as [Hk1|Hk1], (decide (k ∈ tokens2)) as [Hk2|Hk2];
    try done.
  - do 3 f_equal. lia.
  - do 3 f_equal. assert (occurrences k tokens2 = 0) as ->; [|lia].
    destruct (decide (1 ≤ occurrences k tokens2)) as [Hocc|Hocc].
    + by apply occurrences_positive in Hocc.
    + unfold occurrences in *. lia.
  - do 3 f_equal. assert (occurrences k tokens1 = 0) as ->; [|lia].
    destruct (decide (1 ≤ occurrences k tokens1)) as [Hocc|Hocc].
    + by apply occurrences_positive in Hocc.
    + unfold occurrences in *. lia.
Qed.

(** Along the calls whose categories are no names of properties of
    [Object.prototype], [learn] returns for every such category, whatever the
    text and the tokenizer are, and the category is a key of [categories]
    afterwards. *)
Theorem learn_returns b text category :
  reachableBy plainCategory b → ObjectPrototype category = None →
  ∃ b', learn b text category = Returns b' ∧ categories b' !! category = Some true.
Proof.
  intros Hb. apply learn_registers. exact (reachable_wellFormed _ b Hb).
Qed.

Lemma learn_returns_witness :
  reachableBy plainCategory (newBayes None) ∧ ObjectPrototype (lit "positive") = None
  ∧ ∃ b', learn (newBayes None) (lit "I love cats") (lit "positive") = Returns b'
      ∧ categories b' !! lit "positive" = Some true.
Proof.
  split; [apply reachable_new|]. split; [reflexivity|].
  apply (learn_returns (newBayes None) (lit "I love cats") (lit "positive"));
    [apply reachable_new|reflexivity].
Defined.

(** What [learn] adds.  Along the calls whose categories are no names of
    properties of [Object.prototype], and for a category and tokens that are
    no such names, [learn] returns; [totalDocuments] and
    the document count of the category grow by one, the word count of the
    category by the number of tokens, the count of every token in the table
    of the category by the number of its occurrences in the text, and the
    keys of [vocabulary] are those of before and the tokens. *)
Theorem learn_adds_the_tokens b text category :
  reachableBy plainCategory b → ObjectPrototype category = None → plainText b text →
  ∃ b' t,
    learn b text category = Returns b'
    ∧ totalDocuments b = Int t ∧ totalDocuments b' = Int (t + 1)
    ∧ documentsOf b' category = documentsOf b category + 1
    ∧ wordsOf b' category
      = wordsOf b category + Z.of_nat (length (tokenizer b text))
    ∧ (∀ token, frequency (tableOf b' category) token
         = frequency (tableOf b category) token + occurrences token (tokenizer b text))
    ∧ (∀ token, is_Some (vocabulary b' !! token)
         ↔ is_Some (vocabulary b !! token) ∨ token ∈ tokenizer b text).
Proof.
  intros Hb Hplain Htext.
  destruct (learn_plain b text category (reachable_wellFormed _ b Hb)
              (reachable_vocabulary _ b Hb) (reachable_registered _ b Hb) Hplain Htext)
    as (b' & t & table' & Heq & Ht & Ht' & _ & _ & Hd & Hw & Htables & Htable' & Hvoc & _).
  exists b', t. split_and!; try done.
  - unfold documentsOf at 1. by rewrite Hd, lookup_insert_eq.
  - unfold wordsOf at 1. by rewrite Hw, lookup_insert_eq.
  - intros token. unfold tableOf at 1. rewrite Htables, lookup_insert_eq. simpl.
    by apply frequency_added.
  - intros token. rewrite Hvoc. destruct (decide (token ∈ tokenizer b text)) as [Hin|Hin].
    + split; [by right|by eauto].
    + split; [by left|]. by intros [?|?].
Qed.

Lemma learn_adds_the_tokens_witness :
  reachableBy plainCategory (newBayes None) ∧ ObjectPrototype (lit "positive") = None
  ∧ plainText (newBayes None) (lit "I love cats")
  ∧ ∃ b' t,
      learn (newBayes None) (lit "I love cats") (lit "positive") = Returns b'
      ∧ totalDocuments (newBayes None) = Int t ∧ totalDocuments b' = Int (t + 1)
      ∧ documentsOf b' (lit "positive") = documentsOf (newBayes None) (lit "positive") + 1
      ∧ wordsOf b' (lit "positive")
        = wordsOf (newBayes None) (lit "positive")
          + Z.of_nat (length (tokenizer (newBayes None) (lit "I love cats")))
      ∧ (∀ token, frequency (tableOf b' (lit "positive")) token
           = frequency (tableOf (newBayes None) (lit "positive")) token
             + occurrences token (tokenizer (newBayes None) (lit "I love cats")))
      ∧ (∀ token, is_Some (vocabulary b' !! token)
           ↔ is_Some (vocabulary (newBayes None) !! token)
             ∨ token ∈ tokenizer (newBayes None) (lit "I love cats")).
Proof.
  assert (plainText (newBayes None) (lit "I love cats")) as Hplain
    by (repeat constructor).
  split; [apply reachable_new|]. split; [reflexivity|]. split; [exact Hplain|].
  apply (learn_adds_the_tokens (newBayes None) (lit "I love cats") (lit "positive")
           (reachable_new _ None) eq_refl Hplain).
Defined.

(** Two calls of [learn] one after the other, in terms of the classifier
    before the first. *)
Lemma learn_plain_twice b text1 c1 text2 c2 :
  wellFormed b → vocabularyCounted b → registered b →
  ObjectPrototype c1 = None → ObjectPrototype c2 = None →
  plainText b text1 → plainText b text2 →
  ∃ b1 b12 t table1 table12,
    learn b text1 c1 = Returns b1 ∧ learn b1 text2 c2 = Returns b12
    ∧ totalDocuments b = Int t ∧ totalDocuments b12 = Int (t + 1 + 1)
    ∧ tokenizer b12 = tokenizer b
    ∧ categories b12 = <[c2 := true]> (<[c1 := true]> (categories b))
    ∧ docCount b12
      = <[c2 := Int ((if decide (c1 = c2) then documentsOf b c1 + 1
                      else documentsOf b c2) + 1)]>
          (<[c1 := Int (documentsOf b c1 + 1)]> (docCount b))
    ∧ wordCount b12
      = <[c2 := VNum (Int ((if decide (c1 = c2)
                            then wordsOf b c1 + Z.of_nat (length (tokenizer b text1))
                            else wordsOf b c2)
                           + Z.of_nat (length (tokenizer b text2))))]>
          (<[c1 := VNum (Int (wordsOf b c1 + Z.of_nat (length (tokenizer b text1))))]>
             (wordCount b))
    ∧ wordFrequencyCount b12
      = <[c2 := table12]> (<[c1 := table1]> (wordFrequencyCount b))
    ∧ (∀ k, table1 !! k =
         if decide (k ∈ tokenizer b text1)
         then Some (VNum (Int (frequency (tableOf b c1) k
                               + occurrences k (tokenizer b text1))))
         else tableOf b c1 !! k)
    ∧ (∀ k, table12 !! k =
         if decide (k ∈ tokenizer b text2)
         then Some (VNum (Int (frequency (if decide (c1 = c2) then table1 else tableOf b c2) k
                               + occurrences k (tokenizer b text2))))
         else (if decide (c1 = c2) then table1 else tableOf b c2) !! k)
    ∧ (∀ k, vocabulary b12 !! k =
         if decide (k ∈ tokenizer b text2) then Some true
         else if decide (k ∈ tokenizer b text1) then Some true
         else vocabulary b !! k)
    ∧ vocabularySize b12 = Int (Z.of_nat (size (vocabulary b12))).
Proof.
  intros Hwf Hvc Hreg Hc1 Hc2 Htext1 Htext2.
  destruct (learn_plain b text1 c1 Hwf Hvc Hreg Hc1 Htext1)
    as (b1 & t & table1 & Heq1 & Ht & Ht1 & Htok1 & Hcats1 & Hd1 & Hw1 & Htables1
        & Htable1 & Hvoc1 & _).
  pose proof (learn_wellFormed b text1 c1 Hwf) as Hwf1.
  pose proof (learn_vocabulary b text1 c1 Hvc) as [Hvc1 _].
  pose proof (learn_registered b text1 c1 Hwf Hreg) as Hreg1.
  rewrite Heq1 in Hwf1, Hvc1, Hreg1. simpl in Hwf1, Hvc1, Hreg1.
  assert (plainText b1 text2) as Htext2' by (unfold plainText; by rewrite Htok1).
  destruct (learn_plain b1 text2 c2 Hwf1 Hvc1 Hreg1 Hc2 Htext2')
    as (b12 & t' & table12 & Heq12 & Ht' & Ht12 & Htok12 & Hcats12 & Hd12 & Hw12
        & Htables12 & Htable12 & Hvoc12 & Hsize12).
  rewrite Htok1 in *.
  assert (t' = t + 1) as -> by congruence.
  assert (documentsOf b1 c2
          = if decide (c1 = c2) then documentsOf b c1 + 1 else documentsOf b c2) as Hdocs.
  { unfold documentsOf at 1. rewrite Hd1. case_decide as Hc; [subst c2|].
    - by rewrite lookup_insert_eq.
    - by rewrite lookup_insert_ne. }
  assert (wordsOf b1 c2
          = if decide (c1 = c2)
            then wordsOf b c1 + Z.of_nat (length (tokenizer b text1))
            else wordsOf b c2) as Hwords.
  { unfold wordsOf at 1. rewrite Hw1. case_decide as Hc; [subst c2|].
    - by rewrite lookup_insert_eq.
    - by rewrite lookup_insert_ne. }
  assert (tableOf b1 c2 = if decide (c1 = c2) then table1 else tableOf b c2) as Htab.
  { unfold tableOf at 1. rewrite Htables1. case_decide as Hc; [subst c2|].
    - by rewrite lookup_insert_eq.
    - by rewrite lookup_insert_ne. }
  exists b1, b12, t, table1, table12. split_and!; try done.
  - by rewrite Hcats12, Hcats1.
  - by rewrite Hd12, Hd1, Hdocs.
  - by rewrite Hw12, Hw1, Hwords.
  - by rewrite Htables12, Htables1.
  - intros k. by rewrite Htable12, Htab.
  - intros k. by rewrite Hvoc12, Hvoc1.
Qed.

(** The order of two documents does not matter: for categories and tokens
    that are no names of properties of [Object.prototype], learning two texts
    in either order leaves the same classifier. *)
Theorem learn_commutes b text1 category1 text2 category2 :
  reachable b →
  ObjectPrototype category1 = None → ObjectPrototype category2 = None →
  plainText b text1 → plainText b text2 →
  ∃ b',
    (b1 ← learn b text1 category1; learn b1 text2 category2) = Returns b'
    ∧ (b2 ← learn b text2 category2; learn b2 text1 category1) = Returns b'.
Proof.
  intros Hb Hc1 Hc2 Htext1 Htext2.
  pose proof (reachable_wellFormed _ b Hb) as Hwf.
  pose proof (reachable_vocabulary _ b Hb) as Hvc.
  pose proof (reachable_registered _ b Hb) as Hreg.
  destruct (learn_plain_twice b text1 category1 text2 category2
              Hwf Hvc Hreg Hc1 Hc2 Htext1 Htext2)
    as (b1 & b12 & t & table1 & table12 & Heq1 & Heq12 & Ht & Ht12 & Htok12 & Hcats12
        & Hd12 & Hw12 & Htables12 & Htable1 & Htable12 & Hvoc12 & Hsize12).
  destruct (learn_plain_twice b text2 category2 text1 category1
              Hwf Hvc Hreg Hc2 Hc1 Htext2 Htext1)
    as (b2 & b21 & t' & table2 & table21 & Heq2 & Heq21 & Ht' & Ht21 & Htok21 & Hcats21
        & Hd21 & Hw21 & Htables21 & Htable2 & Htable21 & Hvoc21 & Hsize21).
  assert (t' = t) as -> by congruence.
  assert (vocabulary b12 = vocabulary b21) as Hvoc.
  { apply map_eq. intros k. rewrite Hvoc12, Hvoc21. by repeat case_decide. }
  exists b12. rewrite Heq1, Heq2. cbn [mbind outcome_bind]. split; [done|].
  rewrite Heq21. f_equal. apply Bayes_eq; try congruence.
  - rewrite Hd12, Hd21. destruct (decide (category1 = category2)) as [->|Hne].
    + rewrite !decide_True by done. by rewrite !insert_insert_eq.
    + rewrite !decide_False by done. by apply insert_insert_ne.
  - rewrite Hw12, Hw21. destruct (decide (category1 = category2)) as [->|Hne].
    + rewrite !decide_True by done. rewrite !insert_insert_eq. do 3 f_equal. lia.
    + rewrite !decide_False by done. by apply insert_insert_ne.
  - rewrite Htables12, Htables21. destruct (decide (category1 = category2)) as [->|Hne].
    + rewrite !decide_True in * by done. rewrite !insert_insert_eq. f_equal. symmetry.
      exact (added_twice (tableOf b category2) table1 table2 table12 table21 _ _
               Htable1 Htable2 Htable12 Htable21).
    + rewrite !decide_False in * by done.
      assert (table12 = table2) as -> by (apply map_eq; intros k; by rewrite Htable12, Htable2).
      assert (table21 = table1) as -> by (apply map_eq; intros k; by rewrite Htable21, Htable1).
      by apply insert_insert_ne.
  - rewrite Hcats12, Hcats21. destruct (decide (category1 = category2)) as [->|Hne].
    + done.
    + by apply insert_insert_ne.
Qed.

Lemma learn_commutes_witness :
  reachable (newBayes None)
  ∧ ObjectPrototype (lit "positive") = None ∧ ObjectPrototype (lit "negative") = None
  ∧ plainText (newBayes None) (lit "I love cats")
  ∧ plainText (newBayes None) (lit "I hate rain")
  ∧ ∃ b',
      (b1 ← learn (newBayes None) (lit "I love cats") (lit "positive");
       learn b1 (lit "I hate rain") (lit "negative")) = Returns b'
      ∧ (b2 ← learn (newBayes None) (lit "I hate rain") (lit "negative");
         learn b2 (lit "I love cats") (lit "positive")) = Returns b'.
Proof.
  assert (plainText (newBayes None) (lit "I love cats")) as H1 by (repeat constructor).
  assert (plainText (newBayes None) (lit "I hate rain")) as H2 by (repeat constructor).
  split; [apply reachable_new|]. split; [reflexivity|]. split; [reflexivity|].
  split; [exact H1|]. split; [exact H2|].
  apply (learn_commutes (newBayes None) (lit "I love cats") (lit "positive")
           (lit "I hate rain") (lit "negative") (reachable_new _ None) eq_refl eq_refl H1 H2).
Defined.

(** ** Documents *)

(** The documents of a call of [learn] whose category is no name of a
    property of [Object.prototype], whatever the tokens are. *)
Lemma learn_documents b text category :
  wellFormed b → registered b → ObjectPrototype category = None →
  ∃ b' t,
    learn b text category = Returns b'
    ∧ totalDocuments b = Int t ∧ totalDocuments b' = Int (t + 1)
    ∧ (docCount b !! category = None
       ∨ docCount b !! category = Some (Int (documentsOf b category)))
    ∧ docCount b' = <[category := Int (documentsOf b category + 1)]> (docCount b).
Proof.
  intros Hwf Hreg Hplain.
  destruct (initializeCategory_entries b category Hwf Hplain)
    as (b1 & d & w & table & Hinit & Hcase & _ & Hd & _ & Htable & HdocCount & _ & _ & _
        & Htotal & _).
  destruct (wf_total b Hwf) as (t & Ht & _).
  unfold learn. rewrite Hinit. cbn [mbind outcome_bind].
  edestruct (forEach_learnToken category) as (voc & n & ->); [exact Htable|].
  eexists _, t. split; [done|]. cbn. split; [done|]. split; [by rewrite Htotal, Ht|].
  assert ((docCount b !! category = None ∨ docCount b !! category = Some (Int d))
          ∧ documentsOf b category = d) as [Hb <-].
  { unfold documentsOf. destruct (categories b !! category) as [v|] eqn:Hcat.
    - destruct Hcase as (-> & _). split; [by right|done].
    - destruct Hcase as (-> & _). destruct (Hreg category Hplain Hcat) as [-> _].
      split; [by left|done]. }
  split; [done|]. unfold increment. rewrite (get_Own _ _ _ Hd). cbn [num_add].
  rewrite set_present by eauto. apply HdocCount.
Qed.

Lemma learn_documentSum b text category t :
  wellFormed b → registered b → ObjectPrototype category = None →
  totalDocuments b = Int t → documentSum b = Some t →
  ∃ b', learn b text category = Returns b'
    ∧ totalDocuments b' = Int (t + 1) ∧ documentSum b' = Some (t + 1).
Proof.
  intros Hwf Hreg Hplain Ht Hsum.
  destruct (learn_documents b text category Hwf Hreg Hplain)
    as (b' & t' & Heq & Ht' & Htotal & Hcase & Hd).
  assert (t' = t) as -> by congruence.
  exists b'. split; [done|]. split; [done|].
  unfold documentSum in *. rewrite Hd, fmap_insert.
  destruct Hcase as [Hnone|Hsome].
  - rewrite tableSum_insert by (by rewrite lookup_fmap, Hnone).
    rewrite Hsum. unfold documentsOf. rewrite Hnone. simpl. f_equal. lia.
  - erewrite tableSum_replace; [|by rewrite lookup_fmap, Hsome|done]. f_equal. lia.
Qed.

Lemma initializeCategory_documentSum b category t :
  wellFormed b → registered b →
  totalDocuments b = Int t → documentSum b = Some t →
  totalDocuments (stateOf (initializeCategory b category)) = Int t
  ∧ documentSum (stateOf (initializeCategory b category)) = Some t.
Proof.
  intros Hwf Hreg Ht Hsum. unfold initializeCategory, get.
  destruct (categories b !! category) as [v|] eqn:Hcat; simpl.
  - by destruct (wf_categories b Hwf _ _ Hcat) as [-> _].
  - destruct (ObjectPrototype category) as [i|] eqn:Hproto; simpl; [done|].
    pose proof (ObjectPrototype_None_proto _ Hproto) as Hne.
    case_decide as Hcase; [by destruct Hcase|]. simpl. split; [done|].
    unfold documentSum in *. simpl. rewrite set_plain by done.
    destruct (Hreg category Hproto Hcat) as [Hnone _].
    rewrite fmap_insert, tableSum_insert by (by rewrite lookup_fmap, Hnone).
    rewrite Hsum. simpl. f_equal.
Qed.

(** Document conservation.  Along every sequence of calls from a new
    classifier in which the categories learned are no names of properties
    of [Object.prototype], [totalDocuments] is the sum of the document counts
    of the categories. *)
Theorem documents_conserved b :
  reachableBy plainCategory b →
  ∃ t, totalDocuments b = Int t ∧ documentSum b = Some t.
Proof.
  apply (reachableBy_invariant plainCategory
           (λ b, ∃ t, totalDocuments b = Int t ∧ documentSum b = Some t)).
  - intros t. exists 0. split; [done|].
    unfold documentSum. simpl. by rewrite fmap_empty, tableSum_empty.
  - by intros b' t H.
  - intros b' op Hb (t & Ht & Hsum) Hop.
    pose proof (reachable_wellFormed _ b' Hb) as Hwf.
    pose proof (reachable_registered _ b' Hb) as Hreg.
    pose proof (perform_reads b' op) as Hreads.
    destruct op as [categoryName|text category|text|]; simpl in Hop.
    + exists t. by apply initializeCategory_documentSum.
    + destruct (learn_documentSum b' text category t Hwf Hreg Hop Ht Hsum)
        as (b'' & Heq & ? & ?).
      cbn [perform]. rewrite Heq. simpl. eauto.
    + rewrite Hreads. eauto.
    + rewrite Hreads. eauto.
Qed.

(** ** Categories that were never learned *)

(** Along the calls whose categories are no names of properties of
    [Object.prototype], and for a name that is no key of [categories] and no
    such name, [tokenProbability] throws a [TypeError]:
    [wordFrequencyCount[category]] is [undefined] and the code reads a
    property of it. *)
Theorem tokenProbability_unknown_category b token category :
  reachableBy plainCategory b →
  ObjectPrototype category = None → categories b !! category = None →
  tokenProbability b token category = Throws TypeError b.
Proof.
  intros Hb Hplain Hcat. pose proof (reachable_wellFormed _ b Hb) as Hwf.
  unfold tokenProbability. rewrite get_plain by done.
  destruct (wordFrequencyCount b !! category) as [table|] eqn:Htable; [|done].
  apply mk_is_Some, (wf_tables b Hwf) in Htable as [v Hv]. congruence.
Qed.

Lemma tokenProbability_unknown_category_witness :
  reachableBy plainCategory (newBayes None) ∧ ObjectPrototype (lit "positive") = None
  ∧ categories (newBayes None) !! lit "positive" = None
  ∧ tokenProbability (newBayes None) (lit "cats") (lit "positive")
    = Throws TypeError (newBayes None).
Proof.
  split; [apply reachable_new|]. split; [reflexivity|]. split; [reflexivity|].
  apply (tokenProbability_unknown_category (newBayes None) (lit "cats") (lit "positive"));
    [apply reachable_new|reflexivity|reflexivity].
Defined.

(** ** The smoothed probabilities of a category *)

Lemma learnToken_tables category b token f :
  wordFrequencyCount (stateOf (learnToken category b (token, f)))
  = match wordFrequencyCount b !! category with
    | Some table => <[category := countIn table token f]> (wordFrequencyCount b)
    | None => wordFrequencyCount b
    end.
Proof.
  unfold learnToken.
  destruct (if falsy id (get (vocabulary b) token)
            then (set (vocabulary b) token true, num_add (vocabularySize b) (Int 1))
            else (vocabulary b, vocabularySize b)) as [voc n].
  unfold get. destruct (wordFrequencyCount b !! category); [done|].
  by destruct (ObjectPrototype category).
Qed.

Lemma initializeCategory_tables b category c table :
  wordFrequencyCount (stateOf (initializeCategory b category)) !! c = Some table →
  wordFrequencyCount b !! c = Some table ∨ table = ∅.
Proof.
  unfold initializeCategory. destruct (falsy id _); [|by left].
  case_decide; simpl; [by left|].
  destruct (decide (category = c)) as [->|Hne].
  - rewrite lookup_insert_eq. intros [= <-]. by right.
  - rewrite lookup_insert_ne by done. by left.
Qed.

Lemma learnToken_covers category b token f :
  ObjectPrototype token = None →
  vocabularyCounted b ∧ vocabularyCovers b →
  vocabularyCounted (stateOf (learnToken category b (token, f)))
  ∧ vocabularyCovers (stateOf (learnToken category b (token, f))).
Proof.
  intros Hplain [Hvc [Hkeys Hcovers]].
  split; [apply (learnToken_vocabulary category b (token, f) Hvc)|].
  pose proof (learnToken_vocabulary_plain category b token f (proj2 Hvc) Hplain) as Hvoc.
  pose proof (learnToken_tables category b token f) as Htables.
  assert (∀ k, is_Some (vocabulary b !! k) →
            is_Some (vocabulary (stateOf (learnToken category b (token, f))) !! k)) as Hmono.
  { intros k Hk. rewrite Hvoc. destruct (decide (token = k)) as [->|Hne].
    - rewrite lookup_insert_eq. eauto.
    - by rewrite lookup_insert_ne. }
  split.
  - intros k. rewrite Hvoc. destruct (decide (token = k)) as [->|Hne]; [done|].
    rewrite lookup_insert_ne by done. apply Hkeys.
  - intros c table k. rewrite Htables.
    destruct (wordFrequencyCount b !! category) as [table0|] eqn:Htable0;
      [|by intros; eapply Hmono, Hcovers].
    destruct (decide (category = c)) as [->|Hne].
    + rewrite lookup_insert_eq. intros [= <-]. destruct (decide (token = k)) as [->|Hk].
      * intros _. rewrite Hvoc, lookup_insert_eq. eauto.
      * rewrite countIn_lookup_ne by done. intros. by eapply Hmono, Hcovers.
    + rewrite lookup_insert_ne by done. intros. by eapply Hmono, Hcovers.
Qed.

Lemma learn_covers b text category :
  plainText b text → vocabularyCounted b → vocabularyCovers b →
  vocabularyCovers (stateOf (learn b text category)).
Proof.
  intros Htext Hvc [Hkeys Hcovers]. unfold learn.
  destruct (initializeCategory_vocabulary b category) as [Hv Hn].
  pose proof (initializeCategory_tables b category) as Htables.
  assert (vocabularyCounted (stateOf (initializeCategory b category))
          ∧ vocabularyCovers (stateOf (initializeCategory b category))) as Hinit.
  { split; [unfold vocabularyCounted in *; by rewrite Hv, Hn|]. split.
    - intros k. rewrite Hv. apply Hkeys.
    - intros c table k Htable Hk. rewrite Hv.
      destruct (Htables c table Htable) as [?| ->]; [by eapply Hcovers|].
      rewrite lookup_empty in Hk. by destruct Hk. }
  assert (tokenizer (stateOf (initializeCategory b category)) = tokenizer b) as Htok.
  { unfold initializeCategory. destruct (falsy id _); [|done]. by case_decide. }
  destruct (initializeCategory b category) as [b1|e b1|h b1]; simpl in *;
    [|apply Hinit..].
  refine (proj2 (forEach_keeps
            (λ b', vocabularyCounted b' ∧ vocabularyCovers b')
            (λ e : jsstring * Z, ObjectPrototype e.1 = None)
            (learnToken category) _ (frequencyTable (tokenizer b1 text)) _ _ _)).
  - intros b' [token f] Hplain Hb'. by apply learnToken_covers.
  - apply Forall_forall. intros [k f] Hin. simpl.
    unfold plainText in Htext. rewrite Forall_forall in Htext. apply Htext.
    rewrite <- Htok. apply frequencyTable_keys, list_elem_of_fmap. by exists (k, f).
  - done.
Qed.

Lemma initializeCategory_covers b category :
  vocabularyCovers b → vocabularyCovers (stateOf (initializeCategory b category)).
Proof.
  intros [Hkeys Hcovers].
  destruct (initializeCategory_vocabulary b category) as [Hv Hn].
  pose proof (initializeCategory_tables b category) as Htables. split.
  - intros k. rewrite Hv. apply Hkeys.
  - intros c table k Htable Hk. rewrite Hv.
    destruct (Htables c table Htable) as [?| ->]; [by eapply Hcovers|].
    rewrite lookup_empty in Hk. by destruct Hk.
Qed.

Lemma reachablePlain_covers b : reachablePlain b → vocabularyCovers b.
Proof.
  apply reachableBy_invariant.
  - intros t. split; [intros k; simpl; rewrite lookup_empty; by intros [? ?]|].
    intros c table k. simpl. by rewrite lookup_empty.
  - by intros b' t H.
  - intros b' op Hb Hcovers [_ Hop].
    pose proof (perform_reads b' op) as Hreads.
    destruct op as [categoryName|text category|text|]; simpl in Hop.
    + by apply initializeCategory_covers.
    + by apply learn_covers; [|apply (reachable_vocabulary _ b' Hb)|].
    + by rewrite Hreads.
    + by rewrite Hreads.
Qed.

Lemma frequency_insert table k0 v k :
  frequency (<[k0 := v]> table) k
  = if decide (k = k0) then match v with VNum (Int z) => z | _ => 0 end
    else frequency table k.
Proof.
  unfold frequency. case_decide as Hk; [subst k|].
  - by rewrite lookup_insert_eq.
  - by rewrite lookup_insert_ne.
Qed.

Lemma sum_ext (g h : jsstring → Z) keys :
  (∀ k, k ∈ keys → g k = h k) →
  foldr (λ k s, g k + s) 0 keys = foldr (λ k s, h k + s) 0 keys.
Proof.
  induction keys as [|k keys IH]; intros Hgh; [done|]. cbn [foldr].
  rewrite Hgh by left. rewrite IH; [done|]. intros k' Hk'. apply Hgh. by right.
Qed.

Lemma sum_update (g h : jsstring → Z) keys k0 z :
  NoDup keys → k0 ∈ keys → (∀ k, k ≠ k0 → g k = h k) → g k0 = h k0 + z →
  foldr (λ k s, g k + s) 0 keys = z + foldr (λ k s, h k + s) 0 keys.
Proof.
  intros Hdup Hin Hne Hk0. induction Hdup as [|k keys Hk Hdup IH]; [by apply elem_of_nil in Hin|].
  cbn [foldr]. destruct (decide (k = k0)) as [->|Hkk0].
  - rewrite Hk0, (sum_ext g h keys); [lia|]. intros k' Hk'. apply Hne. by intros ->.
  - rewrite Hne by done. apply elem_of_cons in Hin as [->|Hin]; [done|].
    rewrite IH by done. lia.
Qed.

Lemma sum_zero (keys : list jsstring) : foldr (λ _ s, 0 + s) 0 keys = 0.
Proof. induction keys as [|k keys IH]; [done|]. cbn [foldr]. by rewrite IH. Qed.

(** The counts of a table add up over every list of distinct keys that holds
    the keys of the table. *)
Lemma frequency_sum keys table total :
  NoDup keys → (∀ k, is_Some (table !! k) → k ∈ keys) →
  tableSum table = Some total →
  foldr (λ k s, frequency table k + s) 0 keys = total.
Proof.
  intros Hdup. revert total.
  induction table as [|k0 v table Hk0 IH] using map_ind; intros total Hkeys Hsum.
  - rewrite tableSum_empty in Hsum. injection Hsum as <-.
    rewrite (sum_ext _ (λ _, 0)); [apply sum_zero|].
    intros k _. unfold frequency. by rewrite lookup_empty.
  - rewrite tableSum_insert in Hsum by done.
    destruct v as [[|z]|]; try done.
    destruct (tableSum table) as [s|] eqn:Hs; [|done]. injection Hsum as <-.
    rewrite (sum_update _ (frequency table) keys k0 z); try done.
    + rewrite (IH s); [done| |done]. intros k Hk. apply Hkeys.
      destruct (decide (k0 = k)) as [->|Hne]; [by rewrite Hk0 in Hk; destruct Hk|].
      by rewrite lookup_insert_ne.
    + apply Hkeys. rewrite lookup_insert_eq. eauto.
    + intros k Hne. rewrite frequency_insert. by rewrite decide_False.
    + rewrite frequency_insert, decide_True by done. unfold frequency. rewrite Hk0. lia.
Qed.

(** The smoothed probabilities of a category share one denominator, and
    their numerators add up to it.  Along the calls whose categories and
    tokens are no names of properties of [Object.prototype], and for a key
    of [categories]: for every token of the vocabulary [tokenProbability]
    returns the quotient of an integer that is at least [1] by
    [wordCount[category] + vocabularySize], and the sum of these integers
    over the vocabulary is [wordCount[category] + vocabularySize]. *)
Theorem tokenProbability_numerators_add_up b category :
  reachablePlain b → is_Some (categories b !! category) →
  ∃ (numerators : list Z) (totalWords size : Z),
    wordCount b !! category = Some (VNum (Int totalWords))
    ∧ vocabularySize b = Int size
    ∧ Forall2 (λ token n,
        1 ≤ n
        ∧ tokenProbability b token category
          = Returns (num_div (Int n) (Int (totalWords + size))))
      (Object_keys (vocabulary b)) numerators
    ∧ foldr Z.add 0 numerators = totalWords + size.
Proof.
  intros Hb Hcat.
  destruct (reachablePlain_covers b Hb) as [Hplain Hcovers].
  pose proof (reachable_wellFormed _ b Hb) as Hwf.
  pose proof (reachable_vocabulary _ b Hb) as [Hsize _].
  destruct (proj1 (wf_tables b Hwf category) Hcat) as [table Htable].
  destruct (reachablePlain_conserved b Hb category table Htable) as (_ & w & Hw & Hsum).
  assert (∀ k, k ∈ Object_keys (vocabulary b) ↔ is_Some (vocabulary b !! k)) as Hkeys.
  { intros k. unfold Object_keys. rewrite list_elem_of_fmap. split.
    - intros ([k' v] & -> & Hin). apply elem_of_map_to_list in Hin. simpl. eauto.
    - intros [v Hv]. exists (k, v). split; [done|]. by apply elem_of_map_to_list. }
  exists ((λ k, frequency table k + 1) <$> Object_keys (vocabulary b)),
    w, (Z.of_nat (size (vocabulary b))).
  split; [done|]. split; [done|]. split.
  - apply Forall2_fmap_r, Forall_Forall2_diag, Forall_forall. intros k Hk. simpl.
    apply Hkeys, Hplain in Hk.
    destruct (tokenProbability_plain b k category Hb Hcat Hk)
      as (table' & f & w' & n & Htable' & Hf & Hw' & Hn & Hfw & _ & ->).
    assert (table' = table) as -> by congruence.
    assert (w' = w) as -> by congruence.
    assert (n = Z.of_nat (size (vocabulary b))) as -> by congruence.
    assert (f = frequency table k) as ->.
    { unfold frequency. by destruct Hf as [-> | [-> ->]]. }
    split; [lia|done].
  - assert (∀ keys : list jsstring,
              foldr Z.add 0 ((λ k, frequency table k + 1) <$> keys)
              = foldr (λ k s, frequency table k + s) 0 keys + Z.of_nat (length keys)) as ->.
    { induction keys as [|k keys IH]; [done|].
      rewrite fmap_cons. cbn [foldr length]. rewrite IH. lia. }
    rewrite (frequency_sum _ table w); [| |by intros; eapply Hkeys, Hcovers|done].
    + unfold Object_keys. by rewrite length_fmap, length_map_to_list.
    + apply NoDup_fst_map_to_list.
Qed.

(** ** What a round trip keeps *)


Lemma countIn_finite table token f :
  map_Forall (λ _, finiteValue) table →
  map_Forall (λ _, finiteValue) (countIn table token f).
Proof.
  intros Htable k v. destruct (decide (token = k)) as [->|Hne].
  - rewrite countIn_lookup. destruct (table !! k) as [v0|] eqn:Hv0.
    + intros [= <-]. specialize (Htable k v0 Hv0). unfold finiteValue in *.
      destruct v0 as [[|z]|]; simpl; try done. by destruct (negb (z =? 0)).
    + destruct (ObjectPrototype k) as [[]|]; [| |]; by intros [= <-].
  - rewrite countIn_lookup_ne by done. apply Htable.
Qed.

Lemma foldl_countIn_finite table (l : list (jsstring * Z)) :
  map_Forall (λ _, finiteValue) table →
  map_Forall (λ _, finiteValue) (foldl (λ t e, countIn t e.1 e.2) table l).
Proof.
  revert table. induction l as [|[token f] l IH]; intros table Htable; [done|].
  simpl. by apply IH, countIn_finite.
Qed.

(** No counter becomes [NaN] in a call of [learn] for a category whose name
    is no property of [Object.prototype]. *)
Lemma learn_finite b text category :
  wellFormed b → vocabularyCounted b → ObjectPrototype category = None →
  finite b → finite (stateOf (learn b text category)).
Proof.
  intros Hwf Hvc Hplain (HdocCount & HwordCount & Htables & Htotal & Hsize).
  pose proof (learn_vocabulary b text category Hvc) as [[Hcounted _] _].
  destruct (initializeCategory_entries b category Hwf Hplain)
    as (b1 & d & w & table & Hinit & Hcase & _ & Hd & Hw & Htable & Hdocs & Hwords
        & Htabs & _ & Htot & _).
  destruct (wf_total b Hwf) as (t & Ht & _).
  unfold learn in *. rewrite Hinit in *. cbn [mbind outcome_bind] in *.
  match goal with
  | |- context [forEach _ ?l ?b2] =>
      destruct (forEach_learnToken category l b2 table Htable) as (voc & n & Heq)
  end.
  rewrite Heq in *. cbn [stateOf] in *. unfold finite. cbn.
  assert (map_Forall (λ _, finiteValue) table) as Hfinite.
  { destruct (categories b !! category).
    - destruct Hcase as (_ & _ & Hb). by apply (Htables category).
    - destruct Hcase as (_ & _ & ->). apply map_Forall_empty. }
  split_and!.
  - unfold increment. rewrite (get_Own _ _ _ Hd). cbn [num_add].
    rewrite set_present by eauto. rewrite Hdocs. by apply map_Forall_insert_2.
  - rewrite (foldl_addTo _ _ _ w) by done. rewrite Hwords.
    by apply map_Forall_insert_2.
  - rewrite Htabs. apply map_Forall_insert_2; [|done]. by apply foldl_countIn_finite.
  - by rewrite Htot, Ht.
  - cbn in Hcounted. by rewrite Hcounted.
Qed.

Lemma set_Forall {V} (P : jsstring → V → Prop) (o : gmap jsstring V) k v :
  map_Forall P o → P k v → map_Forall P (set o k v).
Proof.
  intros Ho Hv. unfold set.
  case_decide; [destruct (o !! k)|]; try apply map_Forall_insert_2; done.
Qed.

Lemma initializeCategory_finite b category :
  finite b → finite (stateOf (initializeCategory b category)).
Proof.
  intros (HdocCount & HwordCount & Htables & Htotal & Hsize).
  unfold initializeCategory. destruct (falsy id _); [|done].
  case_decide; simpl; unfold finite; simpl; split_and!; try done;
    try (apply set_Forall; done).
  apply map_Forall_insert_2; [apply map_Forall_empty|done].
Qed.

Lemma reachable_finite b : reachableBy plainCategory b → finite b.
Proof.
  apply reachableBy_invariant.
  - intros t. unfold finite. simpl. split_and!; try done; apply map_Forall_empty.
  - by intros b' t H.
  - intros b' op Hb Hfinite Hop.
    pose proof (perform_reads b' op) as Hreads.
    destruct op as [categoryName|text category|text|]; simpl in Hop.
    + by apply initializeCategory_finite.
    + by apply learn_finite;
        [apply (reachable_wellFormed _ b' Hb)|apply (reachable_vocabulary _ b' Hb)| |].
    + by rewrite Hreads.
    + by rewrite Hreads.
Qed.

(** The round trip is exact after every sequence of calls from a new
    classifier in which the categories learned are no names of properties of
    [Object.prototype], whatever the tokens are: [fromJson(toJson())] returns
    an instance whose seven fields are deep-equal to those of the
    classifier. *)
Theorem round_trip_for_plain_categories b :
  reachableBy plainCategory b →
  ∃ r, fromJson (toJson b) = inr r ∧ deepEqual b r.
Proof.
  intros Hb. destruct (reachable_finite b Hb) as (HdocCount & HwordCount & Htables & Htotal & Hsize).
  eexists. split; [apply restore_jsonBayes|].
  unfold deepEqual, restoredAs. cbn -[sameTable sameNumber jsonTable].
  split_and!.
  - apply sameTable_jsonTable.
    intros k n Hn. apply sameNumber_finite. by apply (HdocCount k).
  - apply sameTable_jsonTable.
    intros k v Hv. apply sameValue_finite. by apply (HwordCount k).
  - apply sameTable_jsonTable. intros c table Htable. apply sameTable_jsonTable.
    intros k v Hv. apply sameValue_finite. by apply (Htables c table Htable k).
  - by apply sameTable_jsonTable.
  - by apply sameNumber_finite.
  - by apply sameTable_jsonTable.
  - by apply sameNumber_finite.
Qed.

(** ** A classifier after one document *)

(** The classifier after [learn("I love cats", "positive")] is reached by
    calls whose category and tokens are no names of properties of
    [Object.prototype]. *)
Lemma example_reachablePlain :
  reachablePlain (stateOf (learn (newBayes None) (lit "I love cats") (lit "positive"))).
Proof.
  apply (reachable_returns _ (newBayes None) (Learn (lit "I love cats") (lit "positive")));
    [apply reachable_new|repeat constructor|vm_compute; reflexivity].
Qed.

Lemma example_reachableCategories :
  reachableBy plainCategory
    (stateOf (learn (newBayes None) (lit "I love cats") (lit "positive"))).
Proof.
  apply (reachable_returns _ (newBayes None) (Learn (lit "I love cats") (lit "positive")));
    [apply reachable_new|reflexivity|vm_compute; reflexivity].
Qed.

Lemma example_category :
  is_Some (categories (stateOf (learn (newBayes None) (lit "I love cats") (lit "positive")))
             !! lit "positive").
Proof. exists true. vm_compute. reflexivity. Qed.

Lemma conservation_for_plain_tokens_witness :
  reachablePlain (stateOf (learn (newBayes None) (lit "I love cats") (lit "positive")))
  ∧ is_Some (categories (stateOf (learn (newBayes None) (lit "I love cats") (lit "positive")))
               !! lit "positive")
  ∧ conserved (stateOf (learn (newBayes None) (lit "I love cats") (lit "positive")))
      (lit "positive").
Proof.
  split; [exact example_reachablePlain|]. split; [exact example_category|].
  apply (conservation_for_plain_tokens _ (lit "positive")
           example_reachablePlain example_category).
Defined.

Lemma tokenProbability_for_plain_tokens_witness :
  let b := stateOf (learn (newBayes None) (lit "I love cats") (lit "positive")) in
  reachablePlain b ∧ is_Some (categories b !! lit "positive")
  ∧ ObjectPrototype (lit "cats") = None
  ∧ ∃ table frequency totalWords size,
      wordFrequencyCount b !! lit "positive" = Some table
      ∧ (table !! lit "cats" = Some (VNum (Int frequency))
         ∨ table !! lit "cats" = None ∧ frequency = 0)
      ∧ wordCount b !! lit "positive" = Some (VNum (Int totalWords))
      ∧ vocabularySize b = Int size
      ∧ 0 ≤ frequency ≤ totalWords ∧ 0 ≤ size
      ∧ tokenProbability b (lit "cats") (lit "positive")
        = Returns (num_div (Int (frequency + 1)) (Int (totalWords + size))).
Proof.
  intros b. split; [exact example_reachablePlain|]. split; [exact example_category|].
  split; [reflexivity|].
  apply (tokenProbability_for_plain_tokens b (lit "cats") (lit "positive")
           example_reachablePlain example_category eq_refl).
Defined.

Lemma vocabulary_restored_witness :
  let b := stateOf (learn (newBayes None) (lit "I love cats") (lit "positive")) in
  reachable b
  ∧ ∃ r, fromJson (toJson b) = inr r
      ∧ restoredAs (sameTable sameBool) (vocabulary b) (restoredVocabulary r)
      ∧ restoredAs sameNumber (vocabularySize b) (restoredVocabularySize r).
Proof.
  intros b. split; [exact (reachablePlain_reachable b example_reachablePlain)|].
  apply (vocabulary_restored b (reachablePlain_reachable b example_reachablePlain)).
Defined.

(** The frame of [learn] (C10), entry by entry: however a call of [learn]
    ends, and up to the point where it reaches into a built-in object, every
    other category has the document count, the word count, the table and the
    key of [categories] that it had. *)
Theorem learn_leaves_other_categories b text category other :
  category ≠ other →
  docCount (stateOf (learn b text category)) !! other = docCount b !! other
  ∧ wordCount (stateOf (learn b text category)) !! other = wordCount b !! other
  ∧ wordFrequencyCount (stateOf (learn b text category)) !! other
    = wordFrequencyCount b !! other
  ∧ categories (stateOf (learn b text category)) !! other = categories b !! other.
Proof.
  intros Hne. pose proof (learn_frame b text category other Hne) as H.
  unfold entries in H. by injection H as -> -> -> ->.
Qed.

Lemma learn_leaves_other_categories_witness :
  let b := stateOf (learn (newBayes None) (lit "I love cats") (lit "positive")) in
  lit "negative" ≠ lit "positive"
  ∧ docCount (stateOf (learn b (lit "I hate rain") (lit "negative"))) !! lit "positive"
    = docCount b !! lit "positive"
  ∧ wordCount (stateOf (learn b (lit "I hate rain") (lit "negative"))) !! lit "positive"
    = wordCount b !! lit "positive"
  ∧ wordFrequencyCount (stateOf (learn b (lit "I hate rain") (lit "negative")))
      !! lit "positive"
    = wordFrequencyCount b !! lit "positive"
  ∧ categories (stateOf (learn b (lit "I hate rain") (lit "negative"))) !! lit "positive"
    = categories b !! lit "positive".
Proof.
  intros b.
  assert (lit "negative" ≠ lit "positive") as Hne
    by (apply (bool_decide_unpack _); vm_compute; exact I).
  split; [exact Hne|].
  apply (learn_leaves_other_categories b (lit "I hate rain") (lit "negative")
           (lit "positive") Hne).
Defined.

Lemma tokenProbability_numerators_add_up_witness :
  let b := stateOf (learn (newBayes None) (lit "I love cats") (lit "positive")) in
  reachablePlain b ∧ is_Some (categories b !! lit "positive")
  ∧ ∃ (numerators : list Z) (totalWords size : Z),
      wordCount b !! lit "positive" = Some (VNum (Int totalWords))
      ∧ vocabularySize b = Int size
      ∧ Forall2 (λ token n,
          1 ≤ n
          ∧ tokenProbability b token (lit "positive")
            = Returns (num_div (Int n) (Int (totalWords + size))))
        (Object_keys (vocabulary b)) numerators
      ∧ foldr Z.add 0 numerators = totalWords + size.
Proof.
  intros b. split; [exact example_reachablePlain|]. split; [exact example_category|].
  apply (tokenProbability_numerators_add_up b (lit "positive")
           example_reachablePlain example_category).
Defined.

Lemma round_trip_for_plain_categories_witness :
  let b := stateOf (learn (newBayes None) (lit "I love cats") (lit "positive")) in
  reachableBy plainCategory b
  ∧ ∃ r, fromJson (toJson b) = inr r ∧ deepEqual b r.
Proof.
  intros b. split; [exact example_reachableCategories|].
  apply (round_trip_for_plain_categories b example_reachableCategories).
Defined.

Lemma documents_conserved_witness :
  let b := stateOf (learn (newBayes None) (lit "I love cats") (lit "positive")) in
  reachableBy plainCategory b
  ∧ ∃ t, totalDocuments b = Int t ∧ documentSum b = Some t.
Proof.
  intros b. split; [exact example_reachableCategories|].
  apply (documents_conserved b example_reachableCategories).
Defined.

(** ** [categorize] along the calls *)

Lemma addTokens_returns b category table l s :
  wordFrequencyCount b !! category = Some table →
  ∃ s', addTokens b category l s = Returns s'.
Proof.
  intros Htable. revert s. induction l as [|[token f] l IH]; intros s; simpl; [eauto|].
  unfold tokenProbability. rewrite (get_Own _ _ _ Htable). simpl. apply IH.
Qed.

Lemma eachCategory_returns b table keys m acc :
  Forall (λ c, is_Some (wordFrequencyCount b !! c)) keys →
  (∀ c, chosenCategory acc = Some c → is_Some (wordFrequencyCount b !! c)) →
  ∃ r,
    eachCategory b table keys m acc = Returns r
    ∧ name <$> categoryResults r = (name <$> categoryResults acc) ++ keys
    ∧ ∀ c, chosenCategory r = Some c → is_Some (wordFrequencyCount b !! c).
Proof.
  intros Hkeys. revert m acc.
  induction Hkeys as [|c keys [t Hc] _ IH]; intros m acc Hacc; simpl.
  - exists acc. by rewrite List.app_nil_r.
  - destruct (addTokens_returns b c t table (Math_log (categoryProbability b c)) Hc)
      as [s ->]. simpl.
    destruct (score_gt s m).
    + edestruct IH as (r & -> & Hnames & Hchosen).
      2:{ exists r. split; [done|]. split; [|done]. rewrite Hnames. simpl.
          by rewrite fmap_app, <- app_assoc. }
      simpl. intros c' [= <-]. eauto.
    + edestruct IH as (r & -> & Hnames & Hchosen).
      2:{ exists r. split; [done|]. split; [|done]. rewrite Hnames. simpl.
          by rewrite fmap_app, <- app_assoc. }
      done.
Qed.

Lemma categorize_results b text :
  wellFormed b →
  ∃ r,
    categorize b text = Returns r
    ∧ name <$> categoryResults r ≡ₚ Object_keys (categories b)
    ∧ ∀ c, chosenCategory r = Some c → is_Some (categories b !! c).
Proof.
  intros Hwf. unfold categorize.
  edestruct (eachCategory_returns b (frequencyTable (tokenizer b text))
               (Object_keys (categories b)) (SInf true)
               {| chosenCategory := None; probability := None; categoryResults := [] |})
    as (r & -> & Hnames & Hchosen).
  - apply Forall_forall. intros c Hc. apply (wf_tables b Hwf).
    unfold Object_keys in Hc. apply list_elem_of_fmap in Hc as ([c' v] & -> & Hin).
    apply elem_of_map_to_list in Hin. simpl. eauto.
  - done.
  - eexists. split; [done|]. cbn. split.
    + simpl in Hnames. rewrite <- Hnames. apply fmap_Permutation, Array_sort_Permutation.
    + intros c Hc. by apply (wf_tables b Hwf), Hchosen.
Qed.

(** [categorize] never throws along the calls whose categories are no names
    of properties of [Object.prototype], whatever the tokens learned and
    whatever the text: it returns one result for each key of [categories],
    and the category chosen, when there is one, is a key of [categories]. *)
Theorem categorize_returns b text :
  reachableBy plainCategory b →
  ∃ r,
    categorize b text = Returns r
    ∧ name <$> categoryResults r ≡ₚ Object_keys (categories b)
    ∧ ∀ c, chosenCategory r = Some c → is_Some (categories b !! c).
Proof. intros Hb. apply categorize_results, (reachable_wellFormed _ b Hb). Qed.

Lemma categorize_returns_witness :
  let b := stateOf (learn (newBayes None) (lit "I love cats") (lit "positive")) in
  reachableBy plainCategory b
  ∧ ∃ r,
      categorize b (lit "the constructor") = Returns r
      ∧ name <$> categoryResults r ≡ₚ Object_keys (categories b)
      ∧ ∀ c, chosenCategory r = Some c → is_Some (categories b !! c).
Proof.
  intros b. split; [exact example_reachableCategories|].
  apply (categorize_returns b (lit "the constructor") example_reachableCategories).
Defined.

(** ** The entries of a category *)

(** Every key of [categories] has its entries, along the calls whose
    categories are no names of properties of [Object.prototype]: its name is
    no such name, its value is [true], its document count is an integer that
    is not negative, it has an integer word count and a table, and the table
    holds an integer that is at least [1] for every token that is no name of
    a property of [Object.prototype]. *)
Theorem categories_are_complete b category :
  reachableBy plainCategory b → is_Some (categories b !! category) →
  ObjectPrototype category = None
  ∧ categories b !! category = Some true
  ∧ ∃ d w table,
      docCount b !! category = Some (Int d) ∧ 0 ≤ d
      ∧ wordCount b !! category = Some (VNum (Int w))
      ∧ wordFrequencyCount b !! category = Some table
      ∧ ∀ token v, table !! token = Some v → ObjectPrototype token = None →
          ∃ z, v = VNum (Int z) ∧ 1 ≤ z.
Proof.
  intros Hb Hcat. pose proof (reachable_wellFormed _ b Hb) as Hwf.
  destruct (wf_docCount b Hwf category Hcat) as (d & Hd & Hd0).
  destruct (wf_wordCount b Hwf category Hcat) as (w & Hw).
  destruct (proj1 (wf_tables b Hwf category) Hcat) as [table Htable].
  destruct Hcat as [v Hv]. destruct (wf_categories b Hwf _ _ Hv) as [-> Hplain].
  split; [done|]. split; [done|]. exists d, w, table. split_and!; try done.
  intros token v Htoken Hp.
  pose proof (wf_entries b Hwf category table token v Htable Htoken) as Hentry.
  destruct v as [n|nm sfx]; [|done]. destruct Hentry as (z & -> & Hz). eauto.
Qed.

Lemma categories_are_complete_witness :
  let b := stateOf (learn (newBayes None) (lit "I love cats") (lit "positive")) in
  reachableBy plainCategory b ∧ is_Some (categories b !! lit "positive")
  ∧ ObjectPrototype (lit "positive") = None
  ∧ categories b !! lit "positive" = Some true
  ∧ ∃ d w table,
      docCount b !! lit "positive" = Some (Int d) ∧ 0 ≤ d
      ∧ wordCount b !! lit "positive" = Some (VNum (Int w))
      ∧ wordFrequencyCount b !! lit "positive" = Some table
      ∧ ∀ token v, table !! token = Some v → ObjectPrototype token = None →
          ∃ z, v = VNum (Int z) ∧ 1 ≤ z.
Proof.
  intros b. split; [exact example_reachableCategories|].
  split; [exact example_category|].
  apply (categories_are_complete b (lit "positive")
           example_reachableCategories example_category).
Defined.

(** ** A bag of words *)

Lemma occurrences_Permutation token tokens1 tokens2 :
  tokens1 ≡ₚ tokens2 → occurrences token tokens1 = occurrences token tokens2.
Proof. intros H. unfold occurrences. by rewrite H. Qed.

(** The order of the words of a document does not matter: two texts whose
    tokens are the same up to their order are learned alike. *)
Theorem learn_bag_of_words b text1 text2 category :
  reachable b → ObjectPrototype category = None → plainText b text1 →
  tokenizer b text1 ≡ₚ tokenizer b text2 →
  learn b text1 category = learn b text2 category.
Proof.
  intros Hb Hplain Htext1 Hperm.
  assert (plainText b text2) as Htext2 by (unfold plainText in *; by rewrite <- Hperm).
  pose proof (reachable_wellFormed _ b Hb) as Hwf.
  pose proof (reachable_vocabulary _ b Hb) as Hvc.
  pose proof (reachable_registered _ b Hb) as Hreg.
  destruct (learn_plain b text1 category Hwf Hvc Hreg Hplain Htext1)
    as (b1 & t & table1 & -> & Ht & Ht1 & Htok1 & Hcats1 & Hd1 & Hw1 & Htables1
        & Htable1 & Hvoc1 & Hsize1).
  destruct (learn_plain b text2 category Hwf Hvc Hreg Hplain Htext2)
    as (b2 & t' & table2 & -> & Ht' & Ht2 & Htok2 & Hcats2 & Hd2 & Hw2 & Htables2
        & Htable2 & Hvoc2 & Hsize2).
  assert (t' = t) as -> by congruence.
  assert (∀ (A : Type) (k : jsstring) (x y : A),
            (if decide (k ∈ tokenizer b text1) then x else y)
            = (if decide (k ∈ tokenizer b text2) then x else y)) as Hif.
  { intros A k x y. destruct (decide (k ∈ tokenizer b text1)) as [Hin|Hin].
    - by rewrite decide_True by (by rewrite <- Hperm).
    - by rewrite decide_False by (by rewrite <- Hperm). }
  assert (vocabulary b1 = vocabulary b2) as Hvoc.
  { apply map_eq. intros k. by rewrite Hvoc1, Hvoc2, Hif. }
  assert (table1 = table2) as Htable.
  { apply map_eq. intros k.
    by rewrite Htable1, Htable2, Hif, (occurrences_Permutation _ _ _ Hperm). }
  f_equal. apply Bayes_eq; try congruence.
  rewrite Hw1, Hw2. by rewrite (Permutation_length Hperm).
Qed.

Lemma learn_bag_of_words_witness :
  reachable (newBayes None) ∧ ObjectPrototype (lit "positive") = None
  ∧ plainText (newBayes None) (lit "I love cats")
  ∧ tokenizer (newBayes None) (lit "I love cats")
    ≡ₚ tokenizer (newBayes None) (lit "cats love I")
  ∧ learn (newBayes None) (lit "I love cats") (lit "positive")
    = learn (newBayes None) (lit "cats love I") (lit "positive").
Proof.
  assert (plainText (newBayes None) (lit "I love cats")) as Hplain by (repeat constructor).
  assert (tokenizer (newBayes None) (lit "I love cats")
          ≡ₚ tokenizer (newBayes None) (lit "cats love I")) as Hperm.
  { change ([lit "I"; lit "love"; lit "cats"] ≡ₚ rev [lit "I"; lit "love"; lit "cats"]).
    apply Permutation_rev. }
  split; [apply reachable_new|]. split; [reflexivity|]. split; [exact Hplain|].
  split; [exact Hperm|].
  apply (learn_bag_of_words (newBayes None) (lit "I love cats") (lit "cats love I")
           (lit "positive") (reachable_new _ None) eq_refl Hplain Hperm).
Defined.

(** ** Instances that share their tables *)

(** The instance built on another one is, as long as neither is used, the
    classifier that [construct] builds. *)
Lemma view_adopt store i t :
  view store (adopt i t) = (λ b, construct (Some b) t) <$> view store i.
Proof. unfold view, adopt. simpl. by destruct (store !! tablesAt i). Qed.

(** [new Bayes(classifier)] does not copy the tables.  When one of the two
    instances learns a text that has a new token, the other one has the new
    tables, vocabulary included, and its own numbers of before: its
    [vocabularySize] is no more the number of keys of its [vocabulary]. *)
Theorem shared_tables_go_stale store i t text category b :
  view store i = Some b → reachable b →
  ObjectPrototype category = None → plainText b text →
  (∃ token, token ∈ tokenizer b text ∧ vocabulary b !! token = None) →
  ∃ store' i' b' other,
    learnAt store i text category = Some (store', i')
    ∧ learn b text category = Returns b' ∧ view store' i' = Some b'
    ∧ view store' (adopt i t) = Some other
    ∧ docCount other = docCount b' ∧ wordCount other = wordCount b'
    ∧ wordFrequencyCount other = wordFrequencyCount b'
    ∧ categories other = categories b' ∧ vocabulary other = vocabulary b'
    ∧ totalDocuments other = totalDocuments b
    ∧ vocabularySize other = vocabularySize b
    ∧ ¬ vocabularyCounted other.
Proof.
  intros Hview Hb Hplain Htext (token & Htoken & Hnew).
  pose proof (reachable_vocabulary _ b Hb) as Hvc.
  destruct (learn_plain b text category (reachable_wellFormed _ b Hb) Hvc
              (reachable_registered _ b Hb) Hplain Htext)
    as (b' & n & table' & Heq & _ & _ & Htok & _ & _ & _ & _ & _ & Hvoc & _).
  unfold learnAt. rewrite Hview, Heq. cbn [stateOf].
  eexists _, _, b', _. split; [done|]. split; [done|].
  unfold view in *. cbn [tablesAt adopt]. rewrite lookup_insert_eq.
  destruct (store !! tablesAt i) as [tables|]; [|done]. injection Hview as <-.
  cbn in *. split; [by destruct b'; cbn in *; subst|]. split; [done|].
  cbn. split_and!; try done.
  intros [Hsize _]. cbn in Hsize. destruct Hvc as [Hvc Htrue]. cbn in Hvc, Htrue.
  rewrite Hvc in Hsize. injection Hsize as Hsize. apply Nat2Z.inj in Hsize.
  assert (sharedVocabulary tables ⊂ vocabulary b') as Hsub; [|apply map_subset_size in Hsub; lia].
  split.
  - apply map_subseteq_spec. intros k v Hk. rewrite Hvoc. cbn.
    case_decide; [|done]. by rewrite (Htrue k v Hk).
  - intros Hsup. rewrite map_subseteq_spec in Hsup.
    specialize (Hsup token true). rewrite Hvoc, decide_True in Hsup by done.
    cbn in Hnew. rewrite Hnew in Hsup. by specialize (Hsup eq_refl).
Qed.

Lemma shared_tables_go_stale_witness :
  let b := newBayes None in
  let store : gmap nat Tables :=
    {[ 0%nat := {| sharedDocCount := docCount b; sharedWordCount := wordCount b;
                   sharedWordFrequencyCount := wordFrequencyCount b;
                   sharedCategories := categories b;
                   sharedVocabulary := vocabulary b |} ]} in
  let i := {| tablesAt := 0; ownTotalDocuments := totalDocuments b;
              ownVocabularySize := vocabularySize b; ownTokenizer := tokenizer b |} in
  ∃ store' i' b' other,
    learnAt store i (lit "I love cats") (lit "positive") = Some (store', i')
    ∧ learn b (lit "I love cats") (lit "positive") = Returns b'
    ∧ view store' i' = Some b'
    ∧ view store' (adopt i None) = Some other
    ∧ docCount other = docCount b' ∧ wordCount other = wordCount b'
    ∧ wordFrequencyCount other = wordFrequencyCount b'
    ∧ categories other = categories b' ∧ vocabulary other = vocabulary b'
    ∧ totalDocuments other = totalDocuments b
    ∧ vocabularySize other = vocabularySize b
    ∧ ¬ vocabularyCounted other.
Proof.
  intros b store i.
  apply (shared_tables_go_stale store i None (lit "I love cats") (lit "positive") b).
  - reflexivity.
  - apply reachable_new.
  - reflexivity.
  - unfold plainText. vm_compute. repeat constructor.
  - exists (lit "cats"). split; [vm_compute; repeat constructor | reflexivity].
Defined.

(** ** The size of the vocabulary along the calls *)

(** Along the calls whose categories are no names of properties of
    [Object.prototype], every call returns. *)
Lemma perform_returns b op :
  wellFormed b → plainCategory b op → ∃ b', perform b op = Returns b'.
Proof.
  intros Hwf Hop. destruct op as [categoryName|text category|text|]; simpl in *.
  - pose proof (initializeCategory_abrupt_state b categoryName) as H.
    destruct (initializeCategory b categoryName); [eauto|done..].
  - destruct (learn_registers b text category Hwf Hop) as (b' & -> & _). eauto.
  - destruct (categorize_results b text Hwf) as (r & -> & _). simpl. eauto.
  - eauto.
Qed.

(** The size of the vocabulary (C3) on one instance.  Along every sequence
    of calls of [initializeCategory], [learn], [categorize] and [toJson] from
    a new classifier in which the categories learned are no names of
    properties of [Object.prototype], every call returns, [vocabularySize]
    is the number of keys of [vocabulary] before and after the call, and the
    call does not make it smaller. *)
Theorem vocabularySize_along_plain_categories b op :
  reachableBy plainCategory b → plainCategory b op →
  ∃ b' (n n' : nat),
    perform b op = Returns b'
    ∧ size (vocabulary b) = n ∧ vocabularySize b = Int (Z.of_nat n)
    ∧ size (vocabulary b') = n' ∧ vocabularySize b' = Int (Z.of_nat n')
    ∧ (n ≤ n')%nat.
Proof.
  intros Hb Hop. pose proof (reachable_vocabulary _ b Hb) as Hinv.
  destruct (perform_returns b op (reachable_wellFormed _ b Hb) Hop) as [b' Heq].
  destruct (perform_vocabulary b op Hinv) as [[H _] Hgrow].
  rewrite Heq in H, Hgrow. simpl in H, Hgrow.
  exists b'. do 2 eexists. split; [done|]. split; [done|]. split; [apply Hinv|]. done.
Qed.

Lemma vocabularySize_along_plain_categories_witness :
  let b := stateOf (learn (newBayes None) (lit "I love cats") (lit "positive")) in
  let op := Learn (lit "I hate rain") (lit "negative") in
  reachableBy plainCategory b ∧ plainCategory b op
  ∧ ∃ b' (n n' : nat),
      perform b op = Returns b'
      ∧ size (vocabulary b) = n ∧ vocabularySize b = Int (Z.of_nat n)
      ∧ size (vocabulary b') = n' ∧ vocabularySize b' = Int (Z.of_nat n')
      ∧ (n ≤ n')%nat.
Proof.
  intros b op. split; [exact example_reachableCategories|]. split; [reflexivity|].
  apply (vocabularySize_along_plain_categories b op example_reachableCategories).
  reflexivity.
Defined.

(** C3 fails on the code when two instances share their tables.
    [new Bayes(a)] takes the vocabulary of [a] by reference and its size by
    value.  After [a = new Bayes()], [b = new Bayes(a)] and
    [a.learn("I love cats", "positive")], the vocabulary of [b] has three
    keys and [b.vocabularySize] is [0]. *)
Lemma adopted_instance_miscounts_vocabulary :
  let a := {| tablesAt := 0; ownTotalDocuments := Int 0; ownVocabularySize := Int 0;
              ownTokenizer := defaultTokenizer |} in
  let store : gmap nat Tables :=
    {[ 0%nat := {| sharedDocCount := ∅; sharedWordCount := ∅;
                   sharedWordFrequencyCount := ∅; sharedCategories := ∅;
                   sharedVocabulary := ∅ |} ]} in
  let b := adopt a None in
  view store a = Some (newBayes None)
  ∧ view store b = Some (construct (Some (newBayes None)) None)
  ∧ ∃ store' a' learned other,
      learnAt store a (lit "I love cats") (lit "positive") = Some (store', a')
      ∧ learn (newBayes None) (lit "I love cats") (lit "positive") = Returns learned
      ∧ view store' a' = Some learned
      ∧ view store' b = Some other
      ∧ vocabulary other
        = {[ lit "I" := true; lit "love" := true; lit "cats" := true ]}
      ∧ size (vocabulary other) = 3%nat
      ∧ vocabularySize other = Int 0
      ∧ vocabularySize learned = Int 3.
Proof.
  intros a store b. split; [reflexivity|]. split; [reflexivity|].
  eexists _, _, _, _. split; [reflexivity|].
  split; [vm_compute; reflexivity|].
  split; [vm_compute; reflexivity|].
  split; [vm_compute; reflexivity|].
  split; [vm_compute; reflexivity|].
  split; [vm_compute; reflexivity|].
  split; vm_compute; reflexivity.
Qed.

(** ** A text without tokens *)

(** What C8 says of the empty text holds of every text for which the
    tokenizer yields no token (the default tokenizer yields at least one
    token for every text).  For a category that is no name of a property of
    [Object.prototype], [learn] returns, the category is there, its document
    count and [totalDocuments] are one more, and its word count, its table
    and the vocabulary are those of before: a count of zero and an empty
    table when the category is new. *)
Theorem learn_without_tokens b text category :
  reachableBy plainCategory b → ObjectPrototype category = None →
  tokenizer b text = [] →
  ∃ b' t,
    learn b text category = Returns b'
    ∧ categories b' = <[category := true]> (categories b)
    ∧ totalDocuments b = Int t ∧ totalDocuments b' = Int (t + 1)
    ∧ docCount b' = <[category := Int (documentsOf b category + 1)]> (docCount b)
    ∧ wordCount b' = <[category := VNum (Int (wordsOf b category))]> (wordCount b)
    ∧ wordFrequencyCount b'
      = <[category := tableOf b category]> (wordFrequencyCount b)
    ∧ vocabulary b' = vocabulary b ∧ vocabularySize b' = vocabularySize b.
Proof.
  intros Hb Hplain Hnone.
  pose proof (reachable_vocabulary _ b Hb) as Hvc.
  assert (plainText b text) as Htext by (unfold plainText; rewrite Hnone; constructor).
  destruct (learn_plain b text category (reachable_wellFormed _ b Hb) Hvc
              (reachable_registered _ b Hb) Hplain Htext)
    as (b' & t & table' & Heq & Ht & Ht' & _ & Hcats & Hd & Hw & Htables & Htable'
        & Hvoc & Hsize).
  rewrite Hnone in *. cbn [length] in Hw.
  assert (table' = tableOf b category) as ->.
  { apply map_eq. intros k. rewrite Htable'. case_decide as Hin; [|done].
    by apply elem_of_nil in Hin. }
  assert (vocabulary b' = vocabulary b) as Hsame.
  { apply map_eq. intros k. rewrite Hvoc. case_decide as Hin; [|done].
    by apply elem_of_nil in Hin. }
  exists b', t. split_and!; try done.
  - rewrite Hw. do 3 f_equal. lia.
  - rewrite Hsize, Hsame. symmetry. apply Hvc.
Qed.

Lemma learn_without_tokens_witness :
  let b := newBayes (Some (λ _, [])) in
  reachableBy plainCategory b ∧ ObjectPrototype (lit "positive") = None
  ∧ tokenizer b (lit "I love cats") = []
  ∧ ∃ b' t,
      learn b (lit "I love cats") (lit "positive") = Returns b'
      ∧ categories b' = <[lit "positive" := true]> (categories b)
      ∧ totalDocuments b = Int t ∧ totalDocuments b' = Int (t + 1)
      ∧ docCount b'
        = <[lit "positive" := Int (documentsOf b (lit "positive") + 1)]> (docCount b)
      ∧ wordCount b'
        = <[lit "positive" := VNum (Int (wordsOf b (lit "positive")))]> (wordCount b)
      ∧ wordFrequencyCount b'
        = <[lit "positive" := tableOf b (lit "positive")]> (wordFrequencyCount b)
      ∧ vocabulary b' = vocabulary b ∧ vocabularySize b' = vocabularySize b.
Proof.
  intros b. split; [apply reachable_new|]. split; [reflexivity|]. split; [reflexivity|].
  apply (learn_without_tokens b (lit "I love cats") (lit "positive"));
    [apply reachable_new|reflexivity|reflexivity].
Defined.

(** ** The order of the scores *)

Lemma Qltb_true p q : Qltb p q = true → (p < q)%Q.
Proof.
  unfold Qltb. intros H. apply negb_true_iff in H.
  apply Qnot_le_lt. intros Hle. apply Qle_bool_iff in Hle. congruence.
Qed.

Lemma Qltb_false p q : Qltb p q = false → (q <= p)%Q.
Proof.
  unfold Qltb. intros H. apply negb_false_iff in H. by apply Qle_bool_iff.
Qed.

Lemma Qltb_lt p q : (p < q)%Q → Qltb p q = true.
Proof.
  intros H. destruct (Qltb p q) eqn:E; [done|].
  apply Qltb_false in E. by destruct (Qlt_not_le _ _ H).
Qed.

Lemma Qltb_le p q : (q <= p)%Q → Qltb p q = false.
Proof.
  intros H. destruct (Qltb p q) eqn:E; [|done].
  apply Qltb_true in E. by destruct (Qlt_not_le _ _ E).
Qed.

(** [>] on scores is a strict order, and two numbers that are not [NaN]
    compare. *)
Lemma score_gt_irrefl s : score_gt s s = false.
Proof. destruct s as [|[]|q]; simpl; try done. apply Qltb_le, Qle_refl. Qed.

Lemma score_gt_trans a b c :
  score_gt a b = true → score_gt b c = true → score_gt a c = true.
Proof.
  destruct a as [|[]|p], b as [|[]|q], c as [|[]|r]; simpl; try done.
  intros H1%Qltb_true H2%Qltb_true. apply Qltb_lt. by apply (Qlt_trans _ q).
Qed.

Lemma score_gt_between a b c :
  b ≠ SNaN → score_gt a c = true → score_gt a b = true ∨ score_gt b c = true.
Proof.
  destruct a as [|[]|p], b as [|[]|q], c as [|[]|r]; simpl; try done; auto.
  intros _ H%Qltb_true. destruct (Qlt_le_dec q p) as [Hlt|Hle].
  - left. by apply Qltb_lt.
  - right. apply Qltb_lt. by apply (Qlt_le_trans _ p).
Qed.

Lemma score_gt_above s m : score_gt s m = true → score_gt s (SInf true) = true.
Proof. by destruct s as [|[]|p], m as [|[]|q]. Qed.

(** The comparison function of [sort]. *)
Lemma byProbability_Gt x y : byProbability x y = Gt → notGreater y x.
Proof.
  unfold byProbability, notGreater.
  destruct (resultProbability x) as [|[]|p], (resultProbability y) as [|[]|q];
    simpl; try done.
  intros H. apply Qltb_le, Qlt_le_weak. by apply Qgt_alt.
Qed.

Lemma byProbability_not_Gt x y :
  resultProbability x ≠ SNaN → resultProbability y ≠ SNaN →
  byProbability x y ≠ Gt → notGreater x y.
Proof.
  unfold byProbability, notGreater.
  destruct (resultProbability x) as [|[]|p], (resultProbability y) as [|[]|q];
    simpl; try done.
  intros _ _ H. by apply Qltb_le, Qle_alt.
Qed.

Lemma notGreater_trans x y z :
  resultProbability y ≠ SNaN → notGreater x y → notGreater y z → notGreater x z.
Proof.
  unfold notGreater. intros Hy Hxy Hyz.
  destruct (score_gt (resultProbability z) (resultProbability x)) eqn:E; [|done].
  destruct (score_gt_between _ (resultProbability y) _ Hy E); congruence.
Qed.

Lemma insertSorted_nonIncreasing x sorted :
  resultProbability x ≠ SNaN → Forall (λ y, resultProbability y ≠ SNaN) sorted →
  nonIncreasing sorted → nonIncreasing (insertSorted byProbability x sorted).
Proof.
  intros Hx Hnumeric Hsorted. unfold nonIncreasing in *.
  induction Hsorted as [|y sorted Hsorted IH Hall]; simpl.
  - by repeat constructor.
  - apply Forall_cons in Hnumeric as [Hy Hnumeric].
    assert (byProbability x y ≠ Gt → StronglySorted notGreater (x :: y :: sorted)) as Hfront.
    { intros Hcmp. pose proof (byProbability_not_Gt x y Hx Hy Hcmp) as Hxy.
      constructor; [by constructor|]. constructor; [done|].
      eapply Forall_impl; [exact Hall|]. intros z Hyz. by apply (notGreater_trans x y z). }
    destruct (byProbability x y) eqn:Hcmp; [by apply Hfront..|].
    constructor; [by apply IH|].
    rewrite insertSorted_Permutation. constructor; [|done].
    by apply byProbability_Gt.
Qed.

(** [sort] puts scores without a [NaN] in non-increasing order. *)
Lemma Array_sort_nonIncreasing results :
  Forall (λ y, resultProbability y ≠ SNaN) results →
  nonIncreasing (Array_sort byProbability results).
Proof.
  induction 1 as [|x results Hx Hnumeric IH]; simpl; [constructor|].
  apply insertSorted_nonIncreasing; [done| |done].
  by rewrite Array_sort_Permutation.
Qed.

(** The outer loop of [categorize] keeps track of the greatest score. *)
Lemma eachCategory_tracked b table keys maxProbability acc r :
  eachCategory b table keys maxProbability acc = Returns r →
  tracked maxProbability acc → ∃ m, tracked m r.
Proof.
  revert maxProbability acc.
  induction keys as [|c keys IH]; intros m acc Hr Hacc; simpl in Hr.
  - injection Hr as <-. eauto.
  - destruct (addTokens b c table _) as [s| |]; [|done..].
    cbn [mbind outcome_bind] in Hr.
    destruct Hacc as [Hmax Hchosen].
    destruct (score_gt s m) eqn:Hgt; apply IH in Hr as [m' Hr]; eauto.
    + split; cbn.
      * intros x [Hx|Hx%list_elem_of_singleton]%elem_of_app.
        -- destruct (score_gt (resultProbability x) s) eqn:E; [|done].
           pose proof (score_gt_trans _ _ _ E Hgt) as Ht.
           by rewrite (Hmax x Hx) in Ht.
        -- subst x. apply score_gt_irrefl.
      * split; [done|]. split; [|by apply (score_gt_above s m)].
        apply elem_of_app. right. by apply list_elem_of_singleton.
    + split; cbn.
      * intros x [Hx|Hx%list_elem_of_singleton]%elem_of_app; [by apply Hmax|].
        by subst x.
      * destruct (chosenCategory acc); [|done].
        destruct Hchosen as (? & ? & ?). split; [done|]. split; [|done].
        apply elem_of_app. by left.
Qed.

(** The ranking of [categorize], whenever it returns.  When no score is
    [NaN], the results are in non-increasing order of score.  The category
    chosen, when there is one, has its recorded probability among the
    results, above [-Infinity], and no result is greater; and no category is
    chosen only when no score is above [-Infinity]: every score is then
    [-Infinity] or [NaN]. *)
Theorem categorize_ranks b text r :
  categorize b text = Returns r →
  (Forall (λ x, resultProbability x ≠ SNaN) (categoryResults r) →
     nonIncreasing (categoryResults r))
  ∧ (∀ c, chosenCategory r = Some c →
       ∃ m, probability r = Some m
         ∧ {| name := c; resultProbability := m |} ∈ categoryResults r
         ∧ score_gt m (SInf true) = true
         ∧ ∀ x, x ∈ categoryResults r → score_gt (resultProbability x) m = false)
  ∧ (chosenCategory r = None →
       probability r = None
       ∧ ∀ x, x ∈ categoryResults r →
           score_gt (resultProbability x) (SInf true) = false).
Proof.
  unfold categorize. intros Hr.
  destruct (eachCategory _ _ _ _ _) as [r0| |] eqn:Hloop; [|done..].
  cbn [mbind outcome_bind] in Hr. injection Hr as <-. cbn.
  apply eachCategory_tracked in Hloop as [m [Hmax Hchosen]].
  2:{ split; cbn; [|done]. by intros x Hx%elem_of_nil. }
  assert (∀ x, x ∈ Array_sort byProbability (categoryResults r0)
               ↔ x ∈ categoryResults r0) as Hin.
  { intros x. by rewrite Array_sort_Permutation. }
  split; [|split].
  - intros Hnumeric. apply Array_sort_nonIncreasing.
    by rewrite Array_sort_Permutation in Hnumeric.
  - intros c Hc. rewrite Hc in Hchosen. destruct Hchosen as (Hp & Hm & Habove).
    exists m. split; [done|]. split; [by apply Hin|]. split; [done|].
    intros x Hx. by apply Hmax, Hin.
  - intros Hnone. rewrite Hnone in Hchosen. destruct Hchosen as [Hp ->].
    split; [done|]. intros x Hx. by apply Hmax, Hin.
Qed.

Lemma categorize_ranks_witness :
  let b := stateOf (learn (stateOf (learn (newBayes None) (lit "I love cats") (lit "positive")))
                      (lit "I hate rain") (lit "negative")) in
  let r := match categorize b (lit "I love cats") with
           | Returns r => r
           | _ => {| chosenCategory := None; probability := None; categoryResults := [] |}
           end in
  categorize b (lit "I love cats") = Returns r
  ∧ (Forall (λ x, resultProbability x ≠ SNaN) (categoryResults r) →
       nonIncreasing (categoryResults r))
  ∧ (∀ c, chosenCategory r = Some c →
       ∃ m, probability r = Some m
         ∧ {| name := c; resultProbability := m |} ∈ categoryResults r
         ∧ score_gt m (SInf true) = true
         ∧ ∀ x, x ∈ categoryResults r → score_gt (resultProbability x) m = false)
  ∧ (chosenCategory r = None →
       probability r = None
       ∧ ∀ x, x ∈ categoryResults r →
           score_gt (resultProbability x) (SInf true) = false).
Proof.
  intros b r.
  assert (categorize b (lit "I love cats") = Returns r) as H by (vm_compute; reflexivity).
  split; [exact H|].
  apply (categorize_ranks b (lit "I love cats") r H).
Defined.
